(** * Monkey: lexer, AST rendering and Pratt parser

    A shallow embedding of the Go packages [token], [lexer], [ast] and
    [parser] of the Monkey front end, followed by the properties of the
    specification that were checked against it.

    Conventions of the embedding:
    - a Go [string] is a Rocq [string] (a sequence of bytes), a Go [byte] is
      an [ascii];
    - [token.Type] is a Go string type, so it is a [string] here too: the
      zero value [""] of [token.Token{}] is a value of the type, as in Go;
    - Go maps that are only read after their construction are association
      lists with a lookup function;
    - a nil interface or nil pointer is [None]; calling a method on it, or
      asserting its type, panics, and a panic is an outcome of its own;
    - cursor positions are [nat]: they stay between 0 and [len(input)];
    - [int64] values are [Z] inside the signed 64-bit range;
    - the methods of the parser call each other without a structural
      argument, so they take a bound on the depth of calls ("fuel"); the
      results are independent of the bound once it is large enough
      ([ParserProps.parse_fuel_irrelevant]) and a bound linear in the length
      of the input always is ([ParserProps.parse_ends]). *)

From Stdlib Require Import String Ascii List ZArith NArith Arith Lia Bool.
Import ListNotations.
Local Open Scope string_scope.

(** ** Go runtime helpers *)

Module gostd.

(** A read-only Go map as an association list. *)
Fixpoint map_get {K V : Type} (eqb : K -> K -> bool) (m : list (K * V)) (k : K)
  : option V :=
  match m with
  | [] => None
  | (k', v) :: m' => if eqb k k' then Some v else map_get eqb m' k
  end.

Definition byte_val (c : ascii) : nat := nat_of_ascii c.

(** [lo <= ch && ch <= hi] on bytes. *)
Definition byte_between (lo hi ch : ascii) : bool :=
  (byte_val lo <=? byte_val ch)%nat && (byte_val ch <=? byte_val hi)%nat.

(** The conversion [string(ch)] of a byte: the UTF-8 encoding of the code
    point U+0000..U+00FF with that number. *)
Definition string_of_byte (ch : ascii) : string :=
  let n := byte_val ch in
  if (n <? 128)%nat then String ch EmptyString
  else String (ascii_of_nat (192 + n / 64))
         (String (ascii_of_nat (128 + n mod 64)) EmptyString).

(** [s[n:]]. *)
Fixpoint drop (n : nat) (s : string) : string :=
  match n, s with
  | O, _ => s
  | S n', String _ s' => drop n' s'
  | S _, EmptyString => EmptyString
  end.

(** [strings.Join]. *)
Fixpoint Join (elems : list string) (sep : string) : string :=
  match elems with
  | [] => ""
  | [e] => e
  | e :: rest => e ++ sep ++ Join rest sep
  end.

End gostd.

(** ** Package token *)

Module token.

Definition TokenType := string.

Record Token := mkToken { Type_ : TokenType; Literal : string }.

(** The zero value [Token{}]. *)
Definition zeroToken : Token := mkToken "" "".

Definition ILLEGAL : TokenType := "ILLEGAL".
Definition EOF : TokenType := "EOF".
Definition IDENT : TokenType := "IDENT".
Definition INT : TokenType := "INT".
Definition ASSIGN : TokenType := "=".
Definition PLUS : TokenType := "+".
Definition MINUS : TokenType := "-".
Definition SLASH : TokenType := "/".
Definition ASTERISK : TokenType := "*".
Definition BANG : TokenType := "!".
Definition LT : TokenType := "<".
Definition GT : TokenType := ">".
Definition EQ : TokenType := "==".
Definition NOTEQ : TokenType := "!=".
Definition COMMA : TokenType := ",".
Definition SEMICOLON : TokenType := ";".
Definition LPAREN : TokenType := "(".
Definition RPAREN : TokenType := ")".
Definition LBRACE : TokenType := "{".
Definition RBRACE : TokenType := "}".
Definition TRUE : TokenType := "TRUE".
Definition FALSE : TokenType := "FALSE".
Definition FUNCTION : TokenType := "FUNCTION".
Definition LET : TokenType := "LET".
Definition IF : TokenType := "IF".
Definition ELSE : TokenType := "ELSE".
Definition RETURN : TokenType := "RETURN".

Definition keywords : list (string * TokenType) :=
  [ ("let", LET); ("fn", FUNCTION); ("if", IF); ("else", ELSE);
    ("return", RETURN); ("true", TRUE); ("false", FALSE) ].

Definition singleCharTokens : list (ascii * TokenType) :=
  [ (","%char, COMMA); (";"%char, SEMICOLON); ("("%char, LPAREN);
    (")"%char, RPAREN); ("{"%char, LBRACE); ("}"%char, RBRACE);
    ("="%char, ASSIGN); ("+"%char, PLUS); ("-"%char, MINUS);
    ("*"%char, ASTERISK); ("/"%char, SLASH); ("!"%char, BANG);
    ("<"%char, LT); (">"%char, GT) ].

Definition twoCharTokens : list (string * TokenType) :=
  [ ("==", EQ); ("!=", NOTEQ) ].

Definition GetTokenType (identifier : string) : TokenType :=
  match gostd.map_get String.eqb keywords identifier with
  | None => IDENT
  | Some t => t
  end.

Definition GetSingleCharToken (ch : ascii) : TokenType :=
  match gostd.map_get Ascii.eqb singleCharTokens ch with
  | None => ILLEGAL
  | Some t => t
  end.

Definition GetTwoCharToken (s : string) : TokenType :=
  match gostd.map_get String.eqb twoCharTokens s with
  | None => ILLEGAL
  | Some t => t
  end.

End token.

(** ** Package lexer *)

Module lexer.
Import token.

Record Lexer := mkLexer {
  input : string;
  position : nat;
  nextPosition : nat;
  ch : ascii
}.

Definition isCharacter (c : ascii) : bool :=
  gostd.byte_between "a" "z" c || gostd.byte_between "A" "Z" c.

Definition isWhitespace (c : ascii) : bool :=
  Ascii.eqb c " " || Ascii.eqb c "009" || Ascii.eqb c "013" || Ascii.eqb c "010".

Definition isDigit (c : ascii) : bool := gostd.byte_between "0" "9" c.

(** [l.input[i]] under the guard [i < len(l.input)] that every use has. *)
Definition byte_at (s : string) (i : nat) : ascii :=
  match String.get i s with
  | Some c => c
  | None => zero
  end.

Definition consumeNextChar (l : Lexer) : Lexer :=
  let pos := nextPosition l in
  let next := if (nextPosition l <? String.length (input l))%nat
              then S (nextPosition l) else nextPosition l in
  let c := if (pos <? String.length (input l))%nat
           then byte_at (input l) pos else zero in
  mkLexer (input l) pos next c.

Definition New (input : string) : Lexer :=
  consumeNextChar (mkLexer input 0 0 zero).

Definition peekNextChar (l : Lexer) : ascii :=
  if (String.length (input l) <=? nextPosition l)%nat then zero
  else byte_at (input l) (nextPosition l).

(** [for cond(l.ch) { l.consumeNextChar() }].  The three scanning loops of
    the lexer have this shape.  Every condition is false on the 0 byte, which
    is the current byte once the cursor is at the end of the input, so a loop
    makes at most [len(input) - position] iterations; [loop_fuel] is one
    more than that (see [scan_stops] below). *)
Fixpoint scan (cond : ascii -> bool) (fuel : nat) (l : Lexer) : Lexer :=
  match fuel with
  | O => l
  | S fuel' => if cond (ch l) then scan cond fuel' (consumeNextChar l) else l
  end.

Definition loop_fuel (l : Lexer) : nat :=
  S (String.length (input l) - position l).

Definition consumeWhitespaces (l : Lexer) : Lexer :=
  scan (fun c => negb (Ascii.eqb c zero) && isWhitespace c) (loop_fuel l) l.

(** A lexlet returns the token, the [ok] flag and the lexer it leaves. *)
Definition lexlet := Lexer -> Token * bool * Lexer.

Definition eofLexlet : lexlet := fun l =>
  if negb (Ascii.eqb (ch l) zero) then (zeroToken, false, l)
  else (mkToken EOF "", true, l).

Definition twoCharLexlet : lexlet := fun l =>
  let chars := gostd.string_of_byte (ch l)
               ++ gostd.string_of_byte (peekNextChar l) in
  let typ := GetTwoCharToken chars in
  if String.eqb typ ILLEGAL then (zeroToken, false, l)
  else (mkToken typ chars, true, consumeNextChar (consumeNextChar l)).

Definition singleCharLexlet : lexlet := fun l =>
  let typ := GetSingleCharToken (ch l) in
  if String.eqb typ ILLEGAL then (zeroToken, false, l)
  else (mkToken typ (gostd.string_of_byte (ch l)), true, consumeNextChar l).

Definition literalsLexlet : lexlet := fun l =>
  if Ascii.eqb (ch l) zero || negb (isDigit (ch l)) then (zeroToken, false, l)
  else
    let pos := position l in
    let l' := scan isDigit (loop_fuel l) l in
    let literal := substring pos (position l' - pos) (input l') in
    (mkToken INT literal, true, l').

Definition identifiersAndKeywordsLexlet : lexlet := fun l =>
  if Ascii.eqb (ch l) zero || negb (isCharacter (ch l))
  then (zeroToken, false, l)
  else
    let pos := position l in
    let l' := scan isCharacter (loop_fuel l) l in
    let ident := substring pos (position l' - pos) (input l') in
    (mkToken (GetTokenType ident) ident, true, l').

Definition lexlets : list lexlet :=
  [ eofLexlet; twoCharLexlet; singleCharLexlet; literalsLexlet;
    identifiersAndKeywordsLexlet ].

(** [for _, lexlet := range lexlets { if tok, ok := lexlet(l); ok { return tok } }]
    followed by the fall-through of [NextToken]. *)
Fixpoint tryLexlets (ls : list lexlet) (l : Lexer) : Token * Lexer :=
  match ls with
  | [] =>
      let c := ch l in
      (mkToken ILLEGAL (gostd.string_of_byte c), consumeNextChar l)
  | lx :: rest =>
      match lx l with
      | (tok, true, l') => (tok, l')
      | (_, false, l') => tryLexlets rest l'
      end
  end.

Definition NextToken (l : Lexer) : Token * Lexer :=
  tryLexlets lexlets (consumeWhitespaces l).

End lexer.

(** ** Package ast *)

Module ast.
Import token.

Record Identifier := mkIdentifier { Ident_Token : Token; Ident_Value : string }.

(** The node types.  A field of interface type ([Expression], [Statement])
    or of pointer type ([*Identifier], [*BlockStatement]) can be nil, hence
    the options. *)
#[warnings="-register-all"]
Inductive Expression : Type :=
| ExprIdentifier (i : Identifier)
| IntegerLiteral (tok : Token) (Value : Z)
| Boolean (tok : Token) (Value : bool)
| PrefixExpression (tok : Token) (Operator : string) (Right : option Expression)
| InfixExpression (tok : Token) (Left : option Expression) (Operator : string)
    (Right : option Expression)
| IfExpression (tok : Token) (Condition : option Expression)
    (Consequence : option BlockStatement) (Alternative : option BlockStatement)
| FunctionLiteral (tok : Token) (Parameters : list (option Identifier))
    (Body : option BlockStatement)
| CallExpression (tok : Token) (Function : option Expression)
    (Arguments : list (option Expression))
with Statement : Type :=
| LetStatement (tok : Token) (Name : option Identifier) (Value : option Expression)
| ReturnStatement (tok : Token) (ReturnValue : option Expression)
| ExpressionStatement (tok : Token) (Expr : option Expression)
| StmtBlock (b : BlockStatement)
with BlockStatement : Type :=
| mkBlockStatement (tok : Token) (Statements : list (option Statement)).

Record Program := mkProgram { Statements : list (option Statement) }.

(** Rendering.  A [String] method called on a nil interface, or reading a
    field through a nil pointer, panics: the result is [None] then. *)
Definition obind {A B : Type} (x : option A) (f : A -> option B) : option B :=
  match x with
  | None => None
  | Some a => f a
  end.

Notation "x <-? c ;; k" := (obind c (fun x => k))
  (at level 61, c at next level, right associativity).

Definition Identifier_String (i : Identifier) : string := Ident_Value i.

(** [for _, x := range xs { strs = append(strs, x.String()) }]: the texts of
    the elements, in order. *)
Fixpoint Strings {A : Type} (String_ : A -> option string) (xs : list (option A))
  : option (list string) :=
  match xs with
  | [] => Some []
  | x :: xs' =>
      s <-? obind x String_ ;;
      ss <-? Strings String_ xs' ;;
      Some (s :: ss)
  end.

(** [for _, s := range stmts { out.WriteString(s.String()) }]: the texts of
    the elements, one after the other. *)
Fixpoint WriteStrings {A : Type} (String_ : A -> option string)
    (xs : list (option A)) : option string :=
  match xs with
  | [] => Some ""
  | x :: xs' =>
      s <-? obind x String_ ;;
      r <-? WriteStrings String_ xs' ;;
      Some (s ++ r)
  end.

Fixpoint Expression_String (e : Expression) : option string :=
  match e with
  | ExprIdentifier i => Some (Identifier_String i)
  | IntegerLiteral tok _ => Some (Literal tok)
  | Boolean tok _ => Some (Literal tok)
  | PrefixExpression _ op rhs =>
      r <-? obind rhs Expression_String ;;
      Some ("(" ++ op ++ r ++ ")")
  | InfixExpression _ lhs op rhs =>
      a <-? obind lhs Expression_String ;;
      b <-? obind rhs Expression_String ;;
      Some ("(" ++ a ++ (" " ++ op ++ " ") ++ b ++ ")")
  | IfExpression _ cond conseq alt =>
      c <-? obind cond Expression_String ;;
      t <-? obind conseq BlockStatement_String ;;
      match alt with
      | None => Some ("if" ++ c ++ " " ++ t)
      | Some a =>
          f <-? BlockStatement_String a ;;
          Some ("if" ++ c ++ " " ++ t ++ "else " ++ f)
      end
  | FunctionLiteral tok params body =>
      ps <-? Strings (fun i => Some (Identifier_String i)) params ;;
      b <-? obind body BlockStatement_String ;;
      Some (Literal tok ++ "(" ++ gostd.Join ps ", " ++ ") " ++ b)
  | CallExpression _ fn args =>
      ss <-? Strings Expression_String args ;;
      f <-? obind fn Expression_String ;;
      Some (f ++ "(" ++ gostd.Join ss ", " ++ ")")
  end
with Statement_String (s : Statement) : option string :=
  match s with
  | LetStatement tok name value =>
      n <-? option_map Identifier_String name ;;
      match value with
      | None => Some ((Literal tok ++ " ") ++ n ++ " = " ++ ";")
      | Some v =>
          r <-? Expression_String v ;;
          Some ((Literal tok ++ " ") ++ n ++ " = " ++ r ++ ";")
      end
  | ReturnStatement tok value =>
      match value with
      | None => Some ((Literal tok ++ " ") ++ ";")
      | Some v =>
          r <-? Expression_String v ;;
          Some ((Literal tok ++ " ") ++ r ++ ";")
      end
  | ExpressionStatement _ e =>
      match e with
      | None => Some ""
      | Some e' => Expression_String e'
      end
  | StmtBlock b => BlockStatement_String b
  end
with BlockStatement_String (b : BlockStatement) : option string :=
  match b with
  | mkBlockStatement _ stmts => WriteStrings Statement_String stmts
  end.

Definition Program_String (p : Program) : option string :=
  WriteStrings Statement_String (Statements p).

End ast.

(** ** The two Go standard-library functions the parser calls

    [strconv.ParseInt(s, 0, 64)] and the verbs [%v] and [%q] of
    [fmt.Sprintf] belong to the Go standard library, not to this repository.
    They are written out here after the library's source so that the parser
    below computes. *)

Module strconv.

Definition lower (c : ascii) : ascii :=
  ascii_of_N (N.lor (N_of_ascii c) 32).

Inductive NumError := ErrSyntax | ErrRange.

Definition maxUint64 : Z := 2 ^ 64 - 1.

(** The digit loop of [ParseUint]: [Some (inl n)] is the value, [Some (inr
    e)] an error; the flag tells whether an underscore was skipped. *)
Fixpoint digits (base0 : bool) (base : Z) (s : string) (n : Z)
    (underscores : bool) : (Z + NumError) * bool :=
  match s with
  | EmptyString => (inl n, underscores)
  | String c s' =>
      if Ascii.eqb c "_" && base0 then digits base0 base s' n true else
      let d :=
        if gostd.byte_between "0" "9" c
        then Some (Z.of_nat (gostd.byte_val c) - 48)%Z
        else if gostd.byte_between "a" "z" (lower c)
        then Some (Z.of_nat (gostd.byte_val (lower c)) - 97 + 10)%Z
        else None in
      match d with
      | None => (inr ErrSyntax, underscores)
      | Some d =>
          if (base <=? d)%Z then (inr ErrSyntax, underscores)
          else if (maxUint64 / base + 1 <=? n)%Z then (inr ErrRange, underscores)
          else
            let n1 := (n * base + d)%Z in
            if (maxUint64 <? n1)%Z then (inr ErrRange, underscores)
            else digits base0 base s' n1 underscores
      end
  end.

(** [underscoreOK]: underscores only between digits, or between a base
    prefix and a digit.  [saw] is the last character class seen. *)
Inductive saw := SawStart | SawDigit | SawUnderscore | SawOther.

Fixpoint underscoreOK_loop (hex : bool) (s : string) (last : saw) : bool :=
  match s with
  | EmptyString => match last with SawUnderscore => false | _ => true end
  | String c s' =>
      if gostd.byte_between "0" "9" c
         || (hex && gostd.byte_between "a" "f" (lower c))
      then underscoreOK_loop hex s' SawDigit
      else if Ascii.eqb c "_" then
        match last with
        | SawDigit => underscoreOK_loop hex s' SawUnderscore
        | _ => false
        end
      else
        match last with
        | SawUnderscore => false
        | _ => underscoreOK_loop hex s' SawOther
        end
  end.

Definition is_base_letter (c : ascii) : bool :=
  let c := lower c in Ascii.eqb c "b" || Ascii.eqb c "o" || Ascii.eqb c "x".

Definition underscoreOK (s : string) : bool :=
  let s := match s with
           | String c s' =>
               if Ascii.eqb c "-" || Ascii.eqb c "+" then s' else s
           | EmptyString => s
           end in
  match s with
  | String "0" (String c s') =>
      if is_base_letter c
      then underscoreOK_loop (Ascii.eqb (lower c) "x") s' SawDigit
      else underscoreOK_loop false s SawStart
  | _ => underscoreOK_loop false s SawStart
  end.

(** [ParseUint(s, 0, 64)]. *)
Definition ParseUint0 (s : string) : Z + NumError :=
  match s with
  | EmptyString => inr ErrSyntax
  | String c0 rest =>
      let '(base, body) :=
        if Ascii.eqb c0 "0" then
          match rest with
          | String c1 (String c2 rest2) =>
              if Ascii.eqb (lower c1) "b" then (2%Z, String c2 rest2)
              else if Ascii.eqb (lower c1) "o" then (8%Z, String c2 rest2)
              else if Ascii.eqb (lower c1) "x" then (16%Z, String c2 rest2)
              else (8%Z, rest)
          | _ => (8%Z, rest)
          end
        else (10%Z, s) in
      match digits true base body 0%Z false with
      | (inr e, _) => inr e
      | (inl n, underscores) =>
          if underscores && negb (underscoreOK s) then inr ErrSyntax
          else inl n
      end
  end.

(** [ParseInt(s, 0, 64)]: the value, or the error. *)
Definition ParseInt0 (s : string) : Z + NumError :=
  match s with
  | EmptyString => inr ErrSyntax
  | String c0 rest =>
      let '(neg, body) :=
        if Ascii.eqb c0 "+" then (false, rest)
        else if Ascii.eqb c0 "-" then (true, rest)
        else (false, s) in
      let cutoff := (2 ^ 63)%Z in
      match ParseUint0 body with
      | inr ErrSyntax => inr ErrSyntax
      | inr ErrRange => inr ErrRange
      | inl un =>
          if negb neg && (cutoff <=? un)%Z then inr ErrRange
          else if neg && (cutoff <? un)%Z then inr ErrRange
          else inl (if neg then (- un)%Z else un)
      end
  end.

Definition lowerhex (n : nat) : ascii :=
  match String.get n "0123456789abcdef" with
  | Some c => c
  | None => "0"%char
  end.

Definition dquote : ascii := ascii_of_nat 34.
Definition backslash : ascii := ascii_of_nat 92.

(** One rune of [Quote], for the runes U+0000..U+00FF. *)
Definition escapedRune (r : nat) : string :=
  let c := ascii_of_nat r in
  if Ascii.eqb c dquote || Ascii.eqb c backslash
  then String backslash (String c EmptyString)
  else if ((32 <=? r) && (r <=? 126))%nat then String c EmptyString
  else if ((161 <=? r) && (r <=? 255) && negb (r =? 173))%nat
  then gostd.string_of_byte c
  else if (r =? 7)%nat then String backslash "a"
  else if (r =? 8)%nat then String backslash "b"
  else if (r =? 12)%nat then String backslash "f"
  else if (r =? 10)%nat then String backslash "n"
  else if (r =? 13)%nat then String backslash "r"
  else if (r =? 9)%nat then String backslash "t"
  else if (r =? 11)%nat then String backslash "v"
  else if ((r <? 32) || (r =? 127))%nat
  then String backslash
         (String "x" (String (lowerhex (r / 16)) (String (lowerhex (r mod 16)) "")))
  else String backslash
         (String "u" (String "0" (String "0"
            (String (lowerhex (r / 16)) (String (lowerhex (r mod 16)) ""))))).

(** An invalid UTF-8 byte is written as [\xNN]. *)
Definition escapedByte (c : ascii) : string :=
  let b := gostd.byte_val c in
  String backslash
    (String "x" (String (lowerhex (b / 16)) (String (lowerhex (b mod 16)) ""))).

(** The body of [Quote].  The text of a token is made of ASCII bytes, or is
    the two-byte encoding of one rune U+0080..U+00FF (an illegal byte
    converted by [string(ch)]); those are decoded as Go does.  Longer
    encodings, which no token carries, would need Go's Unicode tables and
    are treated as invalid bytes. *)
Fixpoint quoteBody (s : string) : string :=
  match s with
  | EmptyString => EmptyString
  | String c s' =>
      let b := gostd.byte_val c in
      if (b <? 128)%nat then escapedRune b ++ quoteBody s'
      else
        match s' with
        | String c2 s'' =>
            let b2 := gostd.byte_val c2 in
            if ((194 <=? b) && (b <=? 195) && (128 <=? b2) && (b2 <=? 191))%nat
            then escapedRune ((b - 192) * 64 + (b2 - 128)) ++ quoteBody s''
            else escapedByte c ++ quoteBody s'
        | EmptyString => escapedByte c
        end
  end.

Definition Quote (s : string) : string :=
  String dquote (quoteBody s ++ String dquote EmptyString).

End strconv.

Module fmt.
Import token.

(** [%v] of a [token.Token]: the fields between braces. *)
Definition v_Token (t : Token) : string :=
  "{" ++ Type_ t ++ " " ++ Literal t ++ "}".

(** [%v] of a [token.Type]. *)
Definition v_Type (t : TokenType) : string := t.

(** [%q] of a string. *)
Definition q (s : string) : string := strconv.Quote s.

End fmt.

(** ** Package parser *)

Module parser.
Import token ast.

Definition LOWEST : Z := 1.
Definition EQUALS : Z := 2.
Definition LESSGREATER : Z := 3.
Definition SUM : Z := 4.
Definition PRODUCT : Z := 5.
Definition PREFIX : Z := 6.
Definition CALL : Z := 7.

Definition precedences : list (TokenType * Z) :=
  [ (EQ, EQUALS); (NOTEQ, EQUALS); (LT, LESSGREATER); (GT, LESSGREATER);
    (PLUS, SUM); (MINUS, SUM); (SLASH, PRODUCT); (ASTERISK, PRODUCT) ].

(** The parser state.  The two registries [prefixParsers] and
    [infixParsers] are filled by [New] and only read afterwards; they are
    the constants below. *)
Record Parser := mkParser {
  l : lexer.Lexer;
  currentToken : Token;
  nextToken : Token;
  errors : list string
}.

(** The registered parse functions, by name. *)
Inductive parselet :=
| letStatementParselet_ | returnStatementParselet_ | blockStatementParselet_.

Inductive prefixParseFn :=
| parseIdentifier_ | parseIntegerLiteral_ | parseBooleanLiteral_
| parsePrefixOperator_ | parseGroupedExpression_ | parseIfExpression_
| parseFunctionExpression_.

Inductive infixParseFn := parseInfixExpression_.

Definition parselets : list (TokenType * parselet) :=
  [ (LET, letStatementParselet_); (RETURN, returnStatementParselet_);
    (LBRACE, blockStatementParselet_) ].

Definition prefixParsers : list (TokenType * prefixParseFn) :=
  [ (IDENT, parseIdentifier_); (INT, parseIntegerLiteral_);
    (TRUE, parseBooleanLiteral_); (FALSE, parseBooleanLiteral_);
    (BANG, parsePrefixOperator_); (MINUS, parsePrefixOperator_);
    (LPAREN, parseGroupedExpression_); (IF, parseIfExpression_);
    (FUNCTION, parseFunctionExpression_) ].

Definition infixParsers : list (TokenType * infixParseFn) :=
  [ (PLUS, parseInfixExpression_); (MINUS, parseInfixExpression_);
    (ASTERISK, parseInfixExpression_); (SLASH, parseInfixExpression_);
    (LT, parseInfixExpression_); (GT, parseInfixExpression_);
    (EQ, parseInfixExpression_); (NOTEQ, parseInfixExpression_) ].

Definition lookup {V : Type} (m : list (TokenType * V)) (t : TokenType)
  : option V := gostd.map_get String.eqb m t.

(** *** The methods that neither recurse nor panic *)

Definition consumeNextToken (p : Parser) : Parser :=
  if String.eqb (Type_ (currentToken p)) EOF then p
  else
    let (tok, l') := lexer.NextToken (l p) in
    mkParser l' (nextToken p) tok (errors p).

Definition New (lx : lexer.Lexer) : Parser :=
  consumeNextToken (consumeNextToken (mkParser lx zeroToken zeroToken [])).

Definition addError (err : string) (p : Parser) : Parser :=
  mkParser (l p) (currentToken p) (nextToken p) (errors p ++ [err]).

Definition Errors (p : Parser) : list string := errors p.

Definition getCurrentPrecedence (p : Parser) : Z :=
  match lookup precedences (Type_ (currentToken p)) with
  | None => LOWEST
  | Some precedence => precedence
  end.

Definition consumeToken (t : TokenType) (p : Parser) : Parser :=
  let p1 :=
    if negb (String.eqb (Type_ (currentToken p)) t)
    then addError ("Could not properly consume token: "
                   ++ fmt.v_Token (currentToken p)
                   ++ " expected: " ++ fmt.v_Type t) p
    else p in
  consumeNextToken p1.

Definition parseIdentifier (p : Parser) : Identifier * Parser :=
  let expr := mkIdentifier (currentToken p) (Literal (currentToken p)) in
  (expr, consumeNextToken p).

Definition parseIntegerLiteral (p : Parser) : option Expression * Parser :=
  let tok := currentToken p in
  let val := strconv.ParseInt0 (Literal (currentToken p)) in
  let p1 := consumeNextToken p in
  match val with
  | inr _ =>
      (None, addError ("Could not parse "
                       ++ fmt.q (Literal (currentToken p1))
                       ++ " as integer") p1)
  | inl v => (Some (IntegerLiteral tok v), p1)
  end.

Definition parseBooleanLiteral (p : Parser) : option Expression * Parser :=
  let expr := Boolean (currentToken p)
                (String.eqb (Type_ (currentToken p)) TRUE) in
  (Some expr, consumeNextToken p).

(** *** The recursive methods

    They call each other, so they take a bound [fuel] on the depth of the
    calls still allowed (an iteration of a loop counts as a call).  A run
    ends in a value and the parser state it leaves, in a Go panic, or with
    the bound exhausted. *)

Inductive result (A : Type) : Type :=
| Ok (a : A) (p : Parser)
| Panic (reason : string)
| OutOfFuel.
Arguments Ok {A} a p.
Arguments Panic {A} reason.
Arguments OutOfFuel {A}.

Definition M (A : Type) : Type := Parser -> result A.

Definition ret {A : Type} (a : A) : M A := fun p => Ok a p.

Definition bind {A B : Type} (m : M A) (f : A -> M B) : M B :=
  fun p =>
    match m p with
    | Ok a p' => f a p'
    | Panic r => Panic r
    | OutOfFuel => OutOfFuel
    end.

Notation "x <- c ;; k" := (bind c (fun x => k))
  (at level 61, c at next level, right associativity).
Notation "c ;;; k" := (bind c (fun _ => k))
  (at level 61, right associativity).

(** A state change as an action, a pure method as an action, reading the
    state, reading the current token. *)
Definition exec (f : Parser -> Parser) : M unit := fun p => Ok tt (f p).
Definition call {A : Type} (f : Parser -> A * Parser) : M A :=
  fun p => let (a, p') := f p in Ok a p'.
Definition read {A : Type} (f : Parser -> A) : M A := fun p => Ok (f p) p.
Definition current : M Token := read currentToken.
Definition panic {A : Type} (reason : string) : M A := fun _ => Panic reason.
Definition timeout {A : Type} : M A := fun _ => OutOfFuel.

(** The type assertion [x.( *ast.BlockStatement)] on a [Statement]
    interface value: it panics on nil and on any other dynamic type. *)
Definition assertBlockStatement (s : option Statement) : M BlockStatement :=
  match s with
  | Some (StmtBlock b) => ret b
  | Some _ =>
      panic "interface conversion: ast.Statement is not *ast.BlockStatement"
  | None =>
      panic "interface conversion: ast.Statement is nil, not *ast.BlockStatement"
  end.

Definition typeIs (tok : Token) (t : TokenType) : bool :=
  String.eqb (Type_ tok) t.

(** The parameter loop of [parseFunctionExpression]. *)
Fixpoint parseParameters (fuel : nat) (params : list (option Identifier))
  : M (list (option Identifier)) :=
  match fuel with
  | O => timeout
  | S fuel' =>
      cur <- current ;;
      if negb (typeIs cur EOF) && negb (typeIs cur RPAREN) then
        i <- call parseIdentifier ;;
        cur' <- current ;;
        (if typeIs cur' COMMA then exec (consumeToken COMMA) else ret tt) ;;;
        parseParameters fuel' (params ++ [Some i])
      else ret params
  end.

Fixpoint parseStatement (fuel : nat) : M (option Statement) :=
  match fuel with
  | O => timeout
  | S fuel' =>
      cur <- current ;;
      match lookup parselets (Type_ cur) with
      | None => expressionStatementParselet fuel'
      | Some letStatementParselet_ => letStatementParselet fuel'
      | Some returnStatementParselet_ => returnStatementParselet fuel'
      | Some blockStatementParselet_ => blockStatementParselet fuel'
      end
  end

with parseExpression (fuel : nat) (precedence : Z) : M (option Expression) :=
  match fuel with
  | O => timeout
  | S fuel' =>
      cur <- current ;;
      match lookup prefixParsers (Type_ cur) with
      | None =>
          exec (addError ("Unable to consume prefix: " ++ fmt.v_Token cur)) ;;;
          exec consumeNextToken ;;;
          ret None
      | Some prefixParser =>
          left <- match prefixParser with
                  | parseIdentifier_ =>
                      i <- call parseIdentifier ;; ret (Some (ExprIdentifier i))
                  | parseIntegerLiteral_ => call parseIntegerLiteral
                  | parseBooleanLiteral_ => call parseBooleanLiteral
                  | parsePrefixOperator_ => parsePrefixOperator fuel'
                  | parseGroupedExpression_ => parseGroupedExpression fuel'
                  | parseIfExpression_ => parseIfExpression fuel'
                  | parseFunctionExpression_ => parseFunctionExpression fuel'
                  end ;;
          parseExpression_loop fuel' precedence left
      end
  end

(** [for p.currentToken.Type != token.SEMICOLON
         && precedence < p.getCurrentPrecedence() { ... }] *)
with parseExpression_loop (fuel : nat) (precedence : Z)
    (left : option Expression) : M (option Expression) :=
  match fuel with
  | O => timeout
  | S fuel' =>
      cur <- current ;;
      currentPrecedence <- read getCurrentPrecedence ;;
      if negb (typeIs cur SEMICOLON) && (precedence <? currentPrecedence)%Z
      then
        match lookup infixParsers (Type_ cur) with
        | None => ret left
        | Some parseInfixExpression_ =>
            left' <- parseInfixExpression fuel' left ;;
            parseExpression_loop fuel' precedence left'
        end
      else ret left
  end

with parsePrefixOperator (fuel : nat) : M (option Expression) :=
  match fuel with
  | O => timeout
  | S fuel' =>
      tok <- current ;;
      exec consumeNextToken ;;;
      right <- parseExpression fuel' PREFIX ;;
      ret (Some (PrefixExpression tok (Literal tok) right))
  end

with parseGroupedExpression (fuel : nat) : M (option Expression) :=
  match fuel with
  | O => timeout
  | S fuel' =>
      exec (consumeToken LPAREN) ;;;
      expr <- parseExpression fuel' LOWEST ;;
      exec (consumeToken RPAREN) ;;;
      ret expr
  end

with parseInfixExpression (fuel : nat) (left : option Expression)
  : M (option Expression) :=
  match fuel with
  | O => timeout
  | S fuel' =>
      tok <- current ;;
      precedence <- read getCurrentPrecedence ;;
      exec consumeNextToken ;;;
      right <- parseExpression fuel' precedence ;;
      ret (Some (InfixExpression tok left (Literal tok) right))
  end

with parseIfExpression (fuel : nat) : M (option Expression) :=
  match fuel with
  | O => timeout
  | S fuel' =>
      tok <- current ;;
      exec (consumeToken IF) ;;;
      exec (consumeToken LPAREN) ;;;
      condition <- parseExpression fuel' LOWEST ;;
      exec (consumeToken RPAREN) ;;;
      s <- blockStatementParselet fuel' ;;
      consequence <- assertBlockStatement s ;;
      cur <- current ;;
      if negb (typeIs cur ELSE)
      then ret (Some (IfExpression tok condition (Some consequence) None))
      else
        exec (consumeToken ELSE) ;;;
        s' <- blockStatementParselet fuel' ;;
        alternative <- assertBlockStatement s' ;;
        ret (Some (IfExpression tok condition (Some consequence)
                     (Some alternative)))
  end

with parseFunctionExpression (fuel : nat) : M (option Expression) :=
  match fuel with
  | O => timeout
  | S fuel' =>
      tok <- current ;;
      exec (consumeToken FUNCTION) ;;;
      exec (consumeToken LPAREN) ;;;
      params <- parseParameters fuel' [] ;;
      exec (consumeToken RPAREN) ;;;
      s <- blockStatementParselet fuel' ;;
      body <- assertBlockStatement s ;;
      ret (Some (FunctionLiteral tok params (Some body)))
  end

with letStatementParselet (fuel : nat) : M (option Statement) :=
  match fuel with
  | O => timeout
  | S fuel' =>
      tok <- current ;;
      if negb (typeIs tok LET) then ret None
      else
        exec (consumeToken LET) ;;;
        nameTok <- current ;;
        let name := mkIdentifier nameTok (Literal nameTok) in
        exec (consumeToken IDENT) ;;;
        exec (consumeToken ASSIGN) ;;;
        value <- parseExpression fuel' LOWEST ;;
        exec (consumeToken SEMICOLON) ;;;
        ret (Some (LetStatement tok (Some name) value))
  end

with returnStatementParselet (fuel : nat) : M (option Statement) :=
  match fuel with
  | O => timeout
  | S fuel' =>
      tok <- current ;;
      if negb (typeIs tok RETURN) then ret None
      else
        exec (consumeToken RETURN) ;;;
        value <- parseExpression fuel' LOWEST ;;
        exec (consumeToken SEMICOLON) ;;;
        ret (Some (ReturnStatement tok value))
  end

(** The composite literal reads [p.currentToken] and calls
    [p.parseExpression]; Go does not fix the order of a variable read and a
    call among the operands.  The field is read first here, in the order of
    the text; the properties below are stated on what does not depend on
    the [Token] of an expression statement (the rendering does not). *)
with expressionStatementParselet (fuel : nat) : M (option Statement) :=
  match fuel with
  | O => timeout
  | S fuel' =>
      tok <- current ;;
      expr <- parseExpression fuel' LOWEST ;;
      cur <- current ;;
      (if typeIs cur SEMICOLON then exec (consumeToken SEMICOLON) else ret tt) ;;;
      ret (Some (ExpressionStatement tok expr))
  end

with blockStatementParselet (fuel : nat) : M (option Statement) :=
  match fuel with
  | O => timeout
  | S fuel' =>
      tok <- current ;;
      if negb (typeIs tok LBRACE) then ret None
      else
        exec (consumeToken LBRACE) ;;;
        stmts <- blockStatements fuel' [] ;;
        exec (consumeToken RBRACE) ;;;
        ret (Some (StmtBlock (mkBlockStatement tok stmts)))
  end

(** [for p.currentToken.Type != token.EOF
         && p.currentToken.Type != token.RBRACE { ... }] *)
with blockStatements (fuel : nat) (stmts : list (option Statement))
  : M (list (option Statement)) :=
  match fuel with
  | O => timeout
  | S fuel' =>
      cur <- current ;;
      if negb (typeIs cur EOF) && negb (typeIs cur RBRACE) then
        s <- parseStatement fuel' ;;
        blockStatements fuel' (stmts ++ [s])
      else ret stmts
  end.

(** The loop of [ParseProgram]. *)
Fixpoint programStatements (fuel : nat) (stmts : list (option Statement))
  : M (list (option Statement)) :=
  match fuel with
  | O => timeout
  | S fuel' =>
      cur <- current ;;
      if negb (typeIs cur EOF) then
        s <- parseStatement fuel' ;;
        programStatements fuel' (stmts ++ [s])
      else ret stmts
  end.

Definition ParseProgram (fuel : nat) : M Program :=
  stmts <- programStatements fuel [] ;;
  ret (mkProgram stmts).

(** Parsing a source text from scratch: [New(lexer.New(input)).ParseProgram()]. *)
Definition parse (fuel : nat) (input : string) : result Program :=
  ParseProgram fuel (New (lexer.New input)).

End parser.

(** * Properties of the lexer *)

Module LexerProps.
Import token lexer.

(** The cursor invariant: the position is inside the input or just past its
    end, the read-ahead position is one further (or at the end), and [ch] is
    the byte under the cursor, 0 past the end. *)
Record wf (l : Lexer) : Prop := mkWf {
  wf_pos : position l <= String.length (input l);
  wf_next : nextPosition l = Nat.min (S (position l)) (String.length (input l));
  wf_ch : ch l = if (position l <? String.length (input l))%nat
                 then byte_at (input l) (position l) else zero
}.

(** Characters left to read. *)
Definition remaining (l : Lexer) : nat := String.length (input l) - position l.

Lemma consumeNextChar_input l : input (consumeNextChar l) = input l.
Proof. reflexivity. Qed.

#[local] Arguments consumeNextChar : simpl never.

Lemma consumeNextChar_wf0 l :
  nextPosition l <= String.length (input l) -> wf (consumeNextChar l).
Proof.
  intros H. unfold consumeNextChar.
  constructor; cbn [position nextPosition input ch].
  - exact H.
  - destruct (Nat.ltb_spec (nextPosition l) (String.length (input l))); lia.
  - reflexivity.
Qed.

Lemma consumeNextChar_wf l : wf l -> wf (consumeNextChar l).
Proof.
  intros [H1 H2 _]. apply consumeNextChar_wf0. lia.
Qed.

Lemma New_wf s : wf (New s).
Proof. apply consumeNextChar_wf0. simpl. lia. Qed.

Lemma New_input s : input (New s) = s.
Proof. reflexivity. Qed.

(** Past the end of the input the current byte is 0. *)
Lemma wf_at_end l :
  wf l -> String.length (input l) <= position l -> ch l = zero.
Proof.
  intros [_ _ H] Hle. rewrite H.
  destruct (Nat.ltb_spec (position l) (String.length (input l))); [lia | reflexivity].
Qed.

(** A byte that is not 0 is a byte of the input: the cursor is inside. *)
Lemma wf_inside l : wf l -> ch l <> zero -> position l < String.length (input l).
Proof.
  intros Hwf Hne.
  destruct (Nat.lt_ge_cases (position l) (String.length (input l))) as [H | H];
    [exact H | exfalso; apply Hne, wf_at_end; assumption].
Qed.

Lemma consumeNextChar_position l :
  wf l -> position l < String.length (input l) ->
  position (consumeNextChar l) = S (position l).
Proof.
  intros [_ H _] Hlt. unfold consumeNextChar. cbn [position]. rewrite H. lia.
Qed.

Lemma consumeNextChar_position_le l :
  wf l -> position l <= position (consumeNextChar l).
Proof.
  intros [H1 H _]. unfold consumeNextChar. cbn [position]. rewrite H. lia.
Qed.

(** At the end of the input [consumeNextChar] changes nothing. *)
Lemma consumeNextChar_at_end l :
  wf l -> String.length (input l) <= position l -> consumeNextChar l = l.
Proof.
  intros Hwf Hle. pose proof (wf_at_end l Hwf Hle) as Hch.
  destruct Hwf as [H1 H2 _]. destruct l as [i p n c].
  cbn [position nextPosition input ch] in *.
  unfold consumeNextChar; cbn [position nextPosition input ch].
  assert (Hn : n = p) by lia. rewrite H2, Hch, <- H2, Hn.
  destruct (Nat.ltb_spec p (String.length i)); [lia | reflexivity].
Qed.

Section Scan.
Variable cond : ascii -> bool.
Hypothesis cond_zero : cond zero = false.

Lemma scan_input fuel l : input (scan cond fuel l) = input l.
Proof.
  revert l; induction fuel as [| fuel IH]; intros l; cbn [scan]; [reflexivity |].
  destruct (cond (ch l)); [rewrite IH |]; reflexivity.
Qed.

Lemma scan_wf fuel l : wf l -> wf (scan cond fuel l).
Proof.
  revert l; induction fuel as [| fuel IH]; intros l Hwf; cbn [scan]; [exact Hwf |].
  destruct (cond (ch l)); [apply IH, consumeNextChar_wf |]; exact Hwf.
Qed.

Lemma scan_position_le fuel l : wf l -> position l <= position (scan cond fuel l).
Proof.
  revert l; induction fuel as [| fuel IH]; intros l Hwf; cbn [scan]; [lia |].
  destruct (cond (ch l)); [| lia].
  pose proof (consumeNextChar_position_le l Hwf).
  pose proof (IH _ (consumeNextChar_wf l Hwf)). lia.
Qed.

(** With the fuel of [loop_fuel] the loop ends because its condition is
    false, never because the fuel is spent. *)
Lemma scan_stops fuel l :
  wf l -> remaining l < fuel -> cond (ch (scan cond fuel l)) = false.
Proof.
  revert l; induction fuel as [| fuel IH]; intros l Hwf Hlt; [lia |].
  cbn [scan]. destruct (cond (ch l)) eqn:Hc; [| exact Hc].
  assert (Hne : ch l <> zero) by (intros E; rewrite E in Hc; congruence).
  pose proof (wf_inside l Hwf Hne) as Hin.
  apply IH; [apply consumeNextChar_wf; exact Hwf |].
  unfold remaining in *. rewrite consumeNextChar_input.
  rewrite (consumeNextChar_position l Hwf Hin). lia.
Qed.

(** When the loop runs at all it moves the cursor. *)
Lemma scan_progress fuel l :
  wf l -> cond (ch l) = true -> position l < position (scan cond (S fuel) l).
Proof.
  intros Hwf Hc. cbn [scan]. rewrite Hc.
  assert (Hne : ch l <> zero) by (intros E; rewrite E in Hc; congruence).
  pose proof (wf_inside l Hwf Hne) as Hin.
  pose proof (scan_position_le fuel _ (consumeNextChar_wf l Hwf)) as H.
  rewrite (consumeNextChar_position l Hwf Hin) in H. lia.
Qed.
End Scan.

Definition whitespaceCond (c : ascii) : bool :=
  negb (Ascii.eqb c zero) && isWhitespace c.

Lemma isDigit_zero : isDigit zero = false.
Proof. reflexivity. Qed.

Lemma isCharacter_zero : isCharacter zero = false.
Proof. reflexivity. Qed.

Lemma consumeWhitespaces_wf l : wf l -> wf (consumeWhitespaces l).
Proof. apply scan_wf. Qed.

Lemma consumeWhitespaces_input l : input (consumeWhitespaces l) = input l.
Proof. apply scan_input. Qed.

Lemma consumeWhitespaces_position_le l :
  wf l -> position l <= position (consumeWhitespaces l).
Proof. apply scan_position_le. Qed.

(** What one call of [NextToken] does to the cursor. *)
Record step_ok (l : Lexer) (tok : Token) (l' : Lexer) : Prop := mkStepOk {
  step_wf : wf l';
  step_input : input l' = input l;
  step_le : position l <= position l';
  step_lt : Type_ tok <> EOF -> position l < position l'
}.

Lemma tryLexlets_step l :
  wf l ->
  step_ok l (fst (tryLexlets lexlets l)) (snd (tryLexlets lexlets l)).
Proof.
  intros Hwf. unfold lexlets, tryLexlets.
  unfold eofLexlet.
  destruct (Ascii.eqb (ch l) zero) eqn:Hz; cbn [fst snd negb orb andb].
  { constructor; cbn [fst snd negb orb andb Type_]; auto; congruence. }
  assert (Hne : ch l <> zero) by (apply Ascii.eqb_neq; exact Hz).
  pose proof (wf_inside l Hwf Hne) as Hin.
  pose proof (consumeNextChar_wf l Hwf) as Hwf1.
  pose proof (consumeNextChar_position l Hwf Hin) as Hp1.
  pose proof (consumeNextChar_position_le _ Hwf1) as Hp2.
  unfold twoCharLexlet.
  destruct (String.eqb (GetTwoCharToken _) ILLEGAL); cbn [fst snd negb orb andb].
  2:{ constructor; cbn [fst snd negb orb andb]; auto; try lia.
      apply consumeNextChar_wf; exact Hwf1. }
  unfold singleCharLexlet.
  destruct (String.eqb (GetSingleCharToken _) ILLEGAL); cbn [fst snd negb orb andb].
  2:{ constructor; cbn [fst snd negb orb andb]; auto; lia. }
  unfold literalsLexlet. rewrite Hz. cbn [fst snd negb orb andb].
  destruct (isDigit (ch l)) eqn:Hd; cbn [fst snd negb orb andb].
  { constructor; cbn [fst snd negb orb andb].
    - apply scan_wf; exact Hwf.
    - apply scan_input.
    - apply scan_position_le; exact Hwf.
    - intros _. apply scan_progress; auto using isDigit_zero. }
  unfold identifiersAndKeywordsLexlet. rewrite Hz. cbn [fst snd negb orb andb].
  destruct (isCharacter (ch l)) eqn:Hc; cbn [fst snd negb orb andb].
  { constructor; cbn [fst snd negb orb andb].
    - apply scan_wf; exact Hwf.
    - apply scan_input.
    - apply scan_position_le; exact Hwf.
    - intros _. apply scan_progress; auto using isCharacter_zero. }
  constructor; cbn [fst snd negb orb andb]; auto; lia.
Qed.

Lemma NextToken_step l :
  wf l -> step_ok l (fst (NextToken l)) (snd (NextToken l)).
Proof.
  intros Hwf. unfold NextToken.
  pose proof (consumeWhitespaces_wf l Hwf) as Hwf'.
  destruct (tryLexlets_step _ Hwf') as [H1 H2 H3 H4].
  pose proof (consumeWhitespaces_position_le l Hwf).
  constructor; auto.
  - rewrite H2. apply consumeWhitespaces_input.
  - lia.
  - intros Hne. specialize (H4 Hne). lia.
Qed.

(** At the end of the input [NextToken] answers the end-marker, with an
    empty text, and does not touch the lexer. *)
Lemma NextToken_at_end l :
  wf l -> String.length (input l) <= position l ->
  NextToken l = (mkToken EOF "", l).
Proof.
  intros Hwf Hle. pose proof (wf_at_end l Hwf Hle) as Hch.
  unfold NextToken, consumeWhitespaces, loop_fuel. cbn [scan].
  rewrite Hch. cbn. unfold eofLexlet. rewrite Hch. reflexivity.
Qed.

(** The lexer after [n] calls of [NextToken]. *)
Fixpoint after (n : nat) (l : Lexer) : Lexer :=
  match n with
  | O => l
  | S n' => after n' (snd (NextToken l))
  end.

Lemma after_wf n l : wf l -> wf (after n l).
Proof.
  revert l; induction n as [| n IH]; intros l Hwf; simpl; [exact Hwf |].
  apply IH. apply NextToken_step; exact Hwf.
Qed.

Lemma after_input n l : wf l -> input (after n l) = input l.
Proof.
  revert l; induction n as [| n IH]; intros l Hwf; simpl; [reflexivity |].
  destruct (NextToken_step l Hwf) as [H1 H2 _ _]. rewrite IH; assumption.
Qed.

Lemma after_at_end k l :
  wf l -> String.length (input l) <= position l -> after k l = l.
Proof.
  intros Hwf Hle. induction k as [| k IH]; simpl; [reflexivity |].
  rewrite (NextToken_at_end l Hwf Hle). exact IH.
Qed.

Lemma after_add n k l : after (n + k) l = after k (after n l).
Proof.
  revert l; induction n as [| n IH]; intros l; simpl; [reflexivity | apply IH].
Qed.

(** C5.  Once the cursor of the lexer has passed the end of the input, that
    is, after any number [n] of calls that brought the position to
    [len(input)], every later call of [NextToken] (after [k] further calls,
    for every [k]) returns the end-marker token with an empty text and
    leaves the lexer exactly as it was. *)
Theorem NextToken_eof_forever (src : string) (n k : nat) :
  String.length src <= position (after n (New src)) ->
  NextToken (after (n + k) (New src))
  = (mkToken EOF "", after n (New src)).
Proof.
  intros Hle.
  pose proof (after_wf n _ (New_wf src)) as Hwf.
  pose proof (after_input n _ (New_wf src)) as Hin. rewrite New_input in Hin.
  rewrite after_add, after_at_end by (rewrite ?Hin; assumption).
  apply NextToken_at_end; rewrite ?Hin; assumption.
Qed.

Lemma NextToken_eof_forever_witness :
  NextToken (after (2 + 3) (New "a b"))
  = (mkToken EOF "", after 2 (New "a b")).
Proof.
  apply (NextToken_eof_forever "a b" 2 3). vm_compute. lia.
Defined.

End LexerProps.
(** * Properties of the parser *)

Module ParserProps.
Import token ast parser.

(** ** More fuel never changes an answer

    A run that ends within its bound gives the same value, state or panic
    under every larger bound: the bound is a device of the embedding, the
    answers are those of the program. *)

Definition le_res {A : Type} (r1 r2 : result A) : Prop :=
  r1 = OutOfFuel \/ r1 = r2.

Definition le_M {A : Type} (m1 m2 : M A) : Prop :=
  forall p, le_res (m1 p) (m2 p).

Lemma le_M_refl {A : Type} (m : M A) : le_M m m.
Proof. intros p; right; reflexivity. Qed.

Lemma le_M_timeout {A : Type} (m : M A) : le_M timeout m.
Proof. intros p; left; reflexivity. Qed.

Lemma le_M_bind {A B : Type} (m1 m2 : M A) (f1 f2 : A -> M B) :
  le_M m1 m2 -> (forall a, le_M (f1 a) (f2 a)) ->
  le_M (bind m1 f1) (bind m2 f2).
Proof.
  intros Hm Hf p. unfold bind.
  destruct (Hm p) as [E | E]; rewrite E; [left; reflexivity |].
  destruct (m2 p) as [a p' | r |]; [apply Hf | right; reflexivity ..].
Qed.

Ltac mono_step :=
  match goal with
  | |- le_M (bind _ _) (bind _ _) => apply le_M_bind; [| intros ?]
  | |- le_M ?m ?m => apply le_M_refl
  | |- le_M timeout _ => apply le_M_timeout
  | |- le_M (if ?b then _ else _) (if ?b then _ else _) => destruct b
  | |- le_M (match ?x with _ => _ end) (match ?x with _ => _ end) => destruct x
  | H : _ |- _ => solve [apply H]
  end.

Lemma parseParameters_mono n m :
  n <= m -> forall ps, le_M (parseParameters n ps) (parseParameters m ps).
Proof.
  revert m; induction n as [| n IH]; intros m Hle ps; [apply le_M_timeout |].
  destruct m as [| m]; [lia |]. specialize (IH m ltac:(lia)).
  cbn [parseParameters]. repeat mono_step.
Qed.

(** The same statement for each method of the recursive group. *)
Record mono_at (n m : nat) : Prop := mkMono {
  mono_parseStatement : le_M (parseStatement n) (parseStatement m);
  mono_parseExpression :
    forall prec, le_M (parseExpression n prec) (parseExpression m prec);
  mono_parseExpression_loop :
    forall prec e,
      le_M (parseExpression_loop n prec e) (parseExpression_loop m prec e);
  mono_parsePrefixOperator :
    le_M (parsePrefixOperator n) (parsePrefixOperator m);
  mono_parseGroupedExpression :
    le_M (parseGroupedExpression n) (parseGroupedExpression m);
  mono_parseInfixExpression :
    forall e, le_M (parseInfixExpression n e) (parseInfixExpression m e);
  mono_parseIfExpression : le_M (parseIfExpression n) (parseIfExpression m);
  mono_parseFunctionExpression :
    le_M (parseFunctionExpression n) (parseFunctionExpression m);
  mono_letStatementParselet :
    le_M (letStatementParselet n) (letStatementParselet m);
  mono_returnStatementParselet :
    le_M (returnStatementParselet n) (returnStatementParselet m);
  mono_expressionStatementParselet :
    le_M (expressionStatementParselet n) (expressionStatementParselet m);
  mono_blockStatementParselet :
    le_M (blockStatementParselet n) (blockStatementParselet m);
  mono_blockStatements :
    forall ss, le_M (blockStatements n ss) (blockStatements m ss)
}.

Lemma mono_all n : forall m, n <= m -> mono_at n m.
Proof.
  induction n as [| n IH]; intros m Hle.
  - constructor; intros; apply le_M_timeout.
  - destruct m as [| m]; [lia |].
    destruct (IH m ltac:(lia)).
    pose proof (parseParameters_mono n m ltac:(lia)).
    constructor; intros;
      [ cbn [parseStatement] | cbn [parseExpression]
      | cbn [parseExpression_loop] | cbn [parsePrefixOperator]
      | cbn [parseGroupedExpression] | cbn [parseInfixExpression]
      | cbn [parseIfExpression] | cbn [parseFunctionExpression]
      | cbn [letStatementParselet] | cbn [returnStatementParselet]
      | cbn [expressionStatementParselet] | cbn [blockStatementParselet]
      | cbn [blockStatements] ];
      repeat mono_step.
Qed.

Lemma programStatements_mono n m :
  n <= m -> forall ss, le_M (programStatements n ss) (programStatements m ss).
Proof.
  revert m; induction n as [| n IH]; intros m Hle ss; [apply le_M_timeout |].
  destruct m as [| m]; [lia |]. specialize (IH m ltac:(lia)).
  destruct (mono_all n m ltac:(lia)).
  cbn [programStatements]. repeat mono_step.
Qed.

Lemma ParseProgram_mono n m : n <= m -> le_M (ParseProgram n) (ParseProgram m).
Proof.
  intros Hle. unfold ParseProgram.
  pose proof (programStatements_mono n m Hle). repeat mono_step.
Qed.

(** An answer obtained with [n] units of fuel is the answer with any more. *)
Lemma parse_fuel_irrelevant n k src :
  parse n src <> OutOfFuel -> parse (n + k) src = parse n src.
Proof.
  intros Hne. unfold parse in *.
  destruct (ParseProgram_mono n (n + k) ltac:(lia) (New (lexer.New src)))
    as [E | E]; [contradiction | symmetry; exact E].
Qed.

(** ** Reasoning about a run: weakest preconditions

    [wp m p Q]: the run of [m] from [p] ends within its bound, and if it
    ends with a value (not a panic) then [Q] holds of the value and state. *)

Definition wp {A : Type} (m : M A) (p : Parser) (Q : A -> Parser -> Prop) : Prop :=
  match m p with
  | Ok a p' => Q a p'
  | Panic _ => True
  | OutOfFuel => False
  end.

Lemma wp_bind {A B : Type} (m : M A) (f : A -> M B) p
    (R : A -> Parser -> Prop) (Q : B -> Parser -> Prop) :
  wp m p R -> (forall a p', R a p' -> wp (f a) p' Q) -> wp (bind m f) p Q.
Proof.
  unfold wp, bind. intros Hm Hf.
  destruct (m p) as [a p' | r |]; [apply Hf, Hm | exact I | contradiction].
Qed.

Lemma wp_ret {A : Type} (a : A) p (Q : A -> Parser -> Prop) :
  Q a p -> wp (ret a) p Q.
Proof. intros H; exact H. Qed.

Lemma wp_read {A B : Type} (g : Parser -> A) (f : A -> M B) p Q :
  wp (f (g p)) p Q -> wp (bind (read g) f) p Q.
Proof. intros H; exact H. Qed.

Lemma wp_exec {B : Type} (g : Parser -> Parser) (f : unit -> M B) p Q :
  wp (f tt) (g p) Q -> wp (bind (exec g) f) p Q.
Proof. intros H; exact H. Qed.

Lemma wp_call {A B : Type} (g : Parser -> A * Parser) (f : A -> M B) p Q :
  wp (f (fst (g p))) (snd (g p)) Q -> wp (bind (call g) f) p Q.
Proof.
  unfold wp, bind, call. destruct (g p) as [a p']. intros H; exact H.
Qed.

Lemma wp_assoc {A B C : Type} (m : M A) (f : A -> M B) (g : B -> M C) p Q :
  wp (bind m (fun a => bind (f a) g)) p Q -> wp (bind (bind m f) g) p Q.
Proof.
  unfold wp, bind. destruct (m p); auto.
Qed.

Lemma wp_panic_bind {A B : Type} (r : string) (f : A -> M B) p Q :
  wp (bind (panic r) f) p Q.
Proof. exact I. Qed.

Lemma wp_ret_bind {A B : Type} (a : A) (f : A -> M B) p Q :
  wp (f a) p Q -> wp (bind (ret a) f) p Q.
Proof. intros H; exact H. Qed.

Lemma wp_weaken {A : Type} (m : M A) p (Q Q' : A -> Parser -> Prop) :
  wp m p Q -> (forall a p', Q a p' -> Q' a p') -> wp m p Q'.
Proof.
  unfold wp. intros H HQ. destruct (m p); auto.
Qed.

(** ** Token kinds *)

Lemma typeIs_true tok t : typeIs tok t = true <-> Type_ tok = t.
Proof. apply String.eqb_eq. Qed.

Lemma typeIs_false tok t : typeIs tok t = false <-> Type_ tok <> t.
Proof. apply String.eqb_neq. Qed.

(** A token that has a prefix, infix or statement parse function is not the
    end-marker. *)
Lemma prefix_not_eof tok f :
  lookup prefixParsers (Type_ tok) = Some f -> typeIs tok EOF = false.
Proof.
  intros H. destruct (typeIs tok EOF) eqn:E; [| reflexivity].
  apply typeIs_true in E. rewrite E in H. discriminate H.
Qed.

Lemma infix_not_eof tok f :
  lookup infixParsers (Type_ tok) = Some f -> typeIs tok EOF = false.
Proof.
  intros H. destruct (typeIs tok EOF) eqn:E; [| reflexivity].
  apply typeIs_true in E. rewrite E in H. discriminate H.
Qed.

Lemma parselets_kind tok f :
  lookup parselets (Type_ tok) = Some f ->
  match f with
  | letStatementParselet_ => typeIs tok LET = true
  | returnStatementParselet_ => typeIs tok RETURN = true
  | blockStatementParselet_ => typeIs tok LBRACE = true
  end.
Proof.
  unfold lookup, parselets, typeIs. cbn [gostd.map_get].
  destruct (String.eqb (Type_ tok) LET) eqn:E1; [intros [= <-]; reflexivity |].
  destruct (String.eqb (Type_ tok) RETURN) eqn:E2; [intros [= <-]; reflexivity |].
  destruct (String.eqb (Type_ tok) LBRACE) eqn:E3; [intros [= <-]; reflexivity |].
  discriminate.
Qed.

Lemma kind_not_eof tok t :
  typeIs tok t = true -> t <> EOF -> typeIs tok EOF = false.
Proof.
  intros H Hne. apply typeIs_true in H. apply typeIs_false. congruence.
Qed.

(** ** Termination

    The measure of a parser state: the tokens not yet consumed, counted as
    the current token, the read-ahead token and the characters the lexer
    has not read.  It is 0 exactly when the current token is the
    end-marker. *)

Definition pwf (p : Parser) : Prop := LexerProps.wf (l p).

Definition measure (p : Parser) : nat :=
  if typeIs (currentToken p) EOF then 0
  else 1 + (if typeIs (nextToken p) EOF then 0 else 1) + LexerProps.remaining (l p).

(** The state did not grow, and shrank if there was a token to consume. *)
Definition advanced (p p' : Parser) : Prop :=
  pwf p' /\ measure p' <= measure p /\
  (typeIs (currentToken p) EOF = false -> measure p' < measure p).

(** The state did not grow. *)
Definition not_grown (p p' : Parser) : Prop :=
  pwf p' /\ measure p' <= measure p.

Lemma consumeNextToken_eof p :
  typeIs (currentToken p) EOF = true -> consumeNextToken p = p.
Proof. unfold consumeNextToken, typeIs. intros ->. reflexivity. Qed.

(** Once the current token is the end-marker it stays the end-marker. *)
Lemma consumeNextToken_stays_eof p :
  typeIs (currentToken p) EOF = true ->
  typeIs (currentToken (consumeNextToken p)) EOF = true.
Proof. intros H. rewrite consumeNextToken_eof; exact H. Qed.

Lemma consumeNextToken_advanced p : pwf p -> advanced p (consumeNextToken p).
Proof.
  intros Hwf. unfold advanced.
  destruct (typeIs (currentToken p) EOF) eqn:E.
  { rewrite consumeNextToken_eof by exact E.
    split; [exact Hwf | split; [lia | congruence]]. }
  unfold consumeNextToken. unfold typeIs in E. rewrite E.
  destruct (LexerProps.NextToken_step (l p) Hwf) as [H1 H2 H3 H4].
  destruct (lexer.NextToken (l p)) as [tok l'] eqn:En.
  cbn [fst snd] in *.
  assert (Hm : measure (mkParser l' (nextToken p) tok (errors p)) < measure p).
  { unfold measure, typeIs. cbn [currentToken nextToken l]. rewrite E.
    destruct (String.eqb (Type_ (nextToken p)) EOF); [lia |].
    unfold LexerProps.remaining. rewrite H2.
    destruct H1 as [Hp _ _]. rewrite H2 in Hp.
    destruct (String.eqb (Type_ tok) EOF) eqn:Et; [lia |].
    apply String.eqb_neq in Et. specialize (H4 Et). lia. }
  split; [exact H1 | split; [lia | intros _; exact Hm]].
Qed.

Lemma consumeToken_advanced t p : pwf p -> advanced p (consumeToken t p).
Proof.
  intros Hwf. unfold consumeToken.
  destruct (negb _); [| apply consumeNextToken_advanced; exact Hwf].
  apply (consumeNextToken_advanced (addError _ p)). exact Hwf.
Qed.

Lemma parseIdentifier_advanced p : pwf p -> advanced p (snd (parseIdentifier p)).
Proof. apply consumeNextToken_advanced. Qed.

Lemma parseIntegerLiteral_advanced p :
  pwf p -> advanced p (snd (parseIntegerLiteral p)).
Proof.
  intros Hwf. unfold parseIntegerLiteral.
  pose proof (consumeNextToken_advanced p Hwf) as H.
  destruct (strconv.ParseInt0 _); cbn [snd]; exact H.
Qed.

Lemma parseBooleanLiteral_advanced p :
  pwf p -> advanced p (snd (parseBooleanLiteral p)).
Proof. apply consumeNextToken_advanced. Qed.

Lemma New_pwf lx : LexerProps.wf lx -> pwf (New lx).
Proof.
  intros Hwf. unfold New.
  apply consumeNextToken_advanced, consumeNextToken_advanced. exact Hwf.
Qed.

(** The states a parse goes through keep the input of the lexer, so the
    measure of the first state is at most two more than the length of the
    source. *)
Lemma measure_bound p :
  pwf p -> measure p <= 2 + String.length (lexer.input (l p)).
Proof.
  intros _. unfold measure, LexerProps.remaining.
  destruct (typeIs (currentToken p) EOF); [lia |].
  destruct (typeIs (nextToken p) EOF); lia.
Qed.

(** Tactics that run one action of a method and record what it did to the
    measure. *)

Ltac use_known :=
  repeat match goal with
         | H : ?P -> _, H' : ?P |- _ =>
             match type of P with Prop => specialize (H H') end
         end.

Ltac split_all := repeat match goal with |- _ /\ _ => split end.

Ltac run_exec lemma g p :=
  apply wp_exec;
  let H := fresh "Hadv" in
  pose proof (lemma p ltac:(assumption)) as H;
  generalize dependent (g p); intros ? [? [? ?]].

Ltac run :=
  match goal with
  | |- wp (bind (bind _ _) _) _ _ => apply wp_assoc
  | |- wp (bind (read _) _) _ _ => apply wp_read
  | |- wp (bind current _) _ _ => apply wp_read
  | |- wp (bind (exec (consumeToken ?t)) _) ?p _ =>
      run_exec (consumeToken_advanced t) (consumeToken t) p
  | |- wp (bind (exec consumeNextToken) _) ?p _ =>
      run_exec consumeNextToken_advanced consumeNextToken p
  | |- wp (bind (call parseIdentifier) _) ?p _ =>
      apply wp_call;
      let H := fresh "Hadv" in
      pose proof (parseIdentifier_advanced p ltac:(assumption)) as H;
      generalize dependent (snd (parseIdentifier p)); intros ? [? [? ?]]
  | |- wp (bind (assertBlockStatement ?s) _) _ _ =>
      destruct s as [[| | |] |]; cbn [assertBlockStatement];
      try apply wp_panic_bind; apply wp_ret_bind
  | |- wp (bind (if ?b then _ else _) _) _ _ => destruct b eqn:?
  | |- wp (if ?b then _ else _) _ _ => destruct b eqn:?
  | |- wp (bind (ret _) _) _ _ => apply wp_ret_bind
  end.

Ltac finish :=
  apply wp_ret; unfold advanced, not_grown in *; use_known;
  split_all; try assumption; try lia; intros; use_known; try lia.

Lemma parseParameters_ends n : forall ps p,
  pwf p -> measure p + 1 <= n ->
  wp (parseParameters n ps) p (fun _ p' => not_grown p p').
Proof.
  induction n as [| n IH]; intros ps p Hwf Hn; [lia |].
  cbn [parseParameters]. run.
  destruct (negb (typeIs (currentToken p) EOF) && negb (typeIs (currentToken p) RPAREN))
    eqn:Hc.
  2:{ finish. }
  apply andb_prop in Hc. destruct Hc as [Hc _]. apply negb_true_iff in Hc.
  run. use_known. run. run.
  - run. eapply wp_weaken; [apply IH; [assumption | lia] |].
    cbv beta. unfold not_grown. intros _ p' [? ?]. split; [assumption | lia].
  - run. eapply wp_weaken; [apply IH; [assumption | lia] |].
    cbv beta. unfold not_grown. intros _ p' [? ?]. split; [assumption | lia].
Qed.

(** What each method of the recursive group needs and does: with fuel
    three times the measure plus a constant it ends, and it leaves a state
    that has not grown; a method that starts on a token it accepts leaves a
    strictly smaller state. *)
Record ends_at (n : nat) : Prop := mkEnds {
  ends_parseStatement : forall p,
    pwf p -> 3 * measure p + 4 <= n ->
    wp (parseStatement n) p (fun _ p' => advanced p p');
  ends_parseExpression : forall prec p,
    pwf p -> 3 * measure p + 2 <= n ->
    wp (parseExpression n prec) p (fun _ p' => advanced p p');
  ends_parseExpression_loop : forall prec e p,
    pwf p -> 3 * measure p + 2 <= n ->
    wp (parseExpression_loop n prec e) p (fun _ p' => not_grown p p');
  ends_parsePrefixOperator : forall p,
    pwf p -> typeIs (currentToken p) EOF = false -> 3 * measure p + 1 <= n ->
    wp (parsePrefixOperator n) p (fun _ p' => advanced p p');
  ends_parseGroupedExpression : forall p,
    pwf p -> typeIs (currentToken p) EOF = false -> 3 * measure p + 1 <= n ->
    wp (parseGroupedExpression n) p (fun _ p' => advanced p p');
  ends_parseInfixExpression : forall e p,
    pwf p -> typeIs (currentToken p) EOF = false -> 3 * measure p + 1 <= n ->
    wp (parseInfixExpression n e) p (fun _ p' => advanced p p');
  ends_parseIfExpression : forall p,
    pwf p -> typeIs (currentToken p) EOF = false -> 3 * measure p + 1 <= n ->
    wp (parseIfExpression n) p (fun _ p' => advanced p p');
  ends_parseFunctionExpression : forall p,
    pwf p -> typeIs (currentToken p) EOF = false -> 3 * measure p + 1 <= n ->
    wp (parseFunctionExpression n) p (fun _ p' => advanced p p');
  ends_letStatementParselet : forall p,
    pwf p -> 3 * measure p + 3 <= n ->
    wp (letStatementParselet n) p
       (fun _ p' => not_grown p p'
                    /\ (typeIs (currentToken p) LET = true -> measure p' < measure p));
  ends_returnStatementParselet : forall p,
    pwf p -> 3 * measure p + 3 <= n ->
    wp (returnStatementParselet n) p
       (fun _ p' => not_grown p p'
                    /\ (typeIs (currentToken p) RETURN = true -> measure p' < measure p));
  ends_expressionStatementParselet : forall p,
    pwf p -> 3 * measure p + 3 <= n ->
    wp (expressionStatementParselet n) p (fun _ p' => advanced p p');
  ends_blockStatementParselet : forall p,
    pwf p -> 3 * measure p + 3 <= n ->
    wp (blockStatementParselet n) p
       (fun _ p' => not_grown p p'
                    /\ (typeIs (currentToken p) LBRACE = true -> measure p' < measure p));
  ends_blockStatements : forall ss p,
    pwf p -> 3 * measure p + 5 <= n ->
    wp (blockStatements n ss) p (fun _ p' => not_grown p p')
}.

(** Calling a method whose statement is in the context. *)
Ltac recurse IH :=
  eapply wp_bind;
  [ apply IH; [assumption .. | lia]
  | cbv beta; unfold advanced, not_grown; intros ? ? ?;
    repeat match goal with H : _ /\ _ |- _ => destruct H end ].

Ltac recurse_last IH :=
  eapply wp_weaken;
  [ apply IH; [assumption .. | lia]
  | cbv beta; unfold advanced, not_grown; intros ? ? ?;
    repeat match goal with H : _ /\ _ |- _ => destruct H end;
    use_known; split_all; try assumption; try lia; intros; use_known; try lia ].

Lemma ends_all n : ends_at n.
Proof.
  induction n as [| n IH].
  { constructor; intros; lia. }
  destruct IH as [IHs IHe IHl IHp IHg IHi IHif IHf IHlet IHret IHes IHb IHbs].
  constructor.
  - (* parseStatement *)
    intros p Hwf Hn. cbn [parseStatement]. run.
    destruct (lookup parselets (Type_ (currentToken p))) as [f |] eqn:Hl.
    + pose proof (parselets_kind _ _ Hl) as Hk.
      destruct f.
      * recurse_last IHlet.
      * recurse_last IHret.
      * recurse_last IHb.
    + recurse_last IHes.
  - (* parseExpression *)
    intros prec p Hwf Hn. cbn [parseExpression]. run.
    destruct (lookup prefixParsers (Type_ (currentToken p))) as [f |] eqn:Hl.
    2:{ apply wp_exec. apply wp_exec. apply wp_ret.
        apply (consumeNextToken_advanced (addError _ p)). exact Hwf. }
    pose proof (prefix_not_eof _ _ Hl) as Hne.
    assert (Hpos : 0 < measure p).
    { unfold measure. rewrite Hne. lia. }
    destruct f.
    + run. run. use_known. run. recurse_last IHl.
    + apply wp_call.
      pose proof (parseIntegerLiteral_advanced p Hwf) as [? [? ?]].
      generalize dependent (snd (parseIntegerLiteral p)). intros. use_known.
      recurse_last IHl.
    + apply wp_call.
      pose proof (parseBooleanLiteral_advanced p Hwf) as [? [? ?]].
      generalize dependent (snd (parseBooleanLiteral p)). intros. use_known.
      recurse_last IHl.
    + recurse IHp. use_known. recurse_last IHl.
    + recurse IHg. use_known. recurse_last IHl.
    + recurse IHif. use_known. recurse_last IHl.
    + recurse IHf. use_known. recurse_last IHl.
  - (* parseExpression_loop *)
    intros prec e p Hwf Hn. cbn [parseExpression_loop]. run. run. run.
    2:{ finish. }
    destruct (lookup infixParsers (Type_ (currentToken p))) as [f |] eqn:Hl.
    2:{ finish. }
    pose proof (infix_not_eof _ _ Hl) as Hne. destruct f.
    recurse IHi. use_known. recurse_last IHl.
  - (* parsePrefixOperator *)
    intros p Hwf Hne Hn. cbn [parsePrefixOperator]. run. run. use_known.
    recurse IHe. finish.
  - (* parseGroupedExpression *)
    intros p Hwf Hne Hn. cbn [parseGroupedExpression]. run. use_known.
    recurse IHe. run. finish.
  - (* parseInfixExpression *)
    intros e p Hwf Hne Hn. cbn [parseInfixExpression]. run. run. run. use_known.
    recurse IHe. finish.
  - (* parseIfExpression *)
    intros p Hwf Hne Hn. cbn [parseIfExpression]. run. run. use_known. run.
    recurse IHe. run. recurse IHb. run. run. run.
    + finish.
    + run. recurse IHb. run. finish.
  - (* parseFunctionExpression *)
    intros p Hwf Hne Hn. cbn [parseFunctionExpression]. run. run. use_known. run.
    eapply wp_bind; [apply parseParameters_ends; [assumption | lia] |].
    cbv beta. unfold not_grown. intros ps p' [? ?].
    run. recurse IHb. run. finish.
  - (* letStatementParselet *)
    intros p Hwf Hn. cbn [letStatementParselet]. run. run.
    { apply negb_true_iff in Heqb. finish. congruence. }
    apply negb_false_iff in Heqb.
    pose proof (kind_not_eof _ _ Heqb ltac:(discriminate)) as Hne.
    run. use_known. run. run. run. recurse IHe. run. finish.
  - (* returnStatementParselet *)
    intros p Hwf Hn. cbn [returnStatementParselet]. run. run.
    { apply negb_true_iff in Heqb. finish. congruence. }
    apply negb_false_iff in Heqb.
    pose proof (kind_not_eof _ _ Heqb ltac:(discriminate)) as Hne.
    run. use_known. recurse IHe. run. finish.
  - (* expressionStatementParselet *)
    intros p Hwf Hn. cbn [expressionStatementParselet]. run.
    recurse IHe. run. run.
    + run. finish.
    + run. finish.
  - (* blockStatementParselet *)
    intros p Hwf Hn. cbn [blockStatementParselet]. run. run.
    { apply negb_true_iff in Heqb. finish. congruence. }
    apply negb_false_iff in Heqb.
    pose proof (kind_not_eof _ _ Heqb ltac:(discriminate)) as Hne.
    run. use_known. recurse IHbs. run. finish.
  - (* blockStatements *)
    intros ss p Hwf Hn. cbn [blockStatements]. run. run.
    2:{ finish. }
    apply andb_prop in Heqb. destruct Heqb as [Hc _]. apply negb_true_iff in Hc.
    recurse IHs. use_known. recurse_last IHbs.
Qed.

Lemma consumeNextToken_input p :
  pwf p -> lexer.input (l (consumeNextToken p)) = lexer.input (l p).
Proof.
  intros Hwf. unfold consumeNextToken.
  destruct (String.eqb _ EOF); [reflexivity |].
  destruct (LexerProps.NextToken_step (l p) Hwf) as [_ H _ _].
  destruct (lexer.NextToken (l p)) as [tok l']. exact H.
Qed.

Lemma programStatements_ends n : forall ss p,
  pwf p -> 3 * measure p + 5 <= n ->
  wp (programStatements n ss) p
     (fun _ p' => pwf p' /\ typeIs (currentToken p') EOF = true).
Proof.
  induction n as [| n IH]; intros ss p Hwf Hn; [lia |].
  destruct (ends_all n) as [IHs _ _ _ _ _ _ _ _ _ _ _ _].
  cbn [programStatements]. run. run.
  2:{ apply negb_false_iff in Heqb. apply wp_ret. split; assumption. }
  apply negb_true_iff in Heqb.
  recurse IHs. use_known. apply IH; [assumption | lia].
Qed.

Lemma ParseProgram_ends n p :
  pwf p -> 3 * measure p + 5 <= n ->
  wp (ParseProgram n) p
     (fun _ p' => pwf p' /\ typeIs (currentToken p') EOF = true).
Proof.
  intros Hwf Hn. unfold ParseProgram.
  eapply wp_bind; [apply programStatements_ends; eassumption |].
  cbv beta. intros ss p' H. apply wp_ret. exact H.
Qed.

(** Fuel that is enough for a source text. *)
Definition enough (src : string) : nat := 3 * String.length src + 11.

Lemma parse_ends src :
  wp (ParseProgram (enough src)) (New (lexer.New src))
     (fun _ p' => pwf p' /\ typeIs (currentToken p') EOF = true).
Proof.
  pose proof (New_pwf _ (LexerProps.New_wf src)) as Hwf.
  apply ParseProgram_ends; [exact Hwf |].
  pose proof (measure_bound _ Hwf) as Hb.
  assert (Hin : lexer.input (l (New (lexer.New src))) = src).
  { unfold New. rewrite !consumeNextToken_input; [reflexivity | ..].
    - apply LexerProps.New_wf.
    - apply consumeNextToken_advanced. apply LexerProps.New_wf. }
  rewrite Hin in Hb. unfold enough. lia.
Qed.

(** A statement parse that starts on a token and returns has consumed at
    least one token, whatever the fuel it was given. *)
Lemma parseStatement_consumes n p a p' :
  pwf p -> typeIs (currentToken p) EOF = false ->
  parseStatement n p = Ok a p' -> measure p' < measure p.
Proof.
  intros Hwf Hne Hrun.
  set (N := n + (3 * measure p + 4)).
  destruct (mono_all n N ltac:(lia)) as [Hmono _ _ _ _ _ _ _ _ _ _ _ _].
  destruct (ends_all N) as [Hends _ _ _ _ _ _ _ _ _ _ _ _].
  specialize (Hends p Hwf ltac:(lia)). unfold wp in Hends.
  destruct (Hmono p) as [E | E]; [congruence |].
  rewrite <- E, Hrun in Hends. destruct Hends as (_ & _ & H). exact (H Hne).
Qed.

(** ** What one step of the parser does to its state *)

Lemma consumeNextToken_errors p : errors (consumeNextToken p) = errors p.
Proof.
  unfold consumeNextToken. destruct (String.eqb _ EOF); [reflexivity |].
  destruct (lexer.NextToken (l p)); reflexivity.
Qed.

Lemma consumeNextToken_current p :
  typeIs (currentToken p) EOF = false ->
  currentToken (consumeNextToken p) = nextToken p.
Proof.
  unfold consumeNextToken, typeIs. intros ->.
  destruct (lexer.NextToken (l p)); reflexivity.
Qed.

Lemma consumeNextToken_next p :
  typeIs (currentToken p) EOF = false ->
  nextToken (consumeNextToken p) = fst (lexer.NextToken (l p)).
Proof.
  unfold consumeNextToken, typeIs. intros ->.
  destruct (lexer.NextToken (l p)); reflexivity.
Qed.

Lemma consumeNextToken_lexer p :
  typeIs (currentToken p) EOF = false ->
  l (consumeNextToken p) = snd (lexer.NextToken (l p)).
Proof.
  unfold consumeNextToken, typeIs. intros ->.
  destruct (lexer.NextToken (l p)); reflexivity.
Qed.

Lemma consumeToken_match t p :
  typeIs (currentToken p) t = true -> consumeToken t p = consumeNextToken p.
Proof. unfold consumeToken, typeIs. intros ->. reflexivity. Qed.

(** The diagnostic of [consumeToken]. *)
Definition unexpected (tok : Token) (t : TokenType) : string :=
  "Could not properly consume token: " ++ fmt.v_Token tok
  ++ " expected: " ++ fmt.v_Type t.

(** C6.  For every parser state whose current token is not the end-marker,
    [consumeToken t] advances by exactly one token whether or not the kind of
    the current token is [t]: the read-ahead token becomes the current one
    and the next token of the lexer becomes the read-ahead.  It appends
    exactly one diagnostic, "Could not properly consume token: ...
    expected: ...", when the kind differs from [t], and leaves the
    diagnostics unchanged when the kind is [t]. *)
Theorem consumeToken_advances_one (p : Parser) (t : TokenType) :
  Type_ (currentToken p) <> EOF ->
  currentToken (consumeToken t p) = nextToken p
  /\ nextToken (consumeToken t p) = fst (lexer.NextToken (l p))
  /\ l (consumeToken t p) = snd (lexer.NextToken (l p))
  /\ (Type_ (currentToken p) = t -> errors (consumeToken t p) = errors p)
  /\ (Type_ (currentToken p) <> t ->
      errors (consumeToken t p)
      = (errors p ++ [unexpected (currentToken p) t])%list).
Proof.
  intros Hne. apply typeIs_false in Hne.
  unfold consumeToken.
  destruct (String.eqb (Type_ (currentToken p)) t) eqn:Et; cbn [negb].
  - rewrite consumeNextToken_current, consumeNextToken_next,
      consumeNextToken_lexer, consumeNextToken_errors by exact Hne.
    apply String.eqb_eq in Et.
    repeat split; intros; try reflexivity; congruence.
  - rewrite consumeNextToken_current, consumeNextToken_next,
      consumeNextToken_lexer, consumeNextToken_errors by exact Hne.
    apply String.eqb_neq in Et.
    repeat split; intros; try reflexivity; congruence.
Qed.

Lemma consumeToken_advances_one_witness :
  let p := New (lexer.New "x y z") in
  currentToken (consumeToken RPAREN p) = nextToken p
  /\ nextToken (consumeToken RPAREN p) = fst (lexer.NextToken (l p))
  /\ l (consumeToken RPAREN p) = snd (lexer.NextToken (l p))
  /\ (Type_ (currentToken p) = RPAREN -> errors (consumeToken RPAREN p) = errors p)
  /\ (Type_ (currentToken p) <> RPAREN ->
      errors (consumeToken RPAREN p)
      = (errors p ++ [unexpected (currentToken p) RPAREN])%list).
Proof.
  apply (consumeToken_advances_one (New (lexer.New "x y z")) RPAREN).
  vm_compute. discriminate.
Defined.

(** C7.  [ParseProgram] terminates on every source text: with the fuel
    [enough src], linear in the length of the text, the run ends (in a
    program or in a panic), and more fuel does not change its answer.  The
    reasons are the ones the specification gives: an iteration of the loop
    parses one statement and appends it; a statement parse that starts on a
    token and returns leaves a strictly smaller state, that is, it has
    consumed at least one token; and once the current token is the
    end-marker, consuming leaves it the end-marker. *)
Theorem ParseProgram_terminates :
  (forall src k,
      parse (enough src) src <> OutOfFuel
      /\ parse (enough src + k) src = parse (enough src) src)
  /\ (forall n ss p,
         typeIs (currentToken p) EOF = false ->
         programStatements (S n) ss p
         = bind (parseStatement n)
             (fun s => programStatements n (ss ++ [s])%list) p)
  /\ (forall n p a p',
         pwf p -> typeIs (currentToken p) EOF = false ->
         parseStatement n p = Ok a p' -> measure p' < measure p)
  /\ (forall p,
         typeIs (currentToken p) EOF = true ->
         typeIs (currentToken (consumeNextToken p)) EOF = true
         /\ consumeNextToken p = p).
Proof.
  split; [| split; [| split]].
  - intros src k.
    assert (H : parse (enough src) src <> OutOfFuel).
    { pose proof (parse_ends src) as H. unfold wp in H. unfold parse.
      destruct (ParseProgram (enough src) (New (lexer.New src)));
        [discriminate | discriminate | contradiction]. }
    split; [exact H | apply parse_fuel_irrelevant; exact H].
  - intros n ss p Hne. cbn [programStatements].
    unfold bind at 1, current, read. rewrite Hne. reflexivity.
  - intros n p a p'. apply parseStatement_consumes.
  - intros p H. split; [apply consumeNextToken_stays_eof; exact H |].
    apply consumeNextToken_eof; exact H.
Qed.

Lemma ParseProgram_terminates_witness :
  parse (enough "let x = 5;") "let x = 5;" <> OutOfFuel
  /\ (forall a p',
         parseStatement 5 (New (lexer.New "x; y")) = Ok a p' ->
         measure p' < measure (New (lexer.New "x; y"))).
Proof.
  split.
  - apply (proj1 ParseProgram_terminates "let x = 5;" 0).
  - intros a p'.
    apply (proj1 (proj2 (proj2 ParseProgram_terminates)) 5 (New (lexer.New "x; y"))).
    + apply New_pwf, LexerProps.New_wf.
    + vm_compute. reflexivity.
Defined.

(** ** Answers on concrete source texts *)

(** The rendering of the program a parse returned. *)
Definition rendering (r : result Program) : option string :=
  match r with
  | Ok prog _ => Program_String prog
  | _ => None
  end.

(** The diagnostics a parse recorded. *)
Definition diagnostics (r : result Program) : option (list string) :=
  match r with
  | Ok _ p => Some (Errors p)
  | _ => None
  end.

(** The statements of the program a parse returned. *)
Definition statements (r : result Program) : option (list (option Statement)) :=
  match r with
  | Ok prog _ => Some (Statements prog)
  | _ => None
  end.

(** The expression of an expression statement. *)
Definition expressionOf (s : option Statement) : option Expression :=
  match s with
  | Some (ExpressionStatement _ e) => e
  | _ => None
  end.

Ltac by_running :=
  intros; rewrite ?parse_fuel_irrelevant by (vm_compute; discriminate);
  vm_compute; reflexivity.

(** Three expression statements and their renderings: precedence in
    ["1 + 2 * 3;"], left associativity in ["1 - 2 - 3;"], prefix binding in
    ["-1 * 2;"].  No diagnostic is recorded, and the answer is the same with
    any more fuel.  The general statement is in [Precedence]. *)
Lemma precedence_examples (k : nat) :
  rendering (parse (20 + k) "1 + 2 * 3;") = Some "(1 + (2 * 3))"
  /\ rendering (parse (20 + k) "1 - 2 - 3;") = Some "((1 - 2) - 3)"
  /\ rendering (parse (20 + k) "-1 * 2;") = Some "((-1) * 2)"
  /\ diagnostics (parse (20 + k) "1 + 2 * 3;") = Some []
  /\ diagnostics (parse (20 + k) "1 - 2 - 3;") = Some []
  /\ diagnostics (parse (20 + k) "-1 * 2;") = Some []
  /\ option_map (@List.length _) (statements (parse (20 + k) "1 + 2 * 3;")) = Some 1
  /\ option_map (@List.length _) (statements (parse (20 + k) "1 - 2 - 3;")) = Some 1
  /\ option_map (@List.length _) (statements (parse (20 + k) "-1 * 2;")) = Some 1.
Proof. repeat split; by_running. Qed.

(** The integer diagnostic for a literal text. *)
Definition notAnInteger (literal : string) : string :=
  "Could not parse " ++ fmt.q literal ++ " as integer".

(** What [parseIntegerLiteral] does on a literal that [strconv.ParseInt]
    rejects: the expression is absent, the parser has moved past the
    literal, and one diagnostic is appended.  The diagnostic is built after
    [consumeNextToken], from [p.currentToken], so it quotes the text of the
    token that follows the literal. *)
Lemma parseIntegerLiteral_rejected p e :
  strconv.ParseInt0 (Literal (currentToken p)) = inr e ->
  parseIntegerLiteral p
  = (None,
     addError (notAnInteger (Literal (currentToken (consumeNextToken p))))
       (consumeNextToken p)).
Proof. unfold parseIntegerLiteral. intros ->. reflexivity. Qed.

(** C2 (the code departs from the claim).  On the input
    ["99999999999999999999;"] the literal does not fit 64 bits; the parser
    records exactly one diagnostic and an absent expression and goes on, but
    the diagnostic quotes [";"], the token after the literal, not the
    literal. *)
Theorem integer_diagnostic_quotes_next_token (k : nat) :
  strconv.ParseInt0 "99999999999999999999" = inr strconv.ErrRange
  /\ diagnostics (parse (20 + k) "99999999999999999999;")
     = Some [notAnInteger ";"]
  /\ notAnInteger ";" <> notAnInteger "99999999999999999999"
  /\ option_map (List.map expressionOf)
       (statements (parse (20 + k) "99999999999999999999;"))
     = Some [None].
Proof.
  split; [vm_compute; reflexivity |].
  split; [by_running |].
  split; [vm_compute; discriminate | by_running].
Qed.

(** The panic of a type assertion on a nil interface value. *)
Definition nilBlockPanic : string :=
  "interface conversion: ast.Statement is nil, not *ast.BlockStatement".

(** C4 (the code departs from the claim).  On the input ["if"] the
    consequence block is missing: [blockStatementParselet] returns nil and
    the type assertion in [parseIfExpression] panics.  With six units of
    fuel or more the run is that panic; with less it is out of fuel; it is
    never a program. *)
Theorem ParseProgram_panics_on_if :
  (forall k, parse (6 + k) "if" = Panic nilBlockPanic)
  /\ (forall fuel prog p, parse fuel "if" <> Ok prog p).
Proof.
  assert (H : forall k, parse (6 + k) "if" = Panic nilBlockPanic) by by_running.
  split; [exact H |].
  intros fuel prog p.
  destruct (Nat.lt_ge_cases fuel 6) as [Hlt | Hge].
  - do 6 (destruct fuel as [| fuel]; [vm_compute; discriminate |]). lia.
  - replace fuel with (6 + (fuel - 6)) by lia. rewrite H. discriminate.
Qed.

(** The other half of C4 holds: a missing closing parenthesis gives a
    diagnostic and a program. *)
Lemma missing_paren_is_reported (k : nat) :
  diagnostics (parse (20 + k) "(1 + 2;")
  = Some [unexpected (mkToken SEMICOLON ";") RPAREN]
  /\ rendering (parse (20 + k) "(1 + 2;") = Some "(1 + 2)".
Proof. split; by_running. Qed.

(** The same panic for a function literal without a body. *)
Lemma ParseProgram_panics_on_fn (k : nat) :
  parse (20 + k) "fn(x)" = Panic nilBlockPanic.
Proof. by_running. Qed.

(** ** Function literals and their parameters *)

(** The function literal that is the expression of the first statement. *)
Definition functionLiteralOf (r : result Program)
  : option (list (option Identifier) * option BlockStatement) :=
  match statements r with
  | Some (s :: _) =>
      match expressionOf s with
      | Some (FunctionLiteral _ params body) => Some (params, body)
      | _ => None
      end
  | _ => None
  end.

Definition parametersOf (r : result Program) : option (list (option Identifier)) :=
  option_map fst (functionLiteralOf r).

Definition parameterNames (r : result Program) : option (list (option string)) :=
  option_map (List.map (option_map Ident_Value)) (parametersOf r).

Definition isExpressionStatement (s : option Statement) : bool :=
  match s with
  | Some (ExpressionStatement _ _) => true
  | _ => false
  end.

(** The kinds of the statements of the body: [true] for an expression
    statement. *)
Definition bodyKinds (r : result Program) : option (list bool) :=
  match functionLiteralOf r with
  | Some (_, Some (mkBlockStatement _ stmts)) =>
      Some (List.map isExpressionStatement stmts)
  | _ => None
  end.

(** The identifier [parseIdentifier] builds from a token. *)
Definition identifierOf (tok : Token) : Identifier :=
  mkIdentifier tok (Literal tok).

(** One iteration of the parameter loop on a token that is neither the
    end-marker nor [)]: the token becomes a parameter, whatever its kind,
    and no diagnostic is added. *)
Lemma parseParameters_step fuel ps p :
  typeIs (currentToken p) EOF = false ->
  typeIs (currentToken p) RPAREN = false ->
  exists p',
    errors p' = errors p
    /\ p' = (if typeIs (currentToken (consumeNextToken p)) COMMA
             then consumeNextToken (consumeNextToken p)
             else consumeNextToken p)
    /\ parseParameters (S fuel) ps p
       = parseParameters fuel (ps ++ [Some (identifierOf (currentToken p))]) p'.
Proof.
  intros He Hr. cbn [parseParameters].
  unfold bind at 1, current, read. rewrite He, Hr. cbn [negb andb].
  unfold bind at 1, call, parseIdentifier.
  unfold bind at 1, read.
  destruct (typeIs (currentToken (consumeNextToken p)) COMMA) eqn:Ec.
  - eexists; split; [| split; [reflexivity |]].
    + rewrite !consumeNextToken_errors. reflexivity.
    + unfold bind at 1, exec. rewrite consumeToken_match by exact Ec.
      reflexivity.
  - eexists; split; [| split; [reflexivity |]].
    + rewrite consumeNextToken_errors. reflexivity.
    + reflexivity.
Qed.

Lemma parseParameters_stop fuel ps p :
  typeIs (currentToken p) RPAREN = true ->
  parseParameters (S fuel) ps p = Ok ps p.
Proof.
  intros Hr. cbn [parseParameters]. unfold bind, current, read.
  rewrite Hr, andb_false_r. reflexivity.
Qed.

(** C10.  In the parameter list of a function literal a token of any kind
    is taken as a parameter: in every state in which the loop looks at a
    token (one that is neither the end-marker nor [)], the two kinds that
    end the list), the token becomes an [Identifier] whose value is the text
    of the token, and the diagnostics stay as they were.  So ["fn(1) { x }"]
    parses with the single parameter ["1"], an integer token, and no
    diagnostic. *)
Theorem any_token_is_a_parameter :
  (forall fuel ps p,
      typeIs (currentToken p) EOF = false ->
      typeIs (currentToken p) RPAREN = false ->
      exists p',
        errors p' = errors p
        /\ parseParameters (S fuel) ps p
           = parseParameters fuel
               (ps ++ [Some (mkIdentifier (currentToken p)
                               (Literal (currentToken p)))]) p')
  /\ (forall k,
         parametersOf (parse (20 + k) "fn(1) { x }")
         = Some [Some (mkIdentifier (mkToken INT "1") "1")]
         /\ diagnostics (parse (20 + k) "fn(1) { x }") = Some []).
Proof.
  split.
  - intros fuel ps p He Hr.
    destruct (parseParameters_step fuel ps p He Hr) as (p' & H1 & _ & H2).
    exists p'. split; assumption.
  - intros k; split; by_running.
Qed.

Lemma any_token_is_a_parameter_witness :
  exists p',
    errors p' = errors (New (lexer.New "+) { x }"))
    /\ parseParameters 3 [] (New (lexer.New "+) { x }"))
       = parseParameters 2 [Some (mkIdentifier (mkToken PLUS "+") "+")] p'.
Proof.
  apply (proj1 any_token_is_a_parameter 2 [] (New (lexer.New "+) { x }")));
    vm_compute; reflexivity.
Defined.

(** C8, counterexample.  With the empty parameter list the stray comma is
    not dropped: it becomes a parameter named [","]. *)
Lemma stray_comma_alone_is_a_parameter :
  parameterNames (parse 20 "fn(,) { x }") = Some [Some ","]
  /\ parameterNames (parse 20 "fn() { x }") = Some []
  /\ ~ (parametersOf (parse 20 "fn(,) { x }")
        = parametersOf (parse 20 "fn() { x }")).
Proof.
  split; [vm_compute; reflexivity |].
  split; [vm_compute; reflexivity |].
  vm_compute. discriminate.
Qed.

(** C8, as amended.  ["fn(x, y) { x + y; }"] parses into a function literal
    with the two parameters ["x"] and ["y"] and a body of one expression
    statement.  A stray comma between a parameter and the closing
    parenthesis is dropped without a diagnostic: from every state where the
    loop stands on a parameter token, the loop gives the same parameters and
    the same diagnostics whether the token is followed by [,] and [)] or by
    [)] alone, and it stops on the [)]. *)
Theorem stray_comma_after_a_parameter :
  (forall k,
      parameterNames (parse (20 + k) "fn(x, y) { x + y; }")
      = Some [Some "x"; Some "y"]
      /\ bodyKinds (parse (20 + k) "fn(x, y) { x + y; }") = Some [true]
      /\ diagnostics (parse (20 + k) "fn(x, y) { x + y; }") = Some [])
  /\ (forall k,
         parametersOf (parse (20 + k) "fn(x, y,) { x }")
         = parametersOf (parse (20 + k) "fn(x, y) { x }")
         /\ parameterNames (parse (20 + k) "fn(x, y,) { x }")
            = Some [Some "x"; Some "y"]
         /\ diagnostics (parse (20 + k) "fn(x, y,) { x }") = Some [])
  /\ (forall fuel ps p,
         typeIs (currentToken p) EOF = false ->
         typeIs (currentToken p) RPAREN = false ->
         (typeIs (nextToken p) COMMA = true
          /\ typeIs (fst (lexer.NextToken (l p))) RPAREN = true)
         \/ typeIs (nextToken p) RPAREN = true ->
         exists p',
           parseParameters (2 + fuel) ps p
           = Ok (ps ++ [Some (mkIdentifier (currentToken p)
                                (Literal (currentToken p)))])%list p'
           /\ errors p' = errors p
           /\ typeIs (currentToken p') RPAREN = true).
Proof.
  split; [intros k; repeat split; by_running |].
  split; [intros k; repeat split; by_running |].
  intros fuel ps p He Hr Hnext.
  destruct (parseParameters_step (S fuel) ps p He Hr) as (p' & H1 & H2 & H3).
  exists p'. cbn [Nat.add]. rewrite H3.
  rewrite consumeNextToken_current in H2 by exact He.
  destruct Hnext as [[Hc Hp] | Hp].
  - rewrite Hc in H2.
    assert (Hcur : typeIs (currentToken p') RPAREN = true).
    { rewrite H2. rewrite consumeNextToken_current.
      - rewrite consumeNextToken_next by exact He. exact Hp.
      - rewrite consumeNextToken_current by exact He.
        apply (kind_not_eof _ _ Hc). discriminate. }
    rewrite parseParameters_stop by exact Hcur. auto.
  - assert (Hc : typeIs (nextToken p) COMMA = false).
    { apply typeIs_true in Hp. apply typeIs_false. rewrite Hp. discriminate. }
    rewrite Hc in H2.
    assert (Hcur : typeIs (currentToken p') RPAREN = true).
    { rewrite H2. rewrite consumeNextToken_current by exact He. exact Hp. }
    rewrite parseParameters_stop by exact Hcur. auto.
Qed.

Lemma stray_comma_after_a_parameter_witness :
  exists p',
    parseParameters (2 + 0) [] (New (lexer.New "y,) { x }"))
    = Ok [Some (mkIdentifier (mkToken IDENT "y") "y")] p'
    /\ errors p' = errors (New (lexer.New "y,) { x }"))
    /\ typeIs (currentToken p') RPAREN = true.
Proof.
  apply (proj2 (proj2 stray_comma_after_a_parameter) 0 []
           (New (lexer.New "y,) { x }"))).
  - vm_compute. reflexivity.
  - vm_compute. reflexivity.
  - left. split; vm_compute; reflexivity.
Defined.

(** ** The call form *)

(** Whether a tree contains a [CallExpression] node. *)
Fixpoint Expression_calls (e : Expression) : bool :=
  match e with
  | ExprIdentifier _ | IntegerLiteral _ _ | Boolean _ _ => false
  | PrefixExpression _ _ rhs =>
      match rhs with Some r => Expression_calls r | None => false end
  | InfixExpression _ lhs _ rhs =>
      match lhs with Some a => Expression_calls a | None => false end
      || match rhs with Some b => Expression_calls b | None => false end
  | IfExpression _ cond conseq alt =>
      match cond with Some c => Expression_calls c | None => false end
      || match conseq with Some b => BlockStatement_calls b | None => false end
      || match alt with Some b => BlockStatement_calls b | None => false end
  | FunctionLiteral _ _ body =>
      match body with Some b => BlockStatement_calls b | None => false end
  | CallExpression _ _ _ => true
  end
with Statement_calls (s : Statement) : bool :=
  match s with
  | LetStatement _ _ value =>
      match value with Some v => Expression_calls v | None => false end
  | ReturnStatement _ value =>
      match value with Some v => Expression_calls v | None => false end
  | ExpressionStatement _ e =>
      match e with Some v => Expression_calls v | None => false end
  | StmtBlock b => BlockStatement_calls b
  end
with BlockStatement_calls (b : BlockStatement) : bool :=
  match b with
  | mkBlockStatement _ stmts =>
      existsb (fun s => match s with
                        | Some s' => Statement_calls s'
                        | None => false
                        end) stmts
  end.

Definition oExpression_calls (e : option Expression) : bool :=
  match e with Some v => Expression_calls v | None => false end.

Definition oStatement_calls (s : option Statement) : bool :=
  match s with Some s' => Statement_calls s' | None => false end.

Definition Statements_calls (stmts : list (option Statement)) : bool :=
  existsb oStatement_calls stmts.

Definition Program_calls (prog : Program) : bool :=
  Statements_calls (Statements prog).

(** [inv m Q]: every value [m] returns satisfies [Q]. *)
Definition inv {A : Type} (m : M A) (Q : A -> Prop) : Prop :=
  forall p a p', m p = Ok a p' -> Q a.

Lemma inv_bind {A B : Type} (m : M A) (f : A -> M B) (R : A -> Prop) (Q : B -> Prop) :
  inv m R -> (forall a, R a -> inv (f a) Q) -> inv (bind m f) Q.
Proof.
  unfold inv, bind. intros Hm Hf p b p' H.
  destruct (m p) as [a p1 | |] eqn:E; try discriminate.
  eapply Hf; [eapply Hm; exact E | exact H].
Qed.

Lemma inv_bind_any {A B : Type} (m : M A) (f : A -> M B) (Q : B -> Prop) :
  (forall a, inv (f a) Q) -> inv (bind m f) Q.
Proof.
  intros Hf. apply inv_bind with (R := fun _ => True); [intros ? ? ? ?; exact I |].
  intros a _. apply Hf.
Qed.

Lemma inv_ret {A : Type} (a : A) (Q : A -> Prop) : Q a -> inv (ret a) Q.
Proof. intros H p a' p' [= <- _]. exact H. Qed.

Lemma inv_assoc {A B C : Type} (m : M A) (f : A -> M B) (g : B -> M C) Q :
  inv (bind m (fun a => bind (f a) g)) Q -> inv (bind (bind m f) g) Q.
Proof.
  unfold inv, bind. intros H p c p' E. apply (H p c p').
  destruct (m p); [exact E | discriminate ..].
Qed.

Lemma inv_ret_bind {A B : Type} (a : A) (f : A -> M B) Q :
  inv (f a) Q -> inv (bind (ret a) f) Q.
Proof. intros H; exact H. Qed.

Lemma inv_timeout {A : Type} (Q : A -> Prop) : inv timeout Q.
Proof. intros p a p' H. discriminate H. Qed.

Lemma inv_parseIntegerLiteral :
  inv (call parseIntegerLiteral) (fun e => oExpression_calls e = false).
Proof.
  intros p a p'. unfold call, parseIntegerLiteral.
  destruct (strconv.ParseInt0 _); intros [= <- _]; reflexivity.
Qed.

Lemma inv_parseBooleanLiteral :
  inv (call parseBooleanLiteral) (fun e => oExpression_calls e = false).
Proof.
  intros p a p'. unfold call, parseBooleanLiteral. intros [= <- _]. reflexivity.
Qed.

Lemma inv_assertBlockStatement s :
  oStatement_calls s = false ->
  inv (assertBlockStatement s) (fun b => BlockStatement_calls b = false).
Proof.
  intros Hs p a p'. destruct s as [[| | | b] |]; try discriminate.
  intros [= <- _]. exact Hs.
Qed.

Lemma Statements_calls_snoc ss s :
  Statements_calls ss = false -> oStatement_calls s = false ->
  Statements_calls (ss ++ [s]) = false.
Proof.
  unfold Statements_calls. intros H1 H2. rewrite existsb_app, H1.
  cbn [existsb]. rewrite H2. reflexivity.
Qed.

Record nocall_at (n : nat) : Prop := mkNoCall {
  nocall_parseStatement :
    inv (parseStatement n) (fun s => oStatement_calls s = false);
  nocall_parseExpression : forall prec,
    inv (parseExpression n prec) (fun e => oExpression_calls e = false);
  nocall_parseExpression_loop : forall prec e,
    oExpression_calls e = false ->
    inv (parseExpression_loop n prec e) (fun e' => oExpression_calls e' = false);
  nocall_parsePrefixOperator :
    inv (parsePrefixOperator n) (fun e => oExpression_calls e = false);
  nocall_parseGroupedExpression :
    inv (parseGroupedExpression n) (fun e => oExpression_calls e = false);
  nocall_parseInfixExpression : forall e,
    oExpression_calls e = false ->
    inv (parseInfixExpression n e) (fun e' => oExpression_calls e' = false);
  nocall_parseIfExpression :
    inv (parseIfExpression n) (fun e => oExpression_calls e = false);
  nocall_parseFunctionExpression :
    inv (parseFunctionExpression n) (fun e => oExpression_calls e = false);
  nocall_letStatementParselet :
    inv (letStatementParselet n) (fun s => oStatement_calls s = false);
  nocall_returnStatementParselet :
    inv (returnStatementParselet n) (fun s => oStatement_calls s = false);
  nocall_expressionStatementParselet :
    inv (expressionStatementParselet n) (fun s => oStatement_calls s = false);
  nocall_blockStatementParselet :
    inv (blockStatementParselet n) (fun s => oStatement_calls s = false);
  nocall_blockStatements : forall ss,
    Statements_calls ss = false ->
    inv (blockStatements n ss) (fun ss' => Statements_calls ss' = false)
}.

Ltac close_calls :=
  cbn [oExpression_calls oStatement_calls Expression_calls Statement_calls
       BlockStatement_calls];
  repeat match goal with
         | |- context [match ?a with
                       | Some r => Expression_calls r
                       | None => false
                       end] =>
             change (match a with
                     | Some r => Expression_calls r
                     | None => false
                     end) with (oExpression_calls a)
         | |- context [existsb ?f ?ss] =>
             change (existsb f ss) with (Statements_calls ss)
         end;
  repeat match goal with
         | H : _ = false |- _ => rewrite H
         end;
  try reflexivity.

Ltac inv_step :=
  match goal with
  | |- inv timeout _ => apply inv_timeout
  | |- inv (ret _) _ => apply inv_ret; close_calls
  | |- inv (if ?b then _ else _) _ => destruct b
  | |- inv (match ?x with _ => _ end) _ => destruct x
  | |- inv (bind (match ?x with _ => _ end) _) _ => destruct x
  | |- inv (bind (bind _ _) _) _ => apply inv_assoc
  | |- inv (bind (ret _) _) _ => apply inv_ret_bind
  | |- inv (bind (assertBlockStatement _) _) _ =>
      eapply inv_bind;
      [apply inv_assertBlockStatement; assumption | cbv beta; intros ? ?]
  | |- inv (bind _ _) _ =>
      first [ eapply inv_bind;
              [ solve [ eauto using inv_parseIntegerLiteral,
                          inv_parseBooleanLiteral, Statements_calls_snoc ]
              | cbv beta; intros ? ? ]
            | apply inv_bind_any; intros ? ]
  | |- inv _ _ =>
      solve [ eauto using inv_parseIntegerLiteral, inv_parseBooleanLiteral,
                Statements_calls_snoc ]
  end.

Lemma nocall_all n : nocall_at n.
Proof.
  induction n as [| n IH].
  { constructor; intros; apply inv_timeout. }
  destruct IH as [IHs IHe IHl IHp IHg IHi IHif IHf IHlet IHret IHes IHb IHbs].
  constructor; intros;
    [ cbn [parseStatement] | cbn [parseExpression]
    | cbn [parseExpression_loop] | cbn [parsePrefixOperator]
    | cbn [parseGroupedExpression] | cbn [parseInfixExpression]
    | cbn [parseIfExpression] | cbn [parseFunctionExpression]
    | cbn [letStatementParselet] | cbn [returnStatementParselet]
    | cbn [expressionStatementParselet] | cbn [blockStatementParselet]
    | cbn [blockStatements] ];
    repeat inv_step.
Qed.

Lemma nocall_programStatements n : forall ss,
  Statements_calls ss = false ->
  inv (programStatements n ss) (fun ss' => Statements_calls ss' = false).
Proof.
  induction n as [| n IH]; intros ss Hss; [apply inv_timeout |].
  destruct (nocall_all n) as [IHs _ _ _ _ _ _ _ _ _ _ _ _].
  cbn [programStatements]. repeat inv_step.
Qed.

Lemma nocall_parse fuel src prog p :
  parse fuel src = Ok prog p -> Program_calls prog = false.
Proof.
  unfold parse, ParseProgram. intros H.
  refine (inv_bind _ _ _ (fun prog => Program_calls prog = false)
            (nocall_programStatements fuel [] eq_refl) _ _ _ _ H).
  intros ss Hss. apply inv_ret. exact Hss.
Qed.

(** In front of a [(] the infix loop of [parseExpression] stops and returns
    the expression it has: [(] has no precedence of its own and no infix
    parse function. *)
Lemma parseExpression_loop_at_lparen n prec left p :
  typeIs (currentToken p) LPAREN = true ->
  parseExpression_loop (S n) prec left p = Ok left p.
Proof.
  intros H. apply typeIs_true in H.
  cbn [parseExpression_loop]. unfold bind, current, read, getCurrentPrecedence, typeIs.
  rewrite H. cbn. destruct (prec <? LOWEST)%Z; reflexivity.
Qed.

(** The text of a call node whose callee and arguments have a text. *)
Lemma CallExpression_String tok fn args fs ss :
  Expression_String fn = Some fs ->
  Forall2 (fun a s => Expression_String a = Some s) args ss ->
  Expression_String (CallExpression tok (Some fn) (List.map Some args))
  = Some (fs ++ "(" ++ gostd.Join ss ", " ++ ")").
Proof.
  intros Hf Hargs.
  assert (Hs : Strings Expression_String (List.map Some args) = Some ss).
  { induction Hargs as [| a s args ss Ha _ IH]; [reflexivity |].
    cbn [List.map Strings obind]. rewrite Ha, IH. reflexivity. }
  cbn [Expression_String]. rewrite Hs. cbn [obind]. rewrite Hf. reflexivity.
Qed.

(** The texts of the statements of the program a parse returned. *)
Definition statementTexts (r : result Program) : option (list (option string)) :=
  option_map (List.map (fun s => obind s Statement_String)) (statements r).

(** The diagnostic of [parseExpression] for a token without prefix parser. *)
Definition noPrefix (tok : Token) : string :=
  "Unable to consume prefix: " ++ fmt.v_Token tok.

(** C1, counterexample.  The input ["add(1, 2);"] does not give a call
    node: it gives four expression statements and two diagnostics. *)
Lemma call_form_is_not_parsed :
  exists prog p,
    parse 20 "add(1, 2);" = Ok prog p
    /\ Program_calls prog = false
    /\ List.length (Statements prog) = 4
    /\ List.length (errors p) = 2.
Proof.
  eexists; eexists. split; [vm_compute; reflexivity |].
  repeat split; vm_compute; reflexivity.
Qed.

(** C1, as amended.  The parser has no call form.  No source text makes it
    build a [CallExpression]; an expression followed by [(] ends in front of
    the [(], so ["add(1, 2);"] is read as the expression statements [add],
    [1], [2] and an absent one, with a diagnostic for the [,] met where [)]
    was expected and one for the [)] that starts no expression.  The node
    type exists in the tree and renders as [<callee>(<args>)], the arguments
    separated by a comma and a space. *)
Theorem no_call_expression_is_parsed :
  (forall fuel src prog p,
      parse fuel src = Ok prog p -> Program_calls prog = false)
  /\ (forall n prec left p,
         typeIs (currentToken p) LPAREN = true ->
         parseExpression_loop (S n) prec left p = Ok left p)
  /\ (forall k,
         statementTexts (parse (20 + k) "add(1, 2);")
         = Some [Some "add"; Some "1"; Some "2"; Some ""]
         /\ diagnostics (parse (20 + k) "add(1, 2);")
            = Some [unexpected (mkToken COMMA ",") RPAREN;
                    noPrefix (mkToken RPAREN ")")])
  /\ (forall tok fn args fs ss,
         Expression_String fn = Some fs ->
         Forall2 (fun a s => Expression_String a = Some s) args ss ->
         Expression_String (CallExpression tok (Some fn) (List.map Some args))
         = Some (fs ++ "(" ++ gostd.Join ss ", " ++ ")")).
Proof.
  split; [exact nocall_parse |].
  split; [exact parseExpression_loop_at_lparen |].
  split; [intros k; split; by_running |].
  exact CallExpression_String.
Qed.

Lemma no_call_expression_is_parsed_witness :
  (exists prog p,
      parse 20 "f(x)" = Ok prog p /\ Program_calls prog = false)
  /\ Expression_String
       (CallExpression (mkToken LPAREN "(")
          (Some (ExprIdentifier (mkIdentifier (mkToken IDENT "add") "add")))
          (List.map Some [IntegerLiteral (mkToken INT "1") 1;
                          IntegerLiteral (mkToken INT "2") 2]))
     = Some "add(1, 2)".
Proof.
  split.
  - eexists; eexists. split; [vm_compute; reflexivity |].
    eapply (proj1 no_call_expression_is_parsed 20 "f(x)").
    vm_compute. reflexivity.
  - apply (proj2 (proj2 (proj2 no_call_expression_is_parsed))
             _ _ _ "add" ["1"; "2"]).
    + reflexivity.
    + repeat constructor.
Defined.

End ParserProps.

(** * The lexer as a function on the text that is left

    [NextToken] works on a cursor into the input.  What it returns depends
    only on the text from the cursor on; [lex1] is that function, and
    [NextToken_lex1] relates the two.  The proofs about parsing a rendered
    tree use [lex1]. *)

Module Lexing.
Import token lexer LexerProps.

Definition head0 (s : string) : ascii :=
  match s with
  | String c _ => c
  | EmptyString => zero
  end.

Definition tail (s : string) : string :=
  match s with
  | String _ s' => s'
  | EmptyString => EmptyString
  end.

Fixpoint skipWhile (cond : ascii -> bool) (s : string) : string :=
  match s with
  | String c s' => if cond c then skipWhile cond s' else s
  | EmptyString => EmptyString
  end.

Fixpoint takeWhile (cond : ascii -> bool) (s : string) : string :=
  match s with
  | String c s' => if cond c then String c (takeWhile cond s') else EmptyString
  | EmptyString => EmptyString
  end.

Definition lex1 (s : string) : Token * string :=
  let s := skipWhile whitespaceCond s in
  let c := head0 s in
  if Ascii.eqb c zero then (mkToken EOF "", s)
  else
    let chars := gostd.string_of_byte c ++ gostd.string_of_byte (head0 (tail s)) in
    if negb (String.eqb (GetTwoCharToken chars) ILLEGAL)
    then (mkToken (GetTwoCharToken chars) chars, tail (tail s))
    else if negb (String.eqb (GetSingleCharToken c) ILLEGAL)
    then (mkToken (GetSingleCharToken c) (gostd.string_of_byte c), tail s)
    else if isDigit c
    then (mkToken INT (takeWhile isDigit s), skipWhile isDigit s)
    else if isCharacter c
    then (mkToken (GetTokenType (takeWhile isCharacter s))
            (takeWhile isCharacter s),
          skipWhile isCharacter s)
    else (mkToken ILLEGAL (gostd.string_of_byte c), tail s).

(** The text from the cursor on. *)
Definition rest (l : Lexer) : string := gostd.drop (position l) (input l).

Lemma drop_all n s : String.length s <= n -> gostd.drop n s = "".
Proof.
  revert s; induction n as [| n IH]; intros s H; destruct s; simpl in *;
    try reflexivity; try lia.
  apply IH. lia.
Qed.

Lemma drop_S n s : gostd.drop (S n) s = tail (gostd.drop n s).
Proof.
  revert s; induction n as [| n IH]; intros s.
  - destruct s; reflexivity.
  - destruct s as [| c s]; [reflexivity |].
    change (gostd.drop (S (S n)) (String c s)) with (gostd.drop (S n) s).
    change (gostd.drop (S n) (String c s)) with (gostd.drop n s).
    apply IH.
Qed.

Lemma get_drop n s :
  n < String.length s -> byte_at s n = head0 (gostd.drop n s).
Proof.
  unfold byte_at.
  revert s; induction n as [| n IH]; intros s H; destruct s as [| c s];
    simpl in *; try lia; try reflexivity.
  apply IH. lia.
Qed.

Lemma substring_drop pos s pre post :
  gostd.drop pos s = pre ++ post -> substring pos (String.length pre) s = pre.
Proof.
  revert s; induction pos as [| pos IH]; intros s H.
  - simpl in H. subst s. clear. induction pre as [| c pre IH]; simpl.
    + destruct post; reflexivity.
    + rewrite IH. reflexivity.
  - destruct s as [| c s].
    + simpl in H. destruct pre; [reflexivity | discriminate].
    + simpl in *. apply IH. exact H.
Qed.

Lemma take_skip cond s : takeWhile cond s ++ skipWhile cond s = s.
Proof.
  induction s as [| c s IH]; simpl; [reflexivity |].
  destruct (cond c); simpl; [rewrite IH |]; reflexivity.
Qed.

Lemma wf_ch l : wf l -> ch l = head0 (rest l).
Proof.
  intros [H1 H2 H3]. rewrite H3. unfold rest.
  destruct (Nat.ltb_spec (position l) (String.length (input l))) as [H | H].
  - apply get_drop; exact H.
  - rewrite drop_all by exact H. reflexivity.
Qed.

Lemma rest_consumeNextChar l : wf l -> rest (consumeNextChar l) = tail (rest l).
Proof.
  intros Hwf. unfold rest. rewrite consumeNextChar_input.
  destruct (Nat.lt_ge_cases (position l) (String.length (input l))) as [H | H].
  - rewrite (consumeNextChar_position l Hwf H). apply drop_S.
  - rewrite (consumeNextChar_at_end l Hwf H).
    rewrite drop_all by exact H. reflexivity.
Qed.

Lemma wf_peek l : wf l -> peekNextChar l = head0 (tail (rest l)).
Proof.
  intros Hwf. pose proof Hwf as [H1 H2 H3]. unfold peekNextChar, rest.
  rewrite <- drop_S.
  destruct (Nat.leb_spec (String.length (input l)) (nextPosition l)) as [H | H].
  - rewrite drop_all by lia. reflexivity.
  - assert (nextPosition l = S (position l)) as -> by lia.
    apply get_drop. lia.
Qed.

Section ScanSpec.
Variable cond : ascii -> bool.
Hypothesis cond_zero : cond zero = false.

Lemma scan_rest fuel l :
  wf l -> remaining l < fuel ->
  rest (scan cond fuel l) = skipWhile cond (rest l)
  /\ position (scan cond fuel l)
     = position l + String.length (takeWhile cond (rest l)).
Proof.
  revert l; induction fuel as [| fuel IH]; intros l Hwf Hlt; [lia |].
  cbn [scan]. rewrite (wf_ch l Hwf).
  destruct (rest l) as [| c s] eqn:Er.
  - cbn [head0]. rewrite cond_zero. rewrite Er. simpl. split; [reflexivity | lia].
  - cbn [head0 skipWhile takeWhile]. destruct (cond c) eqn:Ec.
    + assert (Hin : position l < String.length (input l)).
      { unfold rest in Er.
        destruct (Nat.lt_ge_cases (position l) (String.length (input l)))
          as [H | H]; [exact H |].
        rewrite drop_all in Er by exact H. discriminate. }
      destruct (IH (consumeNextChar l)) as [R P].
      * apply consumeNextChar_wf; exact Hwf.
      * unfold remaining in *. rewrite consumeNextChar_input.
        rewrite (consumeNextChar_position l Hwf Hin). lia.
      * rewrite rest_consumeNextChar, Er in R, P by exact Hwf.
        cbn [tail] in R, P. rewrite R, P.
        rewrite (consumeNextChar_position l Hwf Hin).
        split; [reflexivity | simpl; lia].
    + rewrite Er. split; [reflexivity | simpl; lia].
Qed.

Lemma scan_literal l :
  wf l ->
  substring (position l)
    (position (scan cond (loop_fuel l) l) - position l)
    (input (scan cond (loop_fuel l) l))
  = takeWhile cond (rest l).
Proof.
  intros Hwf.
  destruct (scan_rest (loop_fuel l) l Hwf) as [_ P].
  { unfold loop_fuel, remaining. lia. }
  rewrite P, scan_input.
  replace (position l + String.length (takeWhile cond (rest l)) - position l)
    with (String.length (takeWhile cond (rest l))) by lia.
  apply substring_drop with (post := skipWhile cond (rest l)).
  rewrite take_skip. reflexivity.
Qed.

End ScanSpec.

Lemma rest_consumeWhitespaces l :
  wf l -> rest (consumeWhitespaces l) = skipWhile whitespaceCond (rest l).
Proof.
  intros Hwf. apply scan_rest; [reflexivity | exact Hwf |].
  unfold loop_fuel, remaining. lia.
Qed.

(** [NextToken] computes [lex1] of the text that is left and moves the
    cursor to where [lex1] stops. *)
Lemma tryLexlets_lex1 l :
  wf l -> skipWhile whitespaceCond (rest l) = rest l ->
  fst (tryLexlets lexlets l) = fst (lex1 (rest l))
  /\ rest (snd (tryLexlets lexlets l)) = snd (lex1 (rest l)).
Proof.
  intros Hwf Hws. unfold lex1. rewrite Hws.
  unfold lexlets, tryLexlets, eofLexlet.
  rewrite <- (wf_ch l Hwf).
  destruct (Ascii.eqb (ch l) zero) eqn:Hz; cbn [negb fst snd].
  { split; reflexivity. }
  unfold twoCharLexlet. rewrite (wf_peek l Hwf), (wf_ch l Hwf).
  destruct (String.eqb (GetTwoCharToken _) ILLEGAL) eqn:E2; cbn [negb fst snd].
  2:{ split; [reflexivity |].
      rewrite !rest_consumeNextChar; auto using consumeNextChar_wf. }
  unfold singleCharLexlet. rewrite (wf_ch l Hwf).
  destruct (String.eqb (GetSingleCharToken _) ILLEGAL) eqn:E1; cbn [negb fst snd].
  2:{ split; [reflexivity |]. apply rest_consumeNextChar; exact Hwf. }
  unfold literalsLexlet. rewrite Hz. cbn [orb].
  rewrite (wf_ch l Hwf).
  destruct (isDigit (head0 (rest l))) eqn:Ed; cbn [negb fst snd].
  { split.
    - rewrite (scan_literal isDigit isDigit_zero l Hwf). reflexivity.
    - apply scan_rest; [reflexivity | exact Hwf |].
      unfold loop_fuel, remaining. lia. }
  unfold identifiersAndKeywordsLexlet. rewrite Hz. cbn [orb].
  rewrite (wf_ch l Hwf).
  destruct (isCharacter (head0 (rest l))) eqn:Ec; cbn [negb fst snd].
  { split.
    - rewrite (scan_literal isCharacter isCharacter_zero l Hwf). reflexivity.
    - apply scan_rest; [reflexivity | exact Hwf |].
      unfold loop_fuel, remaining. lia. }
  split; [rewrite (wf_ch l Hwf); reflexivity |].
  apply rest_consumeNextChar; exact Hwf.
Qed.

Lemma skipWhile_idem cond s : skipWhile cond (skipWhile cond s) = skipWhile cond s.
Proof.
  induction s as [| c s IH]; simpl; [reflexivity |].
  destruct (cond c) eqn:E; [exact IH |]. simpl. rewrite E. reflexivity.
Qed.

Theorem NextToken_lex1 l :
  wf l ->
  fst (NextToken l) = fst (lex1 (rest l))
  /\ rest (snd (NextToken l)) = snd (lex1 (rest l))
  /\ wf (snd (NextToken l)).
Proof.
  intros Hwf. unfold NextToken.
  pose proof (consumeWhitespaces_wf l Hwf) as Hwf'.
  pose proof (rest_consumeWhitespaces l Hwf) as Hr.
  destruct (tryLexlets_lex1 (consumeWhitespaces l) Hwf') as [H1 H2].
  { rewrite Hr. apply skipWhile_idem. }
  assert (E : lex1 (rest (consumeWhitespaces l)) = lex1 (rest l)).
  { unfold lex1. rewrite Hr, skipWhile_idem. reflexivity. }
  rewrite E in H1, H2.
  split; [exact H1 | split; [exact H2 |]].
  apply tryLexlets_step; exact Hwf'.
Qed.

Lemma rest_New s : rest (New s) = s.
Proof. reflexivity. Qed.

End Lexing.

(** * Rendering a tree and parsing the text again *)

Module RoundTrip.
Import token lexer ast parser LexerProps Lexing ParserProps.

(** ** Token sequences

    [lexes s ts]: the text [s] lexes to the tokens [ts] followed by the
    end-marker.  [repr p ts]: the parser [p] will see the tokens [ts], the
    first of them being its current token, followed by the end-marker. *)

Fixpoint lexes (s : string) (ts : list Token) : Prop :=
  match ts with
  | [] => Type_ (fst (lex1 s)) = EOF
  | t :: ts' =>
      fst (lex1 s) = t /\ Type_ t <> EOF /\ lexes (snd (lex1 s)) ts'
  end.

Fixpoint repr (p : Parser) (ts : list Token) : Prop :=
  match ts with
  | [] => Type_ (currentToken p) = EOF
  | t :: ts' =>
      currentToken p = t /\ Type_ t <> EOF /\ repr (consumeNextToken p) ts'
  end.

(** [k] tokens further. *)
Fixpoint advance (k : nat) (p : Parser) : Parser :=
  match k with
  | O => p
  | S k' => advance k' (consumeNextToken p)
  end.

(** The parser stands on the text [s]: its two tokens are the first two of
    [s] and its lexer has the text after them. *)
Definition stands_on (p : Parser) (s : string) : Prop :=
  wf (l p)
  /\ currentToken p = fst (lex1 s)
  /\ nextToken p = fst (lex1 (snd (lex1 s)))
  /\ rest (l p) = snd (lex1 (snd (lex1 s))).

Lemma stands_on_New s : stands_on (parser.New (lexer.New s)) s.
Proof.
  unfold parser.New, consumeNextToken.
  cbn [currentToken nextToken l errors Type_ zeroToken].
  change (String.eqb "" EOF) with false. cbv iota.
  destruct (NextToken_lex1 (lexer.New s) (New_wf s)) as (T1 & R1 & W1).
  rewrite rest_New in T1, R1.
  destruct (NextToken (lexer.New s)) as [t1 l1]. cbn [fst snd] in *.
  cbn [currentToken nextToken l errors Type_ zeroToken].
  change (String.eqb "" EOF) with false. cbv iota.
  destruct (NextToken_lex1 l1 W1) as (T2 & R2 & W2).
  destruct (NextToken l1) as [t2 l2]. cbn [fst snd] in *.
  unfold stands_on. cbn [currentToken nextToken l].
  rewrite R1 in T2, R2. auto.
Qed.

Lemma stands_on_consume p s :
  stands_on p s -> Type_ (currentToken p) <> EOF ->
  stands_on (consumeNextToken p) (snd (lex1 s)).
Proof.
  intros (W & C & N & R) Hne. unfold consumeNextToken.
  apply String.eqb_neq in Hne. rewrite Hne.
  destruct (NextToken_lex1 (l p) W) as (T1 & R1 & W1).
  destruct (NextToken (l p)) as [t1 l1]. cbn [fst snd] in *.
  unfold stands_on. cbn [currentToken nextToken l].
  rewrite R in T1, R1. auto.
Qed.

Lemma stands_on_repr ts : forall p s, stands_on p s -> lexes s ts -> repr p ts.
Proof.
  induction ts as [| t ts IH]; intros p s Hs Hl; cbn [lexes repr] in *.
  - destruct Hs as (_ & C & _). rewrite C. exact Hl.
  - destruct Hl as (Ht & Hne & Hl). pose proof Hs as (_ & C & _).
    rewrite C, Ht. split; [reflexivity | split; [exact Hne |]].
    apply (IH _ (snd (lex1 s))); [| exact Hl].
    apply stands_on_consume; [exact Hs |]. rewrite C, Ht. exact Hne.
Qed.

Lemma repr_advance ts : forall p rest,
  repr p (ts ++ rest) -> repr (advance (List.length ts) p) rest.
Proof.
  induction ts as [| t ts IH]; intros p rest H; cbn [List.length advance].
  - exact H.
  - cbn [app repr] in H. destruct H as (_ & _ & H). apply IH. exact H.
Qed.

Lemma advance_add a b p : advance (a + b) p = advance b (advance a p).
Proof.
  revert p; induction a as [| a IH]; intros p; cbn [Nat.add advance];
    [reflexivity | apply IH].
Qed.

Lemma advance_errors k : forall p, errors (advance k p) = errors p.
Proof.
  induction k as [| k IH]; intros p; cbn [advance]; [reflexivity |].
  rewrite IH. apply consumeNextToken_errors.
Qed.

(** ** Character classes *)

Definition isLetters (v : string) : bool :=
  match v with
  | EmptyString => false
  | _ => String.eqb (takeWhile isCharacter v) v
  end.

Definition isDigits (v : string) : bool :=
  match v with
  | EmptyString => false
  | _ => String.eqb (takeWhile isDigit v) v
  end.

(** The text that follows a word or a number must not go on with a letter
    or a digit. *)
Definition boundary (s : string) : Prop :=
  isCharacter (head0 s) = false /\ isDigit (head0 s) = false.

Lemma letter_facts c :
  isCharacter c = true ->
  whitespaceCond c = false /\ Ascii.eqb c zero = false
  /\ isDigit c = false
  /\ GetSingleCharToken c = ILLEGAL
  /\ (forall x, GetTwoCharToken (gostd.string_of_byte c ++ x) = ILLEGAL).
Proof.
  destruct c as [[] [] [] [] [] [] [] []]; intros H; vm_compute in H;
    try discriminate H; clear H; repeat split; intros; reflexivity.
Qed.

Lemma digit_facts c :
  isDigit c = true ->
  whitespaceCond c = false /\ Ascii.eqb c zero = false
  /\ isCharacter c = false
  /\ GetSingleCharToken c = ILLEGAL
  /\ (forall x, GetTwoCharToken (gostd.string_of_byte c ++ x) = ILLEGAL).
Proof.
  destruct c as [[] [] [] [] [] [] [] []]; intros H; vm_compute in H;
    try discriminate H; clear H; repeat split; intros; reflexivity.
Qed.

Lemma takeWhile_app cond v s :
  takeWhile cond v = v -> cond (head0 s) = false ->
  takeWhile cond (v ++ s) = v /\ skipWhile cond (v ++ s) = s.
Proof.
  intros Hv Hs. induction v as [| c v IH]; cbn [append takeWhile skipWhile] in *.
  - destruct s as [| c s]; cbn [head0 takeWhile skipWhile] in *;
      [split; reflexivity |]. rewrite Hs. split; reflexivity.
  - destruct (cond c); [| discriminate].
    injection Hv as Hv. destruct (IH Hv) as [H1 H2].
    rewrite H1, H2. split; reflexivity.
Qed.

(** A word followed by something that is not a letter lexes to one token,
    a keyword or an identifier. *)
Lemma lex1_word v s :
  isLetters v = true -> isCharacter (head0 s) = false ->
  lex1 (v ++ s) = (mkToken (GetTokenType v) v, s).
Proof.
  intros Hv Hs. unfold isLetters in Hv.
  destruct v as [| c v]; [discriminate |].
  apply String.eqb_eq in Hv.
  destruct (takeWhile_app isCharacter _ s Hv Hs) as [H1 H2].
  assert (Hc : isCharacter c = true).
  { cbn [takeWhile] in Hv. destruct (isCharacter c); [reflexivity | discriminate]. }
  destruct (letter_facts c Hc) as (F1 & F2 & F3 & F4 & F5).
  unfold lex1. cbn [append skipWhile head0 tail]. rewrite F1.
  cbn [head0 tail]. rewrite F2, F5, F4, F3, Hc.
  cbn [negb String.eqb].
  change (String.eqb ILLEGAL ILLEGAL) with true. cbn [negb].
  change (String c (v ++ s)) with (String c v ++ s).
  rewrite H1, H2. reflexivity.
Qed.

(** A number followed by something that is not a digit lexes to one
    integer token. *)
Lemma lex1_number v s :
  isDigits v = true -> isDigit (head0 s) = false ->
  lex1 (v ++ s) = (mkToken INT v, s).
Proof.
  intros Hv Hs. unfold isDigits in Hv.
  destruct v as [| c v]; [discriminate |].
  apply String.eqb_eq in Hv.
  destruct (takeWhile_app isDigit _ s Hv Hs) as [H1 H2].
  assert (Hc : isDigit c = true).
  { cbn [takeWhile] in Hv. destruct (isDigit c); [reflexivity | discriminate]. }
  destruct (digit_facts c Hc) as (F1 & F2 & F3 & F4 & F5).
  unfold lex1. cbn [append skipWhile head0 tail]. rewrite F1.
  cbn [head0 tail]. rewrite F2, F5, F4, Hc.
  cbn [negb String.eqb].
  change (String.eqb ILLEGAL ILLEGAL) with true. cbn [negb].
  change (String c (v ++ s)) with (String c v ++ s).
  rewrite H1, H2. reflexivity.
Qed.

(** A space in front changes nothing. *)
Lemma lex1_space s : lex1 (String " " s) = lex1 s.
Proof. reflexivity. Qed.

Lemma lexes_space s ts : lexes s ts -> lexes (String " " s) ts.
Proof.
  destruct ts; cbn [lexes]; rewrite lex1_space; intros H; exact H.
Qed.

Definition LP : Token := mkToken LPAREN "(".
Definition RP : Token := mkToken RPAREN ")".

Lemma lex1_lparen s : lex1 (String "(" s) = (LP, s).
Proof. reflexivity. Qed.

Lemma lex1_rparen s : lex1 (String ")" s) = (RP, s).
Proof. reflexivity. Qed.

Lemma lex1_semicolon s : lex1 (String ";" s) = (mkToken SEMICOLON ";", s).
Proof. reflexivity. Qed.

Lemma lex1_minus s : lex1 (String "-" s) = (mkToken MINUS "-", s).
Proof. reflexivity. Qed.

(** The first character of the text of an operand. *)
Definition operandStart (c : ascii) : bool :=
  Ascii.eqb c "(" || isCharacter c || isDigit c.

Lemma lex1_bang s :
  operandStart (head0 s) = true -> lex1 (String "!" s) = (mkToken BANG "!", s).
Proof.
  intros H. unfold lex1. cbn [skipWhile whitespaceCond head0 tail].
  change (whitespaceCond "!") with false. cbv iota. cbn [head0 tail].
  assert (E : GetTwoCharToken
                (gostd.string_of_byte "!" ++ gostd.string_of_byte (head0 s))
              = ILLEGAL).
  { destruct (head0 s) as [[] [] [] [] [] [] [] []]; vm_compute in H;
      try discriminate H; reflexivity. }
  rewrite E. reflexivity.
Qed.

(** The operators of prefix and infix expressions: the kind of the token is
    its text. *)
Definition isPrefixOp (op : string) : bool :=
  String.eqb op BANG || String.eqb op MINUS.

Definition isInfixOp (op : string) : bool :=
  match lookup infixParsers op with
  | Some _ => true
  | None => false
  end.

Lemma prefix_cases op : isPrefixOp op = true -> op = BANG \/ op = MINUS.
Proof.
  unfold isPrefixOp. intros H. apply orb_prop in H.
  destruct H as [H | H]; apply String.eqb_eq in H; auto.
Qed.

Lemma infix_cases op :
  isInfixOp op = true ->
  In op [PLUS; MINUS; ASTERISK; SLASH; LT; GT; EQ; NOTEQ].
Proof.
  unfold isInfixOp, lookup, infixParsers. cbn [gostd.map_get In].
  repeat match goal with
         | |- context [String.eqb op ?t] =>
             let E := fresh "E" in
             destruct (String.eqb op t) eqn:E;
             [apply String.eqb_eq in E; intros _; subst op; tauto |]
         end.
  discriminate.
Qed.

Lemma lex1_infix op s :
  isInfixOp op = true ->
  lex1 (String " " (op ++ String " " s)) = (mkToken op op, String " " s).
Proof.
  intros H. apply infix_cases in H. cbn [In] in H.
  repeat (destruct H as [H | H]; [subst op; reflexivity |]). contradiction.
Qed.

(** ** The trees the parser builds from words, numbers, operators and
    parentheses *)

Definition isIdentifier (v : string) : bool :=
  isLetters v && String.eqb (GetTokenType v) IDENT.

Inductive plain : Expression -> Prop :=
| plain_identifier v :
    isIdentifier v = true ->
    plain (ExprIdentifier (mkIdentifier (mkToken IDENT v) v))
| plain_integer v z :
    isDigits v = true -> strconv.ParseInt0 v = inl z ->
    plain (IntegerLiteral (mkToken INT v) z)
| plain_true : plain (Boolean (mkToken TRUE "true") true)
| plain_false : plain (Boolean (mkToken FALSE "false") false)
| plain_prefix op r :
    isPrefixOp op = true -> plain r ->
    plain (PrefixExpression (mkToken op op) op (Some r))
| plain_infix op a b :
    isInfixOp op = true -> plain a -> plain b ->
    plain (InfixExpression (mkToken op op) (Some a) op (Some b)).

(** The tokens of the text of a tree. *)
Fixpoint toks (e : Expression) : list Token :=
  match e with
  | ExprIdentifier i => [Ident_Token i]
  | IntegerLiteral tok _ => [tok]
  | Boolean tok _ => [tok]
  | PrefixExpression tok _ (Some r) => [LP; tok] ++ toks r ++ [RP]
  | InfixExpression tok (Some a) _ (Some b) =>
      [LP] ++ toks a ++ [tok] ++ toks b ++ [RP]
  | _ => []
  end.

Lemma append_assoc (a b c : string) : (a ++ b) ++ c = a ++ (b ++ c).
Proof.
  induction a as [| x a IH]; cbn [append]; [reflexivity | rewrite IH; reflexivity].
Qed.

Lemma head0_app a b : a <> "" -> head0 (a ++ b) = head0 a.
Proof. destruct a; [congruence | reflexivity]. Qed.

(** The text of a plain tree, and how it lexes: in front of any text that
    does not go on with a letter or a digit, it gives the tokens of the
    tree. *)
Lemma plain_text e :
  plain e ->
  exists text,
    Expression_String e = Some text
    /\ operandStart (head0 text) = true
    /\ text <> ""
    /\ forall tail ts,
         boundary tail -> lexes tail ts -> lexes (text ++ tail) (toks e ++ ts).
Proof.
  induction 1 as [v Hv | v z Hv Hz | | | op r Hop Hr IHr | op a b Hop Ha IHa Hb IHb].
  - unfold isIdentifier in Hv. apply andb_prop in Hv. destruct Hv as [Hl Hk].
    apply String.eqb_eq in Hk.
    exists v. split; [reflexivity |]. split; [| split].
    + unfold isLetters in Hl. destruct v as [| c v]; [discriminate |].
      apply String.eqb_eq in Hl. cbn [takeWhile] in Hl. cbn [head0].
      unfold operandStart.
      destruct (isCharacter c); [rewrite orb_true_r; reflexivity | discriminate].
    + destruct v; [discriminate | congruence].
    + intros tail ts [B1 B2] Hts. cbn [toks app lexes Ident_Token].
      rewrite (lex1_word v tail Hl B1), Hk. cbn [fst snd Type_].
      split; [reflexivity | split; [discriminate | exact Hts]].
  - exists v. split; [reflexivity |]. split; [| split].
    + unfold isDigits in Hv. destruct v as [| c v]; [discriminate |].
      apply String.eqb_eq in Hv. cbn [takeWhile] in Hv. cbn [head0].
      unfold operandStart.
      destruct (isDigit c); [rewrite orb_true_r; reflexivity | discriminate].
    + destruct v; [discriminate | congruence].
    + intros tail ts [B1 B2] Hts. cbn [toks app lexes].
      rewrite (lex1_number v tail Hv B2). cbn [fst snd Type_].
      split; [reflexivity | split; [discriminate | exact Hts]].
  - exists "true". split; [reflexivity |]. split; [reflexivity |].
    split; [discriminate |].
    intros tail ts [B1 B2] Hts. cbn [toks app lexes].
    rewrite (lex1_word "true" tail eq_refl B1). cbn [fst snd Type_].
    split; [reflexivity | split; [discriminate | exact Hts]].
  - exists "false". split; [reflexivity |]. split; [reflexivity |].
    split; [discriminate |].
    intros tail ts [B1 B2] Hts. cbn [toks app lexes].
    rewrite (lex1_word "false" tail eq_refl B1). cbn [fst snd Type_].
    split; [reflexivity | split; [discriminate | exact Hts]].
  - destruct IHr as (tr & Er & Sr & Nr & Lr).
    exists ("(" ++ op ++ tr ++ ")").
    split; [cbn [Expression_String obind]; rewrite Er; reflexivity |].
    split; [reflexivity |]. split; [discriminate |].
    intros tail ts B Hts.
    assert (Hinner : lexes (tr ++ String ")" tail) (toks r ++ RP :: ts)).
    { apply Lr; [split; reflexivity |]. cbn [lexes].
      rewrite lex1_rparen. cbn [fst snd].
      split; [reflexivity | split; [discriminate | exact Hts]]. }
    cbn [toks]. rewrite <- !app_assoc. cbn [app lexes].
    change (("(" ++ op ++ tr ++ ")") ++ tail)
      with (String "(" ((op ++ tr ++ ")") ++ tail)).
    rewrite lex1_lparen. cbn [fst snd].
    split; [reflexivity | split; [discriminate |]].
    rewrite !append_assoc. change (")" ++ tail) with (String ")" tail).
    apply prefix_cases in Hop. destruct Hop as [-> | ->].
    + change (BANG ++ tr ++ String ")" tail)
        with (String "!" (tr ++ String ")" tail)).
      rewrite lex1_bang by (rewrite head0_app by exact Nr; exact Sr).
      cbn [fst snd].
      split; [reflexivity | split; [discriminate | exact Hinner]].
    + change (MINUS ++ tr ++ String ")" tail)
        with (String "-" (tr ++ String ")" tail)).
      rewrite lex1_minus. cbn [fst snd].
      split; [reflexivity | split; [discriminate | exact Hinner]].
  - destruct IHa as (ta & Ea & Sa & Na & La).
    destruct IHb as (tb & Eb & Sb & Nb & Lb).
    exists ("(" ++ ta ++ (" " ++ op ++ " ") ++ tb ++ ")").
    split; [cbn [Expression_String obind]; rewrite Ea, Eb; reflexivity |].
    split; [reflexivity |]. split; [discriminate |].
    intros tail ts B Hts.
    assert (Hb' : lexes (tb ++ String ")" tail) (toks b ++ RP :: ts)).
    { apply Lb; [split; reflexivity |]. cbn [lexes].
      rewrite lex1_rparen. cbn [fst snd].
      split; [reflexivity | split; [discriminate | exact Hts]]. }
    cbn [toks]. rewrite <- !app_assoc. cbn [app lexes].
    change (("(" ++ ta ++ (" " ++ op ++ " ") ++ tb ++ ")") ++ tail)
      with (String "(" ((ta ++ (" " ++ op ++ " ") ++ tb ++ ")") ++ tail)).
    rewrite lex1_lparen. cbn [fst snd].
    split; [reflexivity | split; [discriminate |]].
    rewrite !append_assoc. change (")" ++ tail) with (String ")" tail).
    apply La; [split; reflexivity |]. cbn [lexes].
    change (" " ++ op ++ " " ++ tb ++ String ")" tail)
      with (String " " (op ++ String " " (tb ++ String ")" tail))).
    rewrite (lex1_infix op _ Hop). cbn [fst snd Type_].
    split; [reflexivity |]. split.
    { apply infix_cases in Hop. cbn [In] in Hop.
      repeat (destruct Hop as [Hop | Hop]; [subst op; discriminate |]).
      contradiction. }
    apply lexes_space. exact Hb'.
Qed.

(** ** Running the parser on a token sequence *)

Lemma run_read {A B : Type} (g : Parser -> A) (f : A -> M B) p :
  bind (read g) f p = f (g p) p.
Proof. reflexivity. Qed.

Lemma run_current {B : Type} (f : Token -> M B) p :
  bind current f p = f (currentToken p) p.
Proof. reflexivity. Qed.

Lemma run_exec {B : Type} (g : Parser -> Parser) (f : unit -> M B) p :
  bind (exec g) f p = f tt (g p).
Proof. reflexivity. Qed.

Lemma run_call {A B : Type} (g : Parser -> A * Parser) (f : A -> M B) p :
  bind (call g) f p = f (fst (g p)) (snd (g p)).
Proof. unfold bind, call. destruct (g p); reflexivity. Qed.

Lemma run_ret {A B : Type} (a : A) (f : A -> M B) p : bind (ret a) f p = f a p.
Proof. reflexivity. Qed.

Lemma run_assoc {A B C : Type} (m : M A) (f : A -> M B) (g : B -> M C) p :
  bind (bind m f) g p = bind m (fun a => bind (f a) g) p.
Proof. unfold bind. destruct (m p); reflexivity. Qed.

Lemma run_ok {A B : Type} (m : M A) (f : A -> M B) p a p' :
  m p = Ok a p' -> bind m f p = f a p'.
Proof. unfold bind. intros ->. reflexivity. Qed.

(** A token in front of which the infix loop stops. *)
Definition stopper (tok : Token) : Prop :=
  typeIs tok SEMICOLON = true \/ lookup precedences (Type_ tok) = None.

Lemma loop_stops n prec e p :
  (LOWEST <= prec)%Z -> stopper (currentToken p) ->
  parseExpression_loop (S n) prec e p = Ok e p.
Proof.
  intros Hp Hs. cbn [parseExpression_loop]. rewrite run_current, run_read.
  unfold getCurrentPrecedence.
  destruct Hs as [Hs | Hs].
  - rewrite Hs. reflexivity.
  - rewrite Hs. destruct (Z.ltb_spec prec LOWEST) as [H | H]; [lia |].
    rewrite andb_false_r. reflexivity.
Qed.

(** What is left after the tokens of an operand lets the loop stop: nothing,
    or a token the loop stops at. *)
Definition stops (rest : list Token) : Prop :=
  match rest with
  | [] => True
  | t :: _ => stopper t
  end.

Lemma repr_stopper p rest : repr p rest -> stops rest -> stopper (currentToken p).
Proof.
  destruct rest as [| t rest]; cbn [repr stops].
  - intros H _. right. rewrite H. reflexivity.
  - intros (H & _) Hs. rewrite H. exact Hs.
Qed.

Lemma repr_current p t rest : repr p (t :: rest) -> currentToken p = t.
Proof. intros (H & _). exact H. Qed.

Lemma repr_next p t rest : repr p (t :: rest) -> repr (consumeNextToken p) rest.
Proof. intros (_ & _ & H). exact H. Qed.

(** The fuel the parse of a tree needs. *)
Fixpoint need (e : Expression) : nat :=
  match e with
  | PrefixExpression _ _ (Some r) => need r + 4
  | InfixExpression _ (Some a) _ (Some b) => Nat.max (need a + 2) (need b + 5)
  | _ => 1
  end.

Lemma need_pos e : 1 <= need e.
Proof.
  destruct e as [| | | ? ? [r |] | ? [a |] ? [b |] | | |]; cbn [need]; lia.
Qed.

#[local] Arguments consumeNextToken : simpl never.
#[local] Arguments consumeToken : simpl never.

Ltac lookup_now :=
  repeat match goal with
         | |- context [lookup ?m ?t] =>
             let v := eval vm_compute in (lookup m t) in
             progress change (lookup m t) with v
         end;
  cbv iota beta.

Lemma infix_facts op :
  isInfixOp op = true ->
  exists pr,
    lookup precedences op = Some pr /\ (LOWEST < pr)%Z
    /\ lookup infixParsers op = Some parseInfixExpression_
    /\ String.eqb op SEMICOLON = false.
Proof.
  intros H. apply infix_cases in H. cbn [In] in H.
  repeat (destruct H as [H | H];
          [subst op; eexists; repeat split; reflexivity |]).
  contradiction.
Qed.

(** On an infix operator that binds tighter than [prec] the loop goes
    round once. *)
Lemma loop_infix n prec e p op pr :
  currentToken p = mkToken op op ->
  lookup precedences op = Some pr -> (prec < pr)%Z ->
  lookup infixParsers op = Some parseInfixExpression_ ->
  String.eqb op SEMICOLON = false ->
  parseExpression_loop (S n) prec e p
  = bind (parseInfixExpression n e) (parseExpression_loop n prec) p.
Proof.
  intros Hc Hpr Hlt Hin Hsemi. cbn [parseExpression_loop].
  rewrite run_current, run_read. unfold getCurrentPrecedence, typeIs.
  rewrite Hc. cbn [Type_]. rewrite Hpr, Hin, Hsemi.
  destruct (Z.ltb_spec prec pr) as [_ | H]; [reflexivity | lia].
Qed.

Lemma infix_runs n e p op pr :
  currentToken p = mkToken op op ->
  lookup precedences op = Some pr ->
  parseInfixExpression (S n) e p
  = bind (parseExpression n pr)
      (fun right => ret (Some (InfixExpression (mkToken op op) e op right)))
      (consumeNextToken p).
Proof.
  intros Hc Hpr. cbn [parseInfixExpression].
  rewrite run_current, run_read, run_exec. unfold getCurrentPrecedence.
  rewrite Hc. cbn [Type_ Literal]. rewrite Hpr. reflexivity.
Qed.

Lemma parse_plain e :
  plain e ->
  forall n prec p rest,
    need e <= n -> repr p (toks e ++ rest) ->
    parseExpression (S n) prec p
    = parseExpression_loop n prec (Some e) (advance (List.length (toks e)) p).
Proof.
  induction 1 as [v Hv | v z Hv Hz | | | op r Hop Hr IHr | op a b Hop Ha IHa Hb IHb];
    intros n prec p rest Hn Hrep.
  - cbn [toks app Ident_Token] in Hrep.
    pose proof (repr_current _ _ _ Hrep) as Hc.
    cbn [parseExpression]. rewrite run_current, Hc. 
    lookup_now. rewrite run_assoc, run_call, run_ret.
    unfold parseIdentifier. rewrite Hc. reflexivity.
  - cbn [toks app] in Hrep.
    pose proof (repr_current _ _ _ Hrep) as Hc.
    cbn [parseExpression]. rewrite run_current, Hc.
    lookup_now. rewrite run_call.
    unfold parseIntegerLiteral. rewrite Hc. cbn [Literal]. rewrite Hz.
    reflexivity.
  - cbn [toks app] in Hrep.
    pose proof (repr_current _ _ _ Hrep) as Hc.
    cbn [parseExpression]. rewrite run_current, Hc.
    lookup_now. rewrite run_call.
    unfold parseBooleanLiteral. rewrite Hc. reflexivity.
  - cbn [toks app] in Hrep.
    pose proof (repr_current _ _ _ Hrep) as Hc.
    cbn [parseExpression]. rewrite run_current, Hc.
    lookup_now. rewrite run_call.
    unfold parseBooleanLiteral. rewrite Hc. reflexivity.
  - cbn [toks need] in Hrep, Hn. rewrite <- !app_assoc in Hrep.
    cbn [app] in Hrep.
    pose proof (repr_current _ _ _ Hrep) as Hc.
    pose proof (repr_next _ _ _ Hrep) as Hrep1.
    pose proof (repr_current _ _ _ Hrep1) as Hc1.
    pose proof (repr_next _ _ _ Hrep1) as Hrep2.
    pose proof (need_pos r) as Hpos.
    destruct n as [| [| [| [| n]]]]; try lia.
    set (p2 := consumeNextToken (consumeNextToken p)) in *.
    set (p3 := advance (List.length (toks r)) p2).
    assert (Hrep3 : repr p3 (RP :: rest)) by (apply repr_advance; exact Hrep2).
    pose proof (repr_current _ _ _ Hrep3) as Hc3.
    assert (Hstop : stopper (currentToken p3)).
    { rewrite Hc3. right. reflexivity. }
    assert (Hfinal : advance (List.length (LP :: mkToken op op :: toks r ++ [RP])) p
                     = consumeNextToken p3).
    { cbn [List.length advance]. fold p2. rewrite length_app, advance_add.
      reflexivity. }
    assert (Hop' : parsePrefixOperator (S (S n)) (consumeNextToken p)
                   = Ok (Some (PrefixExpression (mkToken op op) op (Some r))) p3).
    { cbn [parsePrefixOperator]. rewrite run_current, Hc1, run_exec. fold p2.
      rewrite (run_ok _ _ _ (Some r) p3).
      - reflexivity.
      - rewrite (IHr n PREFIX p2 (RP :: rest)) by (try lia; exact Hrep2).
        fold p3. destruct n as [| n]; [lia |].
        apply loop_stops; [unfold LOWEST, PREFIX; lia | exact Hstop]. }
    assert (Hin : parseExpression (S (S (S n))) LOWEST (consumeNextToken p)
                  = Ok (Some (PrefixExpression (mkToken op op) op (Some r))) p3).
    { cbn [parseExpression]. rewrite run_current, Hc1. cbn [Type_].
      apply prefix_cases in Hop.
      destruct Hop as [-> | ->]; lookup_now;
        rewrite (run_ok _ _ _ _ _ Hop'); apply loop_stops;
        solve [unfold LOWEST; lia | exact Hstop]. }
    cbn [parseExpression]. rewrite run_current, Hc. lookup_now.
    rewrite (run_ok _ _ _ (Some (PrefixExpression (mkToken op op) op (Some r)))
               (consumeNextToken p3)).
    + cbn [toks app]. rewrite Hfinal. reflexivity.
    + cbn [parseGroupedExpression]. rewrite run_exec.
      rewrite consumeToken_match by (unfold typeIs; rewrite Hc; reflexivity).
      rewrite (run_ok _ _ _ _ _ Hin). rewrite run_exec.
      rewrite consumeToken_match by (unfold typeIs; rewrite Hc3; reflexivity).
      reflexivity.
  - cbn [toks need] in Hrep, Hn. rewrite <- !app_assoc in Hrep.
    cbn [app] in Hrep.
    pose proof (need_pos a) as Hpa. pose proof (need_pos b) as Hpb.
    destruct (infix_facts op Hop) as (pr & Hpr & Hlt & Hin & Hsemi).
    pose proof (repr_current _ _ _ Hrep) as Hc.
    pose proof (repr_next _ _ _ Hrep) as Hrep1.
    set (p1 := consumeNextToken p) in *.
    set (pa := advance (List.length (toks a)) p1).
    assert (Hrepa : repr pa (mkToken op op :: toks b ++ RP :: rest))
      by (apply repr_advance; exact Hrep1).
    pose proof (repr_current _ _ _ Hrepa) as Hca.
    pose proof (repr_next _ _ _ Hrepa) as Hrepb0.
    set (pb0 := consumeNextToken pa) in *.
    set (pb := advance (List.length (toks b)) pb0).
    assert (Hrepb : repr pb (RP :: rest)) by (apply repr_advance; exact Hrepb0).
    pose proof (repr_current _ _ _ Hrepb) as Hcb.
    assert (Hstop : stopper (currentToken pb)).
    { rewrite Hcb. right. reflexivity. }
    assert (Hfinal :
              advance (List.length (LP :: toks a ++ mkToken op op :: toks b ++ [RP])) p
              = consumeNextToken pb).
    { cbn [List.length advance]. fold p1. rewrite length_app, advance_add.
      fold pa. cbn [List.length advance]. fold pb0.
      rewrite length_app, advance_add. reflexivity. }
    destruct n as [| [| [| [| [| n]]]]]; try lia.
    set (node := InfixExpression (mkToken op op) (Some a) op (Some b)).
    assert (Hinf : parseInfixExpression (S (S n)) (Some a) pa = Ok (Some node) pb).
    { rewrite (infix_runs _ _ _ op pr Hca Hpr). fold pb0.
      rewrite (run_ok _ _ _ (Some b) pb); [reflexivity |].
      rewrite (IHb n pr pb0 (RP :: rest)) by (try lia; exact Hrepb0).
      fold pb. destruct n as [| n]; [lia |].
      apply loop_stops; [lia | exact Hstop]. }
    assert (Hin' : parseExpression (S (S (S (S n)))) LOWEST p1 = Ok (Some node) pb).
    { rewrite (IHa (S (S (S n))) LOWEST p1 (mkToken op op :: toks b ++ RP :: rest))
        by (try lia; exact Hrep1).
      fold pa.
      rewrite (loop_infix _ _ _ _ op pr Hca Hpr Hlt Hin Hsemi).
      rewrite (run_ok _ _ _ _ _ Hinf).
      apply loop_stops; [unfold LOWEST; lia | exact Hstop]. }
    cbn [parseExpression]. rewrite run_current, Hc. lookup_now.
    rewrite (run_ok _ _ _ (Some node) (consumeNextToken pb)).
    + unfold node. cbn [toks app]. rewrite Hfinal. reflexivity.
    + cbn [parseGroupedExpression]. rewrite run_exec.
      rewrite consumeToken_match by (unfold typeIs; rewrite Hc; reflexivity).
      fold p1. rewrite (run_ok _ _ _ _ _ Hin'). rewrite run_exec.
      rewrite consumeToken_match by (unfold typeIs; rewrite Hcb; reflexivity).
      reflexivity.
Qed.

(** A whole operand: the prefix phase, then the loop stops. *)
Lemma parse_operand e n prec p rest :
  plain e -> need e <= n -> (LOWEST <= prec)%Z ->
  repr p (toks e ++ rest) -> stops rest ->
  parseExpression (S n) prec p
  = Ok (Some e) (advance (List.length (toks e)) p).
Proof.
  intros He Hn Hp Hrep Hs.
  rewrite (parse_plain e He n prec p rest Hn Hrep).
  pose proof (need_pos e). destruct n as [| n]; [lia |].
  apply loop_stops; [exact Hp |].
  apply (repr_stopper _ rest); [apply repr_advance; exact Hrep | exact Hs].
Qed.

(** The first token of a plain tree starts no statement of its own. *)
Lemma plain_first e :
  plain e ->
  exists t ts, toks e = t :: ts /\ lookup parselets (Type_ t) = None.
Proof.
  destruct 1; cbn [toks app Ident_Token]; eexists; eexists;
    (split; [reflexivity | reflexivity]).
Qed.

(** ** Statements *)

Definition SEMI : Token := mkToken SEMICOLON ";".

Inductive plain_stmt : Statement -> Prop :=
| plain_let x e :
    isIdentifier x = true -> plain e ->
    plain_stmt (LetStatement (mkToken LET "let")
                  (Some (mkIdentifier (mkToken IDENT x) x)) (Some e))
| plain_return e :
    plain e -> plain_stmt (ReturnStatement (mkToken RETURN "return") (Some e)).

(** The programs considered: [let] and [return] statements over plain
    trees, and possibly one expression statement over a plain tree at the
    end. *)
Inductive plain_program : list (option Statement) -> Prop :=
| plain_nil : plain_program []
| plain_last tok e :
    plain e -> plain_program [Some (ExpressionStatement tok (Some e))]
| plain_cons s ss :
    plain_stmt s -> plain_program ss -> plain_program (Some s :: ss).

Definition stoks (s : Statement) : list Token :=
  match s with
  | LetStatement tok (Some name) (Some e) =>
      [tok; Ident_Token name; mkToken ASSIGN "="] ++ toks e ++ [SEMI]
  | ReturnStatement tok (Some e) => [tok] ++ toks e ++ [SEMI]
  | ExpressionStatement _ (Some e) => toks e
  | _ => []
  end.

Fixpoint ptoks (ss : list (option Statement)) : list Token :=
  match ss with
  | [] => []
  | Some s :: ss' => stoks s ++ ptoks ss'
  | None :: ss' => ptoks ss'
  end.

Definition need_stmt (s : Statement) : nat :=
  match s with
  | LetStatement _ _ (Some e) => need e + 3
  | ReturnStatement _ (Some e) => need e + 3
  | ExpressionStatement _ (Some e) => need e + 3
  | _ => 1
  end.

Lemma parseStatement_more n m p a p' :
  n <= m -> parseStatement n p = Ok a p' -> parseStatement m p = Ok a p'.
Proof.
  intros Hle H. destruct (mono_all n m Hle) as [Hm _ _ _ _ _ _ _ _ _ _ _ _].
  destruct (Hm p) as [E | E]; congruence.
Qed.

Lemma parse_let x e p rest :
  isIdentifier x = true -> plain e ->
  let s := LetStatement (mkToken LET "let")
             (Some (mkIdentifier (mkToken IDENT x) x)) (Some e) in
  repr p (stoks s ++ rest) ->
  parseStatement (need_stmt s) p
  = Ok (Some s) (advance (List.length (stoks s)) p).
Proof.
  intros Hx He s Hrep. unfold s in *. clear s.
  cbn [stoks need_stmt Ident_Token] in *. rewrite <- !app_assoc in Hrep.
  cbn [app] in Hrep.
  pose proof (repr_current _ _ _ Hrep) as Hc.
  pose proof (repr_next _ _ _ Hrep) as Hrep1.
  pose proof (repr_current _ _ _ Hrep1) as Hc1.
  pose proof (repr_next _ _ _ Hrep1) as Hrep2.
  pose proof (repr_current _ _ _ Hrep2) as Hc2.
  pose proof (repr_next _ _ _ Hrep2) as Hrep3.
  set (p3 := consumeNextToken (consumeNextToken (consumeNextToken p))) in *.
  set (pe := advance (List.length (toks e)) p3).
  assert (Hrepe : repr pe (SEMI :: rest)) by (apply repr_advance; exact Hrep3).
  pose proof (repr_current _ _ _ Hrepe) as Hce.
  assert (Hfinal :
            advance (List.length
                       (mkToken LET "let" :: mkToken IDENT x
                        :: mkToken ASSIGN "=" :: toks e ++ [SEMI])) p
            = consumeNextToken pe).
  { cbn [List.length advance]. fold p3. rewrite length_app, advance_add.
    reflexivity. }
  replace (need e + 3) with (S (S (S (need e)))) by lia.
  cbn [parseStatement]. rewrite run_current, Hc. lookup_now.
  cbn [letStatementParselet]. rewrite run_current, Hc.
  change (negb (typeIs (mkToken LET "let") LET)) with false. cbv iota.
  rewrite run_exec, consumeToken_match by (unfold typeIs; rewrite Hc; reflexivity).
  rewrite run_current, Hc1.
  rewrite run_exec, consumeToken_match by (unfold typeIs; rewrite Hc1; reflexivity).
  rewrite run_exec, consumeToken_match by (unfold typeIs; rewrite Hc2; reflexivity).
  fold p3.
  rewrite (run_ok _ _ _ (Some e) pe).
  - rewrite run_exec, consumeToken_match by (unfold typeIs; rewrite Hce; reflexivity).
    cbn [app]. rewrite Hfinal. reflexivity.
  - apply (parse_operand e _ _ _ (SEMI :: rest)); auto.
    + unfold LOWEST; lia.
    + left. reflexivity.
Qed.

Lemma parse_return e p rest :
  plain e ->
  let s := ReturnStatement (mkToken RETURN "return") (Some e) in
  repr p (stoks s ++ rest) ->
  parseStatement (need_stmt s) p
  = Ok (Some s) (advance (List.length (stoks s)) p).
Proof.
  intros He s Hrep. unfold s in *. clear s.
  cbn [stoks need_stmt] in *. rewrite <- !app_assoc in Hrep.
  cbn [app] in Hrep.
  pose proof (repr_current _ _ _ Hrep) as Hc.
  pose proof (repr_next _ _ _ Hrep) as Hrep1.
  set (p1 := consumeNextToken p) in *.
  set (pe := advance (List.length (toks e)) p1).
  assert (Hrepe : repr pe (SEMI :: rest)) by (apply repr_advance; exact Hrep1).
  pose proof (repr_current _ _ _ Hrepe) as Hce.
  assert (Hfinal :
            advance (List.length (mkToken RETURN "return" :: toks e ++ [SEMI])) p
            = consumeNextToken pe).
  { cbn [List.length advance]. fold p1. rewrite length_app, advance_add.
    reflexivity. }
  replace (need e + 3) with (S (S (S (need e)))) by lia.
  cbn [parseStatement]. rewrite run_current, Hc. lookup_now.
  cbn [returnStatementParselet]. rewrite run_current, Hc.
  change (negb (typeIs (mkToken RETURN "return") RETURN)) with false. cbv iota.
  rewrite run_exec, consumeToken_match by (unfold typeIs; rewrite Hc; reflexivity).
  fold p1.
  rewrite (run_ok _ _ _ (Some e) pe).
  - rewrite run_exec, consumeToken_match by (unfold typeIs; rewrite Hce; reflexivity).
    cbn [app]. rewrite Hfinal. reflexivity.
  - apply (parse_operand e _ _ _ (SEMI :: rest)); auto.
    + unfold LOWEST; lia.
    + left. reflexivity.
Qed.

(** An expression statement at the end of the text.  The token it keeps is
    the first token of the expression. *)
Lemma parse_expression_statement tok e p :
  plain e ->
  repr p (toks e) ->
  parseStatement (need_stmt (ExpressionStatement tok (Some e))) p
  = Ok (Some (ExpressionStatement (currentToken p) (Some e)))
       (advance (List.length (toks e)) p).
Proof.
  intros He Hrep. cbn [need_stmt].
  destruct (plain_first e He) as (t & ts & Et & Hl).
  assert (Hc : currentToken p = t).
  { rewrite Et in Hrep. exact (repr_current _ _ _ Hrep). }
  set (pe := advance (List.length (toks e)) p).
  assert (Hrepe : repr pe []).
  { apply repr_advance. rewrite app_nil_r. exact Hrep. }
  cbn [repr] in Hrepe.
  replace (need e + 3) with (S (S (S (need e)))) by lia.
  cbn [parseStatement]. rewrite run_current, Hc, Hl.
  cbn [expressionStatementParselet]. rewrite run_current.
  rewrite (run_ok _ _ _ (Some e) pe).
  - rewrite run_current. unfold typeIs. rewrite Hrepe.
    change (String.eqb EOF SEMICOLON) with false. cbv iota.
    rewrite run_ret, Hc. reflexivity.
  - apply (parse_operand e _ _ _ []); auto.
    + unfold LOWEST; lia.
    + rewrite app_nil_r. exact Hrep.
    + exact I.
Qed.

(** ** Programs *)

(** The statement as the parser returns it: an expression statement keeps
    the first token of its expression. *)
Definition retoken (s : Statement) : Statement :=
  match s with
  | ExpressionStatement _ (Some e) =>
      ExpressionStatement (List.hd zeroToken (toks e)) (Some e)
  | _ => s
  end.

Definition reparsed (ss : list (option Statement)) : list (option Statement) :=
  List.map (option_map retoken) ss.

Fixpoint fuel_for (ss : list (option Statement)) : nat :=
  match ss with
  | [] => 1
  | Some s :: ss' => S (Nat.max (need_stmt s) (fuel_for ss'))
  | None :: ss' => S (fuel_for ss')
  end.

Lemma repr_not_eof p t rest :
  repr p (t :: rest) -> typeIs (currentToken p) EOF = false.
Proof.
  intros (Hc & Hne & _). apply typeIs_false. rewrite Hc. exact Hne.
Qed.

Lemma plain_stmt_first s :
  plain_stmt s -> exists t ts, stoks s = t :: ts.
Proof. destruct 1; cbn [stoks app]; eexists; eexists; reflexivity. Qed.

Lemma program_runs ss :
  plain_program ss ->
  forall F acc p,
    fuel_for ss <= F -> repr p (ptoks ss) ->
    programStatements F acc p
    = Ok (acc ++ reparsed ss)%list (advance (List.length (ptoks ss)) p).
Proof.
  induction 1 as [| tok e He | s ss Hs Hss IH]; intros F acc p HF Hrep.
  - cbn [fuel_for ptoks repr reparsed List.map List.length advance] in *.
    destruct F as [| F]; [lia |].
    cbn [programStatements]. rewrite run_current. unfold typeIs. rewrite Hrep.
    rewrite app_nil_r. reflexivity.
  - cbn [fuel_for ptoks stoks] in *. rewrite app_nil_r in *.
    destruct F as [| F]; [lia |].
    destruct (plain_first e He) as (t & ts & Et & _).
    assert (Hne : typeIs (currentToken p) EOF = false).
    { rewrite Et in Hrep. exact (repr_not_eof _ _ _ Hrep). }
    assert (Hc : currentToken p = List.hd zeroToken (toks e)).
    { rewrite Et in *. exact (repr_current _ _ _ Hrep). }
    cbn [programStatements]. rewrite run_current, Hne. cbn [negb].
    rewrite (run_ok _ _ _ _ _
               (parseStatement_more
                  (need_stmt (ExpressionStatement tok (Some e))) F _ _ _
                  ltac:(lia)
                  (parse_expression_statement tok e p He Hrep))).
    pose proof (repr_advance (toks e) p []) as Hend.
    rewrite app_nil_r in Hend. specialize (Hend Hrep). cbn [repr] in Hend.
    cbn [need_stmt] in HF. destruct F as [| F]; [lia |].
    cbn [programStatements]. rewrite run_current. unfold typeIs. rewrite Hend.
    cbn [reparsed List.map option_map retoken]. rewrite Hc. reflexivity.
  - cbn [fuel_for ptoks] in *.
    destruct F as [| F]; [lia |].
    destruct (plain_stmt_first s Hs) as (t & ts & Et).
    assert (Hne : typeIs (currentToken p) EOF = false).
    { rewrite Et in Hrep. exact (repr_not_eof _ _ _ Hrep). }
    assert (Hrun : parseStatement F p
                   = Ok (Some s) (advance (List.length (stoks s)) p)).
    { apply (parseStatement_more (need_stmt s)); [lia |].
      destruct Hs as [x e Hx He | e He].
      - exact (parse_let x e p (ptoks ss) Hx He Hrep).
      - exact (parse_return e p (ptoks ss) He Hrep). }
    cbn [programStatements]. rewrite run_current, Hne. cbn [negb].
    rewrite (run_ok _ _ _ _ _ Hrun).
    rewrite (IH F _ _ ltac:(lia) (repr_advance _ _ _ Hrep)).
    rewrite length_app, advance_add, <- app_assoc.
    cbn [reparsed List.map option_map app].
    destruct Hs; reflexivity.
Qed.

(** The text of a statement and how it lexes, in front of any text. *)
Lemma plain_stmt_text s :
  plain_stmt s ->
  exists text,
    Statement_String s = Some text
    /\ forall tail ts, lexes tail ts -> lexes (text ++ tail) (stoks s ++ ts).
Proof.
  intros [x e Hx He | e He].
  - destruct (plain_text e He) as (te & Ee & _ & _ & Le).
    exists (("let" ++ " ") ++ x ++ " = " ++ te ++ ";").
    split; [cbn [Statement_String option_map obind Literal Identifier_String
                   Ident_Value]; rewrite Ee; reflexivity |].
    intros tail ts Hts.
    unfold isIdentifier in Hx. apply andb_prop in Hx. destruct Hx as [Hl Hk].
    apply String.eqb_eq in Hk.
    cbn [stoks Ident_Token]. rewrite <- !app_assoc. cbn [app lexes].
    rewrite !append_assoc.
    rewrite (lex1_word "let" _ eq_refl) by reflexivity. cbn [fst snd].
    split; [reflexivity | split; [discriminate |]].
    change (" " ++ x ++ " = " ++ te ++ ";" ++ tail)
      with (String " " (x ++ String " " (String "=" (String " "
              (te ++ String ";" tail))))).
    rewrite lex1_space.
    rewrite (lex1_word x _ Hl) by reflexivity. rewrite Hk. cbn [fst snd Type_].
    split; [reflexivity | split; [discriminate |]].
    change (lex1 (String " " (String "=" (String " " (te ++ String ";" tail)))))
      with (mkToken ASSIGN "=", String " " (te ++ String ";" tail)).
    cbn [fst snd Type_].
    split; [reflexivity | split; [discriminate |]].
    apply lexes_space. apply Le; [split; reflexivity |].
    cbn [lexes]. rewrite lex1_semicolon. cbn [fst snd Type_].
    split; [reflexivity | split; [discriminate | exact Hts]].
  - destruct (plain_text e He) as (te & Ee & _ & _ & Le).
    exists (("return" ++ " ") ++ te ++ ";").
    split; [cbn [Statement_String obind Literal]; rewrite Ee; reflexivity |].
    intros tail ts Hts.
    cbn [stoks]. rewrite <- !app_assoc. cbn [app lexes].
    rewrite !append_assoc.
    rewrite (lex1_word "return" _ eq_refl) by reflexivity. cbn [fst snd].
    split; [reflexivity | split; [discriminate |]].
    change (" " ++ te ++ ";" ++ tail) with (String " " (te ++ String ";" tail)).
    apply lexes_space. apply Le; [split; reflexivity |].
    cbn [lexes]. rewrite lex1_semicolon. cbn [fst snd Type_].
    split; [reflexivity | split; [discriminate | exact Hts]].
Qed.

Lemma append_empty (a : string) : a ++ "" = a.
Proof. induction a as [| c a IH]; cbn [append]; [| rewrite IH]; reflexivity. Qed.

(** The text of a program and its tokens. *)
Lemma plain_program_text ss :
  plain_program ss ->
  exists text,
    WriteStrings Statement_String ss = Some text /\ lexes text (ptoks ss).
Proof.
  induction 1 as [| tok e He | s ss Hs Hss IH].
  - exists "". split; reflexivity.
  - destruct (plain_text e He) as (te & Ee & _ & _ & Le).
    exists te. split.
    + cbn [WriteStrings obind Statement_String]. rewrite Ee. cbn [obind].
      rewrite append_empty. reflexivity.
    + cbn [ptoks stoks]. rewrite <- (append_empty te).
      apply Le; [split; reflexivity | reflexivity].
  - destruct IH as (tr & Er & Lr).
    destruct (plain_stmt_text s Hs) as (t & Et & Lt).
    exists (t ++ tr). split.
    + cbn [WriteStrings obind]. rewrite Et, Er. reflexivity.
    + cbn [ptoks]. apply Lt. exact Lr.
Qed.

Lemma reparsed_text ss :
  WriteStrings Statement_String (reparsed ss)
  = WriteStrings Statement_String ss.
Proof.
  induction ss as [| [s |] ss IH]; cbn [reparsed List.map WriteStrings obind option_map];
    [reflexivity | | ].
  - fold (reparsed ss). rewrite IH.
    destruct s as [| | tok [e |] |]; reflexivity.
  - reflexivity.
Qed.

Lemma New_errors lx : errors (parser.New lx) = [].
Proof. unfold parser.New. rewrite !consumeNextToken_errors. reflexivity. Qed.

(** The round trip: the text of a plain program parses, without a
    diagnostic, to the same statements (an expression statement keeps the
    first token of its expression), so the program parsed from the text has
    the same text. *)
Lemma plain_program_round_trip ss :
  plain_program ss ->
  exists text,
    Program_String (mkProgram ss) = Some text
    /\ forall k,
         exists p',
           parse (fuel_for ss + k) text = Ok (mkProgram (reparsed ss)) p'
           /\ errors p' = []
           /\ Program_String (mkProgram (reparsed ss)) = Some text.
Proof.
  intros Hss. destruct (plain_program_text ss Hss) as (text & Et & Lt).
  exists text. split; [exact Et |]. intros k.
  pose proof (stands_on_repr _ _ _ (stands_on_New text) Lt) as Hrep.
  eexists. split; [| split].
  - unfold parse, ParseProgram.
    rewrite (run_ok _ _ _ _ _
               (program_runs ss Hss (fuel_for ss + k) [] _ ltac:(lia) Hrep)).
    reflexivity.
  - rewrite advance_errors. apply New_errors.
  - unfold Program_String. cbn [Statements]. rewrite reparsed_text. exact Et.
Qed.

(** ** The trees the parser returns are plain

    The tokens a parser holds come from [NextToken]; their kinds determine
    their texts.  So a tree the parser returns is plain as soon as it has no
    absent child and no [if], function or call node. *)





















(** [wpp m p Q]: if the run of [m] from [p] returns, [Q] holds of the value
    and the state. *)
Definition wpp {A : Type} (m : M A) (p : Parser) (Q : A -> Parser -> Prop) : Prop :=
  match m p with
  | Ok a p' => Q a p'
  | _ => True
  end.

Lemma wpp_bind {A B : Type} (m : M A) (f : A -> M B) p
    (R : A -> Parser -> Prop) (Q : B -> Parser -> Prop) :
  wpp m p R -> (forall a p', R a p' -> wpp (f a) p' Q) -> wpp (bind m f) p Q.
Proof.
  unfold wpp, bind. intros Hm Hf.
  destruct (m p) as [a p' | r |]; [apply Hf, Hm | exact I ..].
Qed.

Lemma wpp_ret {A : Type} (a : A) p (Q : A -> Parser -> Prop) :
  Q a p -> wpp (ret a) p Q.
Proof. intros H; exact H. Qed.

Lemma wpp_read {A B : Type} (g : Parser -> A) (f : A -> M B) p Q :
  wpp (f (g p)) p Q -> wpp (bind (read g) f) p Q.
Proof. intros H; exact H. Qed.



Lemma wpp_assoc {A B C : Type} (m : M A) (f : A -> M B) (g : B -> M C) p Q :
  wpp (bind m (fun a => bind (f a) g)) p Q -> wpp (bind (bind m f) g) p Q.
Proof. unfold wpp, bind. destruct (m p); auto. Qed.



Lemma wpp_timeout {A : Type} p (Q : A -> Parser -> Prop) : wpp timeout p Q.
Proof. exact I. Qed.




















(** Statements up to the token an expression statement keeps. *)
Definition forget (s : option Statement) : option Statement :=
  match s with
  | Some (ExpressionStatement _ e) => Some (ExpressionStatement zeroToken e)
  | _ => s
  end.

Lemma forget_reparsed ss : List.map forget (reparsed ss) = List.map forget ss.
Proof.
  induction ss as [| [s |] ss IH]; cbn [reparsed List.map option_map forget];
    [reflexivity | | ]; fold (reparsed ss); rewrite IH; [| reflexivity].
  destruct s as [| | tok [e |] |]; reflexivity.
Qed.



(** The same on a program given as a tree. *)
Definition sample_program : list (option Statement) :=
  [ Some (LetStatement (mkToken LET "let")
            (Some (mkIdentifier (mkToken IDENT "x") "x"))
            (Some (InfixExpression (mkToken PLUS "+")
                     (Some (IntegerLiteral (mkToken INT "1") 1)) "+"
                     (Some (InfixExpression (mkToken ASTERISK "*")
                              (Some (IntegerLiteral (mkToken INT "2") 2)) "*"
                              (Some (IntegerLiteral (mkToken INT "3") 3)))))));
    Some (ExpressionStatement (mkToken BANG "!")
            (Some (PrefixExpression (mkToken BANG "!") "!"
                     (Some (ExprIdentifier
                              (mkIdentifier (mkToken IDENT "x") "x")))))) ].

Lemma sample_program_round_trip :
  exists text,
    Program_String (mkProgram sample_program) = Some text
    /\ forall k,
         exists p',
           parse (fuel_for sample_program + k) text
           = Ok (mkProgram (reparsed sample_program)) p'
           /\ errors p' = []
           /\ Program_String (mkProgram (reparsed sample_program)) = Some text.
Proof.
  apply (plain_program_round_trip sample_program).
  unfold sample_program.
  apply plain_cons; [apply plain_let | apply plain_last].
  - reflexivity.
  - apply (plain_infix PLUS); [reflexivity | |].
    + apply plain_integer; reflexivity.
    + apply (plain_infix ASTERISK);
        [reflexivity | apply plain_integer; reflexivity ..].
  - apply (plain_prefix BANG); [reflexivity |].
    apply plain_identifier. reflexivity.
Qed.

(** The sample program and its text. *)
Lemma sample_program_text :
  Program_String (mkProgram sample_program) = Some "let x = (1 + (2 * 3));(!x)"
  /\ rendering (parse 30 "let x = (1 + (2 * 3));(!x)")
     = Some "let x = (1 + (2 * 3));(!x)".
Proof. split; vm_compute; reflexivity. Qed.

End RoundTrip.

(** * Further properties of the token tables, the lexer and the parser *)

Module Coverage.
Import token lexer ast parser LexerProps Lexing ParserProps RoundTrip.

(** ** The token tables *)

Lemma two_char_cases chars :
  GetTwoCharToken chars <> ILLEGAL -> chars = "==" \/ chars = "!=".
Proof.
  unfold GetTwoCharToken, twoCharTokens. cbn [gostd.map_get].
  destruct (String.eqb chars "==") eqn:E1;
    [left; apply String.eqb_eq; exact E1 |].
  destruct (String.eqb chars "!=") eqn:E2;
    [right; apply String.eqb_eq; exact E2 |].
  intros H. exfalso. apply H. reflexivity.
Qed.

Lemma single_char_cases c :
  GetSingleCharToken c <> ILLEGAL ->
  GetSingleCharToken c = String c ""
  /\ gostd.string_of_byte c = String c ""
  /\ c <> zero.
Proof.
  destruct c as [[] [] [] [] [] [] [] []]; intros H;
    try (exfalso; apply H; reflexivity);
    (split; [reflexivity | split; [reflexivity | discriminate]]).
Qed.

Lemma keyword_cases w :
  GetTokenType w <> IDENT -> In (w, GetTokenType w) keywords.
Proof.
  unfold GetTokenType, keywords. cbn [gostd.map_get].
  repeat match goal with
  | |- context [String.eqb w ?k] =>
      let E := fresh "E" in
      destruct (String.eqb w k) eqn:E;
      [apply String.eqb_eq in E; subst w; intros _; simpl; auto 10 |]
  end.
  intros H. exfalso. apply H. reflexivity.
Qed.

(** X1.  The three lookup tables of the token package are consistent: every
    entry of the keyword table is found under its spelling, a word whose
    kind is not [IDENT] is spelt exactly as an entry of the keyword table,
    and the kind found for a single character or for a pair of characters
    is that very text. *)
Theorem token_tables_agree :
  (forall k t, In (k, t) keywords -> GetTokenType k = t)
  /\ (forall w, GetTokenType w <> IDENT -> In (w, GetTokenType w) keywords)
  /\ (forall c, GetSingleCharToken c <> ILLEGAL ->
                GetSingleCharToken c = String c "")
  /\ (forall s, GetTwoCharToken s <> ILLEGAL -> GetTwoCharToken s = s).
Proof.
  split; [| split; [| split]].
  - intros k t H. unfold keywords in H. simpl in H.
    repeat (destruct H as [H | H]; [inversion H; reflexivity |]).
    destruct H.
  - apply keyword_cases.
  - intros c H. apply single_char_cases; exact H.
  - intros s H. destruct (two_char_cases s H); subst s; reflexivity.
Qed.

Lemma token_tables_agree_witness :
  GetTokenType "return" = RETURN
  /\ In ("fn", GetTokenType "fn") keywords
  /\ GetSingleCharToken "{" = "{"
  /\ GetTwoCharToken "!=" = "!=".
Proof.
  destruct token_tables_agree as [H1 [H2 [H3 H4]]].
  split; [| split; [| split]].
  - apply H1. simpl. auto 10.
  - apply H2. discriminate.
  - apply (H3 "{"%char). discriminate.
  - apply H4. discriminate.
Defined.

(** ** One token of the lexer, as a relation

    [lexeme s tok r]: on the text [s], which does not start with
    whitespace, the lexer produces [tok] and leaves [r].  One constructor
    for each of the five lexlets, in their order, and one for the fall
    through of [NextToken]. *)

Inductive lexeme : string -> Token -> string -> Prop :=
| lexeme_eof s :
    head0 s = zero -> lexeme s (mkToken EOF "") s
| lexeme_two c r :
    c = "="%char \/ c = "!"%char ->
    lexeme (String c (String "=" r)) (mkToken (String c "=") (String c "=")) r
| lexeme_single c r :
    GetSingleCharToken c <> ILLEGAL ->
    lexeme (String c r) (mkToken (String c "") (String c "")) r
| lexeme_int s :
    isDigit (head0 s) = true ->
    lexeme s (mkToken INT (takeWhile isDigit s)) (skipWhile isDigit s)
| lexeme_word s :
    isCharacter (head0 s) = true ->
    lexeme s
      (mkToken (GetTokenType (takeWhile isCharacter s))
         (takeWhile isCharacter s))
      (skipWhile isCharacter s)
| lexeme_illegal c r :
    c <> zero -> GetSingleCharToken c = ILLEGAL ->
    isDigit c = false -> isCharacter c = false ->
    lexeme (String c r) (mkToken ILLEGAL (gostd.string_of_byte c)) r.

Lemma string_of_byte_cases c :
  gostd.string_of_byte c = String c ""
  \/ exists a b, gostd.string_of_byte c = String a (String b "").
Proof.
  unfold gostd.string_of_byte.
  destruct (gostd.byte_val c <? 128)%nat; [left | right; eexists; eexists];
    reflexivity.
Qed.

Lemma two_bytes c1 c2 a b :
  gostd.string_of_byte c1 ++ gostd.string_of_byte c2 = String a (String b "") ->
  c1 = a /\ c2 = b.
Proof.
  destruct (string_of_byte_cases c1) as [E1 | [x [y E1]]];
    destruct (string_of_byte_cases c2) as [E2 | [u [v E2]]];
    rewrite E1, E2; simpl; intros H; inversion H; auto.
Qed.

Lemma lex1_lexeme s :
  lexeme (skipWhile whitespaceCond s) (fst (lex1 s)) (snd (lex1 s)).
Proof.
  unfold lex1. set (s' := skipWhile whitespaceCond s).
  destruct (Ascii.eqb (head0 s') zero) eqn:Hz; cbn [fst snd].
  { apply lexeme_eof. apply Ascii.eqb_eq. exact Hz. }
  destruct s' as [| c t]; [discriminate Hz |]. cbn [head0 tail] in *.
  destruct (String.eqb (GetTwoCharToken _) ILLEGAL) eqn:E2; cbn [negb fst snd].
  2:{ apply String.eqb_neq in E2.
      destruct (two_char_cases _ E2) as [E | E]; rewrite E;
        apply two_bytes in E; destruct E as [-> E];
        (destruct t as [| c2 r]; cbn [head0] in E; [discriminate E |]);
        subst c2; apply (lexeme_two _ r); auto. }
  destruct (String.eqb (GetSingleCharToken c) ILLEGAL) eqn:E1;
    cbn [negb fst snd].
  2:{ apply String.eqb_neq in E1.
      destruct (single_char_cases c E1) as [-> [-> _]].
      apply lexeme_single. exact E1. }
  apply String.eqb_eq in E1.
  destruct (isDigit c) eqn:Ed; cbn [fst snd].
  { apply lexeme_int. exact Ed. }
  destruct (isCharacter c) eqn:Ec; cbn [fst snd].
  { apply lexeme_word. exact Ec. }
  apply lexeme_illegal; auto. apply Ascii.eqb_neq. exact Hz.
Qed.

(** The lexers that [NextToken] reaches from [New]. *)
Lemma reached_wf src n : wf (after n (lexer.New src)).
Proof. apply after_wf, New_wf. Qed.

Lemma NextToken_lexeme l :
  wf l ->
  lexeme (skipWhile whitespaceCond (rest l))
    (fst (NextToken l)) (rest (snd (NextToken l))).
Proof.
  intros Hwf. destruct (NextToken_lex1 l Hwf) as [-> [-> _]].
  apply lex1_lexeme.
Qed.


(** ** The lexer *)

(** X2.  The cursor invariant of the lexer holds after [New] and after
    every number of calls of [NextToken]: the input is never changed, the
    position stays within [0, len(input)], the read-ahead position is the
    position plus one, capped at the length, and [ch] is the byte under the
    cursor, or 0 once the cursor is past the end. *)
Theorem lexer_cursor_invariant src n :
  let l := after n (lexer.New src) in
  input l = src
  /\ position l <= String.length src
  /\ nextPosition l = Nat.min (S (position l)) (String.length src)
  /\ ch l = (if (position l <? String.length src)%nat
             then byte_at src (position l) else zero).
Proof.
  intros l. pose proof (reached_wf src n) as [H1 H2 H3].
  pose proof (after_input n _ (New_wf src)) as Hin.
  rewrite New_input in Hin. fold l in H1, H2, H3, Hin.
  rewrite Hin in H1, H2, H3. auto.
Qed.

(** X3.  Every token other than the end-marker costs input: a call of
    [NextToken] that returns one moves the position strictly forward, and
    never beyond the end of the input. *)
Theorem NextToken_advances src n :
  let l := after n (lexer.New src) in
  Type_ (fst (NextToken l)) <> EOF ->
  position l < position (snd (NextToken l)) <= String.length src.
Proof.
  intros l Hne. pose proof (reached_wf src n) as Hwf. fold l in Hwf.
  destruct (NextToken_step l Hwf) as [[H1 _ _] H2 _ H4].
  split; [apply H4; exact Hne |].
  rewrite H2 in H1. unfold l in H1 at 2.
  rewrite (after_input n _ (New_wf src)), New_input in H1. exact H1.
Qed.

Lemma NextToken_advances_witness :
  position (after 1 (lexer.New "ab 1"))
  < position (snd (NextToken (after 1 (lexer.New "ab 1"))))
  <= String.length "ab 1".
Proof.
  apply (NextToken_advances "ab 1" 1). vm_compute. discriminate.
Defined.

Lemma same_stream k : forall l1 l2,
  wf l1 -> wf l2 -> lex1 (rest l1) = lex1 (rest l2) ->
  fst (NextToken (after k l1)) = fst (NextToken (after k l2)).
Proof.
  induction k as [| k IH]; intros l1 l2 W1 W2 E;
    destruct (NextToken_lex1 l1 W1) as [A1 [B1 C1]];
    destruct (NextToken_lex1 l2 W2) as [A2 [B2 C2]].
  - simpl. rewrite A1, A2, E. reflexivity.
  - simpl. apply IH; [exact C1 | exact C2 |].
    rewrite B1, B2, E. reflexivity.
Qed.

(** X4.  What the lexer returns depends on the text from the cursor on
    and on nothing else: two lexers, on any inputs and after any numbers of
    calls, whose remaining texts [input[position:]] are equal return the
    same tokens from then on. *)
Theorem tokens_depend_on_rest src1 n1 src2 n2 k :
  rest (after n1 (lexer.New src1)) = rest (after n2 (lexer.New src2)) ->
  fst (NextToken (after (n1 + k) (lexer.New src1)))
  = fst (NextToken (after (n2 + k) (lexer.New src2))).
Proof.
  intros E. rewrite !after_add.
  apply same_stream; try apply reached_wf. rewrite E. reflexivity.
Qed.

Lemma tokens_depend_on_rest_witness :
  fst (NextToken (after (1 + 1) (lexer.New "a b c")))
  = fst (NextToken (after (0 + 1) (lexer.New " b c"))).
Proof.
  apply (tokens_depend_on_rest "a b c" 1 " b c" 0 1). reflexivity.
Defined.

(** Every byte of the text satisfies the condition. *)
Fixpoint every (cond : ascii -> bool) (s : string) : bool :=
  match s with
  | EmptyString => true
  | String c s' => cond c && every cond s'
  end.

Lemma skipWhile_every cond w s :
  every cond w = true -> skipWhile cond (w ++ s) = skipWhile cond s.
Proof.
  induction w as [| c w IH]; simpl; intros H; [reflexivity |].
  apply andb_prop in H. destruct H as [-> H]. apply IH. exact H.
Qed.

Lemma every_whitespace w :
  every isWhitespace w = true -> every whitespaceCond w = true.
Proof.
  induction w as [| c w IH]; simpl; intros H; [reflexivity |].
  apply andb_prop in H. destruct H as [Hc H]. rewrite (IH H), andb_true_r.
  unfold whitespaceCond. rewrite Hc, andb_true_r.
  destruct (Ascii.eqb c zero) eqn:E; [| reflexivity].
  apply Ascii.eqb_eq in E. subst c. discriminate Hc.
Qed.

(** X5.  Whitespace before the text is insignificant: for every run [w] of
    spaces, tabs, carriage returns and line feeds, the text [w ++ s] gives
    the same sequence of tokens as [s]. *)
Theorem leading_whitespace_is_ignored w s k :
  every isWhitespace w = true ->
  fst (NextToken (after k (lexer.New (w ++ s))))
  = fst (NextToken (after k (lexer.New s))).
Proof.
  intros H. apply same_stream; try apply New_wf.
  rewrite !rest_New. unfold lex1.
  rewrite (skipWhile_every _ w s (every_whitespace w H)). reflexivity.
Qed.

Lemma leading_whitespace_is_ignored_witness :
  fst (NextToken (after 1 (lexer.New ("  " ++ "let x"))))
  = fst (NextToken (after 1 (lexer.New "let x"))).
Proof.
  apply (leading_whitespace_is_ignored "  " "let x" 1). reflexivity.
Defined.

Section Nul.
Variable b : string.

Let cut (s : string) : string := s ++ String zero b.

Lemma head0_cut s : head0 (cut s) = head0 s.
Proof. destruct s; reflexivity. Qed.

Lemma skipWhile_cut cond s :
  cond zero = false -> skipWhile cond (cut s) = cut (skipWhile cond s).
Proof.
  intros Hz. induction s as [| c s IH]; simpl.
  - rewrite Hz. reflexivity.
  - destruct (cond c); [exact IH | reflexivity].
Qed.

Lemma takeWhile_cut cond s :
  cond zero = false -> takeWhile cond (cut s) = takeWhile cond s.
Proof.
  intros Hz. unfold cut. induction s as [| c s IH]; simpl.
  - rewrite Hz. reflexivity.
  - destruct (cond c); [rewrite IH |]; reflexivity.
Qed.

Lemma lex1_cut r :
  lex1 (cut r) = (fst (lex1 r), cut (snd (lex1 r))).
Proof.
  unfold lex1. rewrite (skipWhile_cut whitespaceCond r eq_refl).
  set (s' := skipWhile whitespaceCond r). rewrite head0_cut.
  destruct (Ascii.eqb (head0 s') zero) eqn:Hz; [reflexivity |].
  destruct s' as [| c t]; [discriminate Hz |].
  change (cut (String c t)) with (String c (cut t)).
  cbn [head0 tail]. rewrite head0_cut.
  destruct (String.eqb (GetTwoCharToken _) ILLEGAL) eqn:E2; cbn [negb fst snd].
  2:{ apply String.eqb_neq in E2.
      destruct t as [| c2 r']; [| reflexivity].
      exfalso. destruct (two_char_cases _ E2) as [E | E];
        apply two_bytes in E; destruct E as [_ E]; discriminate E. }
  destruct (String.eqb (GetSingleCharToken c) ILLEGAL); cbn [negb fst snd];
    [| reflexivity].
  change (String c (cut t)) with (cut (String c t)).
  rewrite !(takeWhile_cut _ _ isDigit_zero), !(skipWhile_cut _ _ isDigit_zero),
    !(takeWhile_cut _ _ isCharacter_zero),
    !(skipWhile_cut _ _ isCharacter_zero).
  destruct (isDigit c); [reflexivity |].
  destruct (isCharacter c); reflexivity.
Qed.

Lemma cut_stream k : forall l1 l2,
  wf l1 -> wf l2 -> rest l1 = cut (rest l2) ->
  fst (NextToken (after k l1)) = fst (NextToken (after k l2)).
Proof.
  induction k as [| k IH]; intros l1 l2 W1 W2 E;
    destruct (NextToken_lex1 l1 W1) as [A1 [B1 C1]];
    destruct (NextToken_lex1 l2 W2) as [A2 [B2 C2]];
    rewrite E, lex1_cut in A1, B1; cbn [fst snd] in A1, B1.
  - simpl. rewrite A1, A2. reflexivity.
  - simpl. apply IH; [exact C1 | exact C2 |].
    rewrite B1, B2. reflexivity.
Qed.

End Nul.

(** X6.  A 0 byte in the input ends it.  The lexer uses the byte 0 for
    "past the end", so the text [a] followed by a 0 byte and by any text
    [b] at all gives exactly the tokens of [a]; in particular nothing of
    [b] is ever returned. *)
Theorem nul_byte_ends_the_input a b k :
  fst (NextToken (after k (lexer.New (a ++ String zero b))))
  = fst (NextToken (after k (lexer.New a))).
Proof.
  apply (cut_stream b); try apply New_wf. reflexivity.
Qed.


(** The kinds of tokens that the token package declares. *)
Definition kinds : list TokenType :=
  [ ILLEGAL; EOF; IDENT; INT; ASSIGN; PLUS; MINUS; SLASH; ASTERISK; BANG; LT;
    GT; EQ; NOTEQ; COMMA; SEMICOLON; LPAREN; RPAREN; LBRACE; RBRACE; TRUE;
    FALSE; FUNCTION; LET; IF; ELSE; RETURN ].

Lemma in_kinds t : existsb (String.eqb t) kinds = true -> In t kinds.
Proof.
  intros H. apply existsb_exists in H. destruct H as [x [Hx E]].
  apply String.eqb_eq in E. subst x. exact Hx.
Qed.

Lemma single_char_kind c :
  existsb (String.eqb (GetSingleCharToken c)) kinds = true.
Proof. destruct c as [[] [] [] [] [] [] [] []]; reflexivity. Qed.

Lemma word_kind w :
  existsb (String.eqb (GetTokenType w)) kinds = true
  /\ GetTokenType w <> EOF /\ GetTokenType w <> INT
  /\ GetTokenType w <> ILLEGAL.
Proof.
  unfold GetTokenType, keywords. cbn [gostd.map_get].
  repeat match goal with
  | |- context [String.eqb w ?k] => destruct (String.eqb w k)
  end; repeat split; try reflexivity; discriminate.
Qed.

Lemma takeWhile_head cond s :
  cond zero = false -> cond (head0 s) = true -> takeWhile cond s <> "".
Proof.
  intros Hz. destruct s as [| c s]; cbn [head0 takeWhile]; intros H.
  - rewrite Hz in H. discriminate H.
  - rewrite H. discriminate.
Qed.

Lemma skipWhile_head cond s :
  cond zero = false -> cond (head0 (skipWhile cond s)) = false.
Proof.
  intros Hz. induction s as [| c s IH]; simpl; [exact Hz |].
  destruct (cond c) eqn:E; [exact IH | exact E].
Qed.

Lemma every_takeWhile cond s : every cond (takeWhile cond s) = true.
Proof.
  induction s as [| c s IH]; simpl; [reflexivity |].
  destruct (cond c) eqn:E; simpl; [rewrite E; exact IH | reflexivity].
Qed.

(** X7.  Every token that [NextToken] returns has one of the kinds that the
    token package declares, never the empty kind of the zero [Token], and
    its text is empty exactly when it is the end-marker. *)
Theorem NextToken_kind src n :
  let tok := fst (NextToken (after n (lexer.New src))) in
  In (Type_ tok) kinds /\ (Literal tok = "" <-> Type_ tok = EOF).
Proof.
  intros tok. unfold tok. clear tok.
  pose proof (NextToken_lexeme _ (reached_wf src n)) as H. revert H.
  generalize (skipWhile whitespaceCond (rest (after n (lexer.New src)))).
  generalize (rest (snd (NextToken (after n (lexer.New src))))).
  generalize (fst (NextToken (after n (lexer.New src)))).
  intros tok r s H.
  inversion H as [s0 Hs | c r0 Hc | c r0 Hc | s0 Hs | s0 Hs | c r0 Hz Hc Hd Hl];
    subst; cbn [Type_ Literal].
  - split; [apply in_kinds; reflexivity | tauto].
  - destruct Hc; subst c; (split; [apply in_kinds; reflexivity |]);
      split; discriminate.
  - destruct (single_char_cases c Hc) as [E _]. rewrite <- E.
    split; [apply in_kinds, single_char_kind |].
    rewrite E. split; discriminate.
  - split; [apply in_kinds; reflexivity |].
    split; [intros E; exfalso; exact (takeWhile_head _ _ eq_refl Hs E) | discriminate].
  - destruct (word_kind (takeWhile isCharacter s)) as [K [N _]].
    split; [apply in_kinds; exact K |].
    split; [intros E; exfalso; exact (takeWhile_head _ _ eq_refl Hs E) | tauto].
  - split; [apply in_kinds; reflexivity |].
    split; [| discriminate].
    destruct (string_of_byte_cases c) as [-> | [a [b ->]]]; discriminate.
Qed.

(** X8.  Lexing loses nothing but whitespace.  For every token other than
    [ILLEGAL], the text from the cursor on, without its leading whitespace,
    is the text of the token followed by the text from the new cursor on. *)
Theorem NextToken_keeps_text src n :
  let l := after n (lexer.New src) in
  Type_ (fst (NextToken l)) <> ILLEGAL ->
  skipWhile whitespaceCond (rest l)
  = Literal (fst (NextToken l)) ++ rest (snd (NextToken l)).
Proof.
  intros l. pose proof (NextToken_lexeme l (reached_wf src n)) as H.
  revert H. generalize (skipWhile whitespaceCond (rest l)).
  generalize (rest (snd (NextToken l))). generalize (fst (NextToken l)).
  intros tok r s H Hne.
  inversion H as [s0 Hs | c r0 Hc | c r0 Hc | s0 Hs | s0 Hs | c r0 Hz Hc Hd Hl];
    subst; cbn [Type_ Literal] in *; try reflexivity.
  - symmetry. apply take_skip.
  - symmetry. apply take_skip.
  - exfalso. apply Hne. reflexivity.
Qed.

Lemma NextToken_keeps_text_witness :
  skipWhile whitespaceCond (rest (after 1 (lexer.New "x  != 10")))
  = Literal (fst (NextToken (after 1 (lexer.New "x  != 10"))))
    ++ rest (snd (NextToken (after 1 (lexer.New "x  != 10")))).
Proof.
  apply (NextToken_keeps_text "x  != 10" 1). vm_compute. discriminate.
Defined.

(** X9.  Numbers and words are read to their end.  The text of an [INT]
    token is a run of digits, that of an [IDENT] token a run of letters
    that is not the spelling of a keyword; neither is empty, and the byte
    on which the lexer stands afterwards does not continue the run. *)
Theorem numbers_and_words_are_maximal src n :
  let tok := fst (NextToken (after n (lexer.New src))) in
  let l' := snd (NextToken (after n (lexer.New src))) in
  (Type_ tok = INT ->
   Literal tok <> "" /\ every isDigit (Literal tok) = true
   /\ isDigit (ch l') = false)
  /\ (Type_ tok = IDENT ->
      Literal tok <> "" /\ every isCharacter (Literal tok) = true
      /\ isCharacter (ch l') = false
      /\ GetTokenType (Literal tok) = IDENT).
Proof.
  intros tok l'.
  pose proof (NextToken_lexeme _ (reached_wf src n)) as H.
  destruct (NextToken_lex1 _ (reached_wf src n)) as [_ [_ Hwf]].
  fold tok in H. fold l' in H, Hwf. rewrite (Lexing.wf_ch l' Hwf).
  revert H. generalize (rest l'). generalize tok.
  generalize (skipWhile whitespaceCond (rest (after n (lexer.New src)))).
  clear. intros s tok r H.
  inversion H as [s0 Hs | c r0 Hc | c r0 Hc | s0 Hs | s0 Hs | c r0 Hz Hc Hd Hl];
    subst; cbn [Type_ Literal]; split; intros K; try discriminate K.
  - split; [apply takeWhile_head; [reflexivity | exact Hs] |].
    split; [apply every_takeWhile | apply skipWhile_head; reflexivity].
  - destruct (word_kind (takeWhile isCharacter s)) as [_ [_ [N _]]].
    contradiction.
  - split; [apply takeWhile_head; [reflexivity | exact Hs] |].
    split; [apply every_takeWhile |].
    split; [apply skipWhile_head; reflexivity | exact K].
Qed.

Lemma numbers_and_words_are_maximal_witness :
  (Literal (fst (NextToken (lexer.New "42x"))) <> ""
   /\ every isDigit (Literal (fst (NextToken (lexer.New "42x")))) = true
   /\ isDigit (ch (snd (NextToken (lexer.New "42x")))) = false)
  /\ (Literal (fst (NextToken (lexer.New "lets+"))) <> ""
      /\ every isCharacter (Literal (fst (NextToken (lexer.New "lets+"))))
         = true
      /\ isCharacter (ch (snd (NextToken (lexer.New "lets+")))) = false
      /\ GetTokenType (Literal (fst (NextToken (lexer.New "lets+"))))
         = IDENT).
Proof.
  split.
  - apply (proj1 (numbers_and_words_are_maximal "42x" 0)). reflexivity.
  - apply (proj2 (numbers_and_words_are_maximal "lets+" 0)). reflexivity.
Defined.

(** X10.  A byte that is no whitespace, no single-character token, no
    digit and no letter is not fatal: wherever the lexer meets it, it
    returns an [ILLEGAL] token whose text is [string(byte)], and goes on
    with the text behind that one byte. *)
Theorem unknown_byte_is_illegal src n c s :
  rest (after n (lexer.New src)) = String c s ->
  c <> zero -> isWhitespace c = false ->
  GetSingleCharToken c = ILLEGAL -> isDigit c = false ->
  isCharacter c = false ->
  fst (NextToken (after n (lexer.New src)))
  = mkToken ILLEGAL (gostd.string_of_byte c)
  /\ rest (snd (NextToken (after n (lexer.New src)))) = s.
Proof.
  intros E Hz Hw Hs Hd Hl.
  pose proof (NextToken_lexeme _ (reached_wf src n)) as H.
  rewrite E in H. cbn [skipWhile] in H.
  replace (whitespaceCond c) with false in H
    by (unfold whitespaceCond; rewrite Hw; apply eq_sym, andb_false_r).
  revert H. generalize (rest (snd (NextToken (after n (lexer.New src))))).
  generalize (fst (NextToken (after n (lexer.New src)))).
  intros tok r H.
  inversion H as [s0 Hs0 | c0 r0 Hc | c0 r0 Hc | s0 Hs0 | s0 Hs0 | c0 r0 _ _ _ _];
    subst; cbn [head0] in *.
  - contradiction.
  - destruct Hc; subst c; discriminate Hs.
  - contradiction.
  - rewrite Hd in Hs0. discriminate Hs0.
  - rewrite Hl in Hs0. discriminate Hs0.
  - split; reflexivity.
Qed.

Lemma unknown_byte_is_illegal_witness :
  fst (NextToken (after 1 (lexer.New "a@b")))
  = mkToken ILLEGAL (gostd.string_of_byte "@")
  /\ rest (snd (NextToken (after 1 (lexer.New "a@b")))) = "b".
Proof.
  apply (unknown_byte_is_illegal "a@b" 1 "@" "b");
    (reflexivity || discriminate).
Defined.


(** ** Diagnostics and absent nodes

    [grown p p' C]: from the state [p] to the state [p'] the list of
    diagnostics was only appended to, and [C] holds if nothing was
    appended. *)

Definition grown (p p' : Parser) (C : Prop) : Prop :=
  exists added, errors p' = (errors p ++ added)%list /\ (added = [] -> C).

Lemma grown_refl p (C : Prop) : C -> grown p p C.
Proof. intros H. exists []. rewrite app_nil_r. auto. Qed.

Lemma grown_trans p p1 p2 (C1 C2 : Prop) :
  grown p p1 C1 -> grown p1 p2 (C1 -> C2) -> grown p p2 C2.
Proof.
  intros [a1 [E1 H1]] [a2 [E2 H2]]. exists (a1 ++ a2)%list.
  rewrite E2, E1, app_assoc. split; [reflexivity |].
  intros E. apply app_eq_nil in E. destruct E. auto.
Qed.

Lemma grown_weaken p p' (C C' : Prop) :
  (C -> C') -> grown p p' C -> grown p p' C'.
Proof. intros H [a [E Ha]]. exists a. auto. Qed.

Lemma grown_consumeNextToken p : grown p (consumeNextToken p) True.
Proof.
  exists []. rewrite consumeNextToken_errors, app_nil_r. auto.
Qed.

Lemma grown_addError m p (C : Prop) : grown p (addError m p) C.
Proof. exists [m]. split; [reflexivity | discriminate]. Qed.

Lemma grown_consumeToken t p : grown p (consumeToken t p) True.
Proof.
  unfold consumeToken. destruct (negb _).
  - eapply grown_trans; [apply grown_addError with (C := True) |].
    eapply grown_weaken; [| apply grown_consumeNextToken]. auto.
  - apply grown_consumeNextToken.
Qed.

(** [keeps m C]: a run of [m] that returns has only appended diagnostics,
    and its value satisfies [C] if it has appended none. *)
Definition keeps {A : Type} (m : M A) (C : A -> Prop) : Prop :=
  forall p, wpp m p (fun a p' => grown p p' (C a)).

Lemma keeps_bind {A B : Type} (m : M A) (f : A -> M B)
    (R : A -> Prop) (C : B -> Prop) :
  keeps m R -> (forall a, keeps (f a) (fun b => R a -> C b)) ->
  keeps (bind m f) C.
Proof.
  unfold keeps, wpp, bind. intros Hm Hf p. specialize (Hm p).
  destruct (m p) as [a p1 | r |]; [| exact I ..].
  specialize (Hf a p1). destruct (f a p1) as [b p2 | r |]; [| exact I ..].
  eapply grown_trans; eassumption.
Qed.

Lemma keeps_ret {A : Type} (a : A) (C : A -> Prop) : C a -> keeps (ret a) C.
Proof. intros H p. apply grown_refl. exact H. Qed.

Lemma keeps_weaken {A : Type} (m : M A) (C C' : A -> Prop) :
  (forall a, C a -> C' a) -> keeps m C -> keeps m C'.
Proof.
  unfold keeps, wpp. intros H Hm p. specialize (Hm p).
  destruct (m p); [| exact I ..]. eapply grown_weaken; [apply H | exact Hm].
Qed.

Lemma keeps_read {A B : Type} (g : Parser -> A) (f : A -> M B) C :
  (forall x, keeps (f x) C) -> keeps (bind (read g) f) C.
Proof. intros H p. apply (H (g p) p). Qed.

Lemma keeps_exec {B : Type} (g : Parser -> Parser) (f : unit -> M B) C :
  (forall p, grown p (g p) True) -> keeps (f tt) C ->
  keeps (bind (exec g) f) C.
Proof.
  unfold keeps, wpp, bind, exec. intros Hg Hf p. specialize (Hf (g p)).
  destruct (f tt (g p)); [| exact I ..].
  eapply grown_trans; [apply Hg |].
  eapply grown_weaken; [| exact Hf]. auto.
Qed.

(** After [addError] nothing is left to show but that the rest appends. *)
Lemma keeps_error {B : Type} m (f : unit -> M B) C :
  keeps (f tt) (fun _ => True) -> keeps (bind (exec (addError m)) f) C.
Proof.
  unfold keeps, wpp, bind, exec. intros Hf p. specialize (Hf (addError m p)).
  destruct (f tt (addError m p)); [| exact I ..].
  eapply grown_trans; [apply (grown_addError m p False) |].
  eapply grown_weaken; [| exact Hf]. intros _ [].
Qed.

Lemma keeps_call {A : Type} (g : Parser -> A * Parser) (R : A -> Prop) :
  (forall p, grown p (snd (g p)) (R (fst (g p)))) -> keeps (call g) R.
Proof.
  unfold keeps, wpp, call. intros H p. specialize (H p).
  destruct (g p). exact H.
Qed.

Lemma keeps_assoc {A B C : Type} (m : M A) (f : A -> M B) (g : B -> M C) Q :
  keeps (bind m (fun a => bind (f a) g)) Q -> keeps (bind (bind m f) g) Q.
Proof. intros H p. apply wpp_assoc, H. Qed.

Lemma keeps_ret_bind {A B : Type} (a : A) (f : A -> M B) Q :
  keeps (f a) Q -> keeps (bind (ret a) f) Q.
Proof. intros H; exact H. Qed.

Lemma keeps_panic_bind {A B : Type} (r : string) (f : A -> M B) Q :
  keeps (bind (panic r) f) Q.
Proof. intros p. exact I. Qed.

Lemma keeps_timeout {A : Type} (Q : A -> Prop) : keeps timeout Q.
Proof. intros p. exact I. Qed.

(** With a fact that holds of every value returned. *)
Lemma keeps_with {A : Type} (m : M A) (U C : A -> Prop) :
  (forall p, wpp m p (fun a _ => U a)) -> keeps m (fun a => U a -> C a) ->
  keeps m C.
Proof.
  unfold keeps, wpp. intros HU HC p. specialize (HU p). specialize (HC p).
  destruct (m p); [| exact I ..]. eapply grown_weaken; [| exact HC]. auto.
Qed.

Ltac kstep :=
  match goal with
  | |- keeps (bind (bind _ _) _) _ => apply keeps_assoc
  | |- keeps (bind (read _) _) _ => apply keeps_read; intros ?
  | |- keeps (bind current _) _ => apply keeps_read; intros ?
  | |- keeps (bind (exec (consumeToken ?t)) _) _ =>
      apply keeps_exec; [apply grown_consumeToken |]
  | |- keeps (bind (exec consumeNextToken) _) _ =>
      apply keeps_exec; [apply grown_consumeNextToken |]
  | |- keeps (bind (exec (addError _)) _) _ => apply keeps_error
  | |- keeps (bind (assertBlockStatement ?s) _) _ =>
      destruct s as [[| | |] |]; cbn [assertBlockStatement];
      try apply keeps_panic_bind; apply keeps_ret_bind
  | |- keeps (bind (if ?b then _ else _) _) _ => destruct b
  | |- keeps (if ?b then _ else _) _ => destruct b
  | |- keeps (bind (ret _) _) _ => apply keeps_ret_bind
  | |- keeps timeout _ => apply keeps_timeout
  end.

Ltac krec IH :=
  eapply keeps_bind; [apply IH | intros ?; cbv beta].

(** A value that is present and whose rendering does not dereference nil. *)
Definition renders (e : option Expression) : Prop :=
  obind e Expression_String <> None.

Definition renders_stmt (s : option Statement) : Prop :=
  obind s Statement_String <> None.

Definition renders_all (ss : list (option Statement)) : Prop :=
  WriteStrings Statement_String ss <> None.

Definition named (ps : list (option Identifier)) : Prop :=
  Strings (fun i => Some (Identifier_String i)) ps <> None.

Lemma renders_all_app ss s :
  renders_all ss -> renders_stmt s -> renders_all (ss ++ [s]).
Proof.
  unfold renders_all, renders_stmt. intros Hss Hs.
  induction ss as [| x ss IH]; cbn [app WriteStrings].
  - destruct (obind s Statement_String); [discriminate | contradiction].
  - cbn [WriteStrings] in Hss.
    destruct (obind x Statement_String); cbn [obind] in *; [| contradiction].
    destruct (WriteStrings Statement_String ss); cbn [obind] in *;
      [| contradiction].
    specialize (IH ltac:(discriminate)).
    destruct (WriteStrings Statement_String (ss ++ [s]));
      [discriminate | contradiction].
Qed.

Lemma named_app ps i : named ps -> named (ps ++ [Some i]).
Proof.
  unfold named. intros H.
  induction ps as [| x ps IH]; cbn [app Strings obind]; [discriminate |].
  cbn [Strings] in H.
  destruct (obind x _); cbn [obind] in *; [| contradiction].
  destruct (Strings _ ps); cbn [obind] in *; [| contradiction].
  specialize (IH ltac:(discriminate)).
  destruct (Strings _ (ps ++ [Some i])); [discriminate | contradiction].
Qed.

Lemma renders_prefix tok op r :
  renders r -> renders (Some (PrefixExpression tok op r)).
Proof.
  unfold renders. cbn [obind Expression_String].
  destruct (obind r Expression_String); [discriminate | contradiction].
Qed.

Lemma renders_infix tok a op b :
  renders a -> renders b -> renders (Some (InfixExpression tok a op b)).
Proof.
  unfold renders. cbn [obind Expression_String].
  destruct (obind a Expression_String); [| contradiction].
  destruct (obind b Expression_String); [discriminate | contradiction].
Qed.

Lemma renders_if tok c b alt :
  renders c -> renders_stmt (Some (StmtBlock b)) ->
  match alt with
  | Some a => renders_stmt (Some (StmtBlock a))
  | None => True
  end ->
  renders (Some (IfExpression tok c (Some b) alt)).
Proof.
  unfold renders, renders_stmt. cbn [obind Expression_String Statement_String].
  destruct (obind c Expression_String); [| contradiction].
  intros _. cbn [obind].
  destruct (BlockStatement_String b); [| contradiction]. intros _.
  destruct alt as [a |]; [| discriminate].
  destruct (BlockStatement_String a); [discriminate | contradiction].
Qed.

Lemma renders_fn tok ps b :
  named ps -> renders_stmt (Some (StmtBlock b)) ->
  renders (Some (FunctionLiteral tok ps (Some b))).
Proof.
  unfold renders, renders_stmt, named.
  cbn [obind Expression_String Statement_String].
  destruct (Strings _ ps); [| contradiction]. intros _. cbn [obind].
  destruct (BlockStatement_String b); [discriminate | contradiction].
Qed.

Lemma renders_let tok i v :
  renders v -> renders_stmt (Some (LetStatement tok (Some i) v)).
Proof.
  unfold renders, renders_stmt. cbn [obind Statement_String option_map].
  destruct v as [v |]; cbn [obind]; [| contradiction].
  destruct (Expression_String v); [discriminate | contradiction].
Qed.

Lemma renders_return tok v :
  renders v -> renders_stmt (Some (ReturnStatement tok v)).
Proof.
  unfold renders, renders_stmt. cbn [obind Statement_String].
  destruct v as [v |]; cbn [obind]; [| contradiction].
  destruct (Expression_String v); [discriminate | contradiction].
Qed.

Lemma renders_expression_statement tok e :
  renders e -> renders_stmt (Some (ExpressionStatement tok e)).
Proof.
  unfold renders, renders_stmt. cbn [obind Statement_String].
  destruct e as [e |]; cbn [obind]; [auto | contradiction].
Qed.

Lemma renders_block tok ss :
  renders_all ss -> renders_stmt (Some (StmtBlock (mkBlockStatement tok ss))).
Proof. intros H; exact H. Qed.

Lemma keeps_parseIdentifier :
  keeps (call parseIdentifier) (fun _ => True).
Proof. apply keeps_call. intros p. apply grown_consumeNextToken. Qed.

Lemma keeps_parseIntegerLiteral : keeps (call parseIntegerLiteral) renders.
Proof.
  apply keeps_call. intros p. unfold parseIntegerLiteral.
  destruct (strconv.ParseInt0 _); cbn [fst snd].
  - eapply grown_weaken; [| apply grown_consumeNextToken].
    intros _. unfold renders. discriminate.
  - eapply grown_trans; [apply grown_consumeNextToken |].
    apply grown_addError.
Qed.

Lemma keeps_parseBooleanLiteral : keeps (call parseBooleanLiteral) renders.
Proof.
  apply keeps_call. intros p. cbn [parseBooleanLiteral fst snd].
  eapply grown_weaken; [| apply grown_consumeNextToken].
  intros _. unfold renders. discriminate.
Qed.

Lemma keeps_parseParameters n : forall ps,
  keeps (parseParameters n ps) (fun ps' => named ps -> named ps').
Proof.
  induction n as [| n IH]; intros ps; [apply keeps_timeout |].
  cbn [parseParameters]. kstep. kstep.
  2:{ apply keeps_ret. auto. }
  krec keeps_parseIdentifier. kstep.
  kstep; kstep;
    (eapply keeps_weaken; [| apply IH]; cbv beta;
     intros ps' H _ Hps; apply H, named_app, Hps).
Qed.

(** The statement functions answer nil only when they are called on a
    token that is not theirs, and [parseStatement] calls each on its own. *)
Lemma wpp_any {A B : Type} (m : M A) (f : A -> M B) p Q :
  (forall a p', wpp (f a) p' Q) -> wpp (bind m f) p Q.
Proof.
  unfold wpp, bind. intros H. destruct (m p) as [a p' | |];
    [apply H | exact I ..].
Qed.

Ltac present :=
  repeat first
    [ apply wpp_timeout
    | apply wpp_ret; discriminate
    | apply wpp_any; intros ? ? ].

Lemma parseStatement_present n p :
  wpp (parseStatement n) p (fun s _ => s <> None).
Proof.
  destruct n as [| n]; [apply wpp_timeout |].
  cbn [parseStatement]. apply wpp_read.
  destruct (lookup parselets (Type_ (currentToken p))) as [f |] eqn:E.
  - pose proof (parselets_kind _ _ E) as K.
    destruct f; (destruct n as [| n]; [apply wpp_timeout |]).
    + cbn [letStatementParselet]. apply wpp_read. rewrite K. cbn [negb].
      present.
    + cbn [returnStatementParselet]. apply wpp_read. rewrite K. cbn [negb].
      present.
    + cbn [blockStatementParselet]. apply wpp_read. rewrite K. cbn [negb].
      present.
  - destruct n as [| n]; [apply wpp_timeout |].
    cbn [expressionStatementParselet]. present.
Qed.

Record sound_at (n : nat) : Prop := mkSound {
  sound_parseStatement : keeps (parseStatement n) renders_stmt;
  sound_parseExpression : forall prec, keeps (parseExpression n prec) renders;
  sound_parseExpression_loop : forall prec e0,
    keeps (parseExpression_loop n prec e0) (fun e => renders e0 -> renders e);
  sound_parsePrefixOperator : keeps (parsePrefixOperator n) renders;
  sound_parseGroupedExpression : keeps (parseGroupedExpression n) renders;
  sound_parseInfixExpression : forall e0,
    keeps (parseInfixExpression n e0) (fun e => renders e0 -> renders e);
  sound_parseIfExpression : keeps (parseIfExpression n) renders;
  sound_parseFunctionExpression : keeps (parseFunctionExpression n) renders;
  sound_letStatementParselet :
    keeps (letStatementParselet n) (fun s => s <> None -> renders_stmt s);
  sound_returnStatementParselet :
    keeps (returnStatementParselet n) (fun s => s <> None -> renders_stmt s);
  sound_expressionStatementParselet :
    keeps (expressionStatementParselet n) renders_stmt;
  sound_blockStatementParselet :
    keeps (blockStatementParselet n) (fun s => s <> None -> renders_stmt s);
  sound_blockStatements : forall ss,
    keeps (blockStatements n ss) (fun ss' => renders_all ss -> renders_all ss')
}.

Lemma sound_all n : sound_at n.
Proof.
  induction n as [| n IH].
  { constructor; intros; apply keeps_timeout. }
  destruct IH as [IHs IHe IHl IHp IHg IHi IHif IHf IHlet IHret IHes IHb IHbs].
  constructor.
  - (* parseStatement *)
    apply keeps_with with (U := fun s => s <> None).
    { intros p. apply parseStatement_present. }
    cbn [parseStatement]. kstep.
    destruct (lookup parselets (Type_ x)) as [[| |] |]; auto.
    eapply keeps_weaken; [| apply IHes]. auto.
  - (* parseExpression *)
    intros prec. cbn [parseExpression]. kstep.
    destruct (lookup prefixParsers (Type_ x)) as [f |].
    2:{ kstep. kstep. apply keeps_ret. exact I. }
    destruct f.
    + kstep. krec keeps_parseIdentifier. kstep.
      eapply keeps_weaken; [| apply IHl].
      cbv beta. intros e H _. apply H. unfold renders. discriminate.
    + krec keeps_parseIntegerLiteral. apply IHl.
    + krec keeps_parseBooleanLiteral. apply IHl.
    + krec IHp. apply IHl.
    + krec IHg. apply IHl.
    + krec IHif. apply IHl.
    + krec IHf. apply IHl.
  - (* parseExpression_loop *)
    intros prec e0. cbn [parseExpression_loop]. kstep. kstep. kstep.
    2:{ apply keeps_ret. auto. }
    destruct (lookup infixParsers (Type_ x)) as [[] |].
    2:{ apply keeps_ret. auto. }
    krec IHi. eapply keeps_weaken; [| apply IHl]. cbv beta. auto.
  - (* parsePrefixOperator *)
    cbn [parsePrefixOperator]. kstep. kstep. krec IHe.
    apply keeps_ret. apply renders_prefix.
  - (* parseGroupedExpression *)
    cbn [parseGroupedExpression]. kstep. krec IHe. kstep.
    apply keeps_ret. auto.
  - (* parseInfixExpression *)
    intros e0. cbn [parseInfixExpression]. kstep. kstep. kstep. krec IHe.
    apply keeps_ret. intros Hb Ha. apply renders_infix; assumption.
  - (* parseIfExpression *)
    cbn [parseIfExpression]. kstep. kstep. kstep. krec IHe. kstep.
    krec IHb. kstep. kstep. kstep.
    + apply keeps_ret. intros Hs Hc.
      apply renders_if; [exact Hc | apply Hs; discriminate | exact I].
    + kstep. krec IHb. kstep.
      apply keeps_ret. intros Ha Hs Hc.
      apply renders_if;
        [exact Hc | apply Hs; discriminate | apply Ha; discriminate].
  - (* parseFunctionExpression *)
    cbn [parseFunctionExpression]. kstep. kstep. kstep.
    krec keeps_parseParameters. kstep. krec IHb. kstep.
    apply keeps_ret. intros Hs Hps.
    apply renders_fn; [apply Hps; unfold named; discriminate |].
    apply Hs. discriminate.
  - (* letStatementParselet *)
    cbn [letStatementParselet]. kstep. kstep.
    { apply keeps_ret. intros H. contradiction. }
    kstep. kstep. kstep. kstep. krec IHe. kstep.
    apply keeps_ret. intros Hv _. apply renders_let. exact Hv.
  - (* returnStatementParselet *)
    cbn [returnStatementParselet]. kstep. kstep.
    { apply keeps_ret. intros H. contradiction. }
    kstep. krec IHe. kstep.
    apply keeps_ret. intros Hv _. apply renders_return. exact Hv.
  - (* expressionStatementParselet *)
    cbn [expressionStatementParselet]. kstep. krec IHe. kstep.
    kstep; kstep;
      (apply keeps_ret; intros He;
       apply renders_expression_statement; exact He).
  - (* blockStatementParselet *)
    cbn [blockStatementParselet]. kstep. kstep.
    { apply keeps_ret. intros H. contradiction. }
    kstep. krec IHbs. kstep.
    apply keeps_ret. intros Hss _. apply renders_block.
    apply Hss. unfold renders_all. discriminate.
  - (* blockStatements *)
    intros ss. cbn [blockStatements]. kstep. kstep.
    2:{ apply keeps_ret. auto. }
    krec IHs. eapply keeps_weaken; [| apply IHbs].
    cbv beta. intros ss' H Hs Hss. apply H, renders_all_app; assumption.
Qed.

Lemma sound_programStatements n : forall ss,
  keeps (programStatements n ss) (fun ss' => renders_all ss -> renders_all ss').
Proof.
  induction n as [| n IH]; intros ss; [apply keeps_timeout |].
  cbn [programStatements]. kstep. kstep.
  2:{ apply keeps_ret. auto. }
  krec (sound_parseStatement n (sound_all n)).
  eapply keeps_weaken; [| apply IH].
  cbv beta. intros ss' H Hs Hss. apply H, renders_all_app; assumption.
Qed.

Lemma sound_ParseProgram n :
  keeps (ParseProgram n) (fun prog => Program_String prog <> None).
Proof.
  unfold ParseProgram. krec sound_programStatements.
  apply keeps_ret. intros H. apply H. unfold renders_all. discriminate.
Qed.


(** X11.  Diagnostics are only ever appended.  From whatever state
    [ParseProgram] is started, the list that [Errors] returns afterwards
    begins with the list it returned before: nothing recorded earlier is
    dropped, changed or reordered. *)
Theorem diagnostics_only_grow fuel p errs :
  diagnostics (ParseProgram fuel p) = Some errs ->
  exists added, errs = (Errors p ++ added)%list.
Proof.
  intros H. pose proof (sound_ParseProgram fuel p) as K. unfold wpp in K.
  destruct (ParseProgram fuel p) as [prog p' | |]; try discriminate H.
  cbn [diagnostics] in H. injection H as <-. destruct K as [added [E _]].
  exists added. exact E.
Qed.

Lemma diagnostics_only_grow_witness :
  exists added,
    ["old"; "Unable to consume prefix: {) )}"]
    = (Errors (addError "old" (parser.New (lexer.New ") x"))) ++ added)%list.
Proof.
  apply (diagnostics_only_grow 9 (addError "old" (parser.New (lexer.New ") x")))).
  vm_compute. reflexivity.
Defined.

(** X12.  A parse without diagnostics gives a complete tree.  If
    [ParseProgram] on a source text returns and [Errors] is empty, the
    program has no nil statement, no nil operand, condition, block or
    parameter where [String] would dereference it: the rendering of the
    program does not panic. *)
Theorem clean_parse_renders fuel src :
  diagnostics (parse fuel src) = Some [] ->
  exists text, rendering (parse fuel src) = Some text.
Proof.
  unfold parse. intros H.
  pose proof (sound_ParseProgram fuel (parser.New (lexer.New src))) as K.
  unfold wpp in K.
  destruct (ParseProgram fuel _) as [prog p' | |]; try discriminate H.
  cbn [diagnostics rendering] in *. unfold Errors in H. injection H as H.
  destruct K as [added [E K]]. rewrite New_errors, H in E. cbn [app] in E.
  symmetry in E. specialize (K E).
  destruct (Program_String prog) as [text |]; [| contradiction].
  exists text. reflexivity.
Qed.

Lemma clean_parse_renders_witness :
  exists text,
    rendering (parse 30 "if (x < 1) { return -x; } else { fn(a, b) { a } }")
    = Some text.
Proof.
  apply (clean_parse_renders 30). vm_compute. reflexivity.
Defined.

Lemma programStatements_present n : forall ss p,
  wpp (programStatements n ss) p
    (fun ss' _ => ~ In None ss -> ~ In None ss').
Proof.
  induction n as [| n IH]; intros ss p; [apply wpp_timeout |].
  cbn [programStatements]. apply wpp_read.
  destruct (negb _); [| apply wpp_ret; auto].
  eapply wpp_bind; [apply parseStatement_present |].
  cbv beta. intros s p' Hs. pose proof (IH (ss ++ [s])%list p') as K.
  unfold wpp in *. destruct (programStatements n _ p'); auto.
  intros Hss. apply K. intros Hin. apply in_app_or in Hin.
  destruct Hin as [Hin | [Hin | []]]; [exact (Hss Hin) | exact (Hs Hin)].
Qed.

(** X13.  No statement of a program is nil.  [letStatementParselet],
    [returnStatementParselet] and [blockStatementParselet] answer nil on a
    token that is not theirs, but [parseStatement] calls each only on its
    own token, so whatever the state [ParseProgram] starts from, the
    statements it collects are all present. *)
Theorem statements_are_present fuel p ss :
  statements (ParseProgram fuel p) = Some ss -> ~ In None ss.
Proof.
  unfold ParseProgram. intros H.
  pose proof (programStatements_present fuel [] p) as K.
  unfold wpp in K. unfold bind in H.
  destruct (programStatements fuel [] p) as [ss' p' | |]; try discriminate H.
  cbn [statements ret Statements] in H. injection H as <-.
  apply K. intros [].
Qed.

Lemma statements_are_present_witness :
  ~ In None
      [Some (LetStatement (mkToken LET "let")
               (Some (mkIdentifier (mkToken IDENT "x") "x"))
               (Some (IntegerLiteral (mkToken INT "5") 5)))].
Proof.
  apply (statements_are_present 9 (parser.New (lexer.New "let x = 5;"))).
  vm_compute. reflexivity.
Defined.

(** The token on which a parse has stopped. *)
Definition stopped_on (r : result Program) : option Token :=
  match r with
  | Ok _ p => Some (currentToken p)
  | _ => None
  end.

Lemma programStatements_stops n : forall ss p,
  wpp (programStatements n ss) p
    (fun _ p' => Type_ (currentToken p') = EOF).
Proof.
  induction n as [| n IH]; intros ss p; [apply wpp_timeout |].
  cbn [programStatements]. apply wpp_read.
  destruct (typeIs (currentToken p) EOF) eqn:E; cbn [negb].
  - apply wpp_ret. apply typeIs_true. exact E.
  - apply wpp_any. intros s p'. apply IH.
Qed.

(** X14.  [ParseProgram] does not return before the end: from whatever
    state it starts, the token the parser stands on when it returns is the
    end-marker. *)
Theorem ParseProgram_stops_at_eof fuel p tok :
  stopped_on (ParseProgram fuel p) = Some tok -> Type_ tok = EOF.
Proof.
  unfold ParseProgram. intros H.
  pose proof (programStatements_stops fuel [] p) as K.
  unfold wpp in K. unfold bind in H.
  destruct (programStatements fuel [] p) as [ss' p' | |]; try discriminate H.
  cbn [stopped_on ret] in H. injection H as <-. exact K.
Qed.

Lemma ParseProgram_stops_at_eof_witness : Type_ (mkToken EOF "") = EOF.
Proof.
  apply (ParseProgram_stops_at_eof 20 (parser.New (lexer.New "let x = 5; }"))).
  vm_compute. reflexivity.
Defined.

(** X15.  The table of precedences and the registry of infix parse
    functions name the same kinds of tokens.  The precedence of the
    current token lies between [LOWEST] and [PRODUCT], below [PREFIX]; it
    is above [LOWEST] exactly when an infix parse function is registered
    for the token.  So the loop of [parseExpression], which goes on only
    while the precedence is above its bound, never finds the registry
    empty. *)
Theorem infix_tables_agree p :
  (LOWEST <= getCurrentPrecedence p <= PRODUCT)%Z
  /\ (PRODUCT < PREFIX)%Z
  /\ ((LOWEST < getCurrentPrecedence p)%Z
      <-> lookup infixParsers (Type_ (currentToken p)) <> None).
Proof.
  unfold getCurrentPrecedence, lookup, precedences, infixParsers.
  generalize (Type_ (currentToken p)). intros t. cbn [gostd.map_get].
  repeat match goal with
  | |- context [String.eqb t ?k] =>
      let E := fresh "E" in
      destruct (String.eqb t k) eqn:E;
      [apply String.eqb_eq in E; subst t; cbn;
       unfold LOWEST, PRODUCT, PREFIX, SUM, EQUALS, LESSGREATER;
       (split; [lia | split; [lia | split; [discriminate | lia]]]) |]
  end.
  unfold LOWEST, PRODUCT, PREFIX.
  split; [lia | split; [lia | split; [lia | congruence]]].
Qed.

Lemma blank_lexes w : every isWhitespace w = true -> lex1 w = (mkToken EOF "", "").
Proof.
  intros H. unfold lex1.
  rewrite <- (append_empty w), (skipWhile_every _ w "" (every_whitespace w H)).
  reflexivity.
Qed.

(** X16.  A source text that is empty or holds only spaces, tabs, carriage
    returns and line feeds is a program: [ParseProgram] returns zero
    statements and records no diagnostic. *)
Theorem blank_source_is_the_empty_program w fuel :
  every isWhitespace w = true ->
  statements (parse (S fuel) w) = Some []
  /\ diagnostics (parse (S fuel) w) = Some [].
Proof.
  intros H. unfold parse, ParseProgram.
  destruct (stands_on_New w) as (_ & C & _).
  rewrite (blank_lexes w H) in C. cbn [fst] in C.
  cbn [programStatements]. rewrite run_assoc, run_current. unfold typeIs.
  rewrite C. cbn [Type_]. change (String.eqb EOF EOF) with true. cbn [negb].
  rewrite !run_ret. cbn [ret statements diagnostics Statements].
  unfold Errors. rewrite New_errors. split; reflexivity.
Qed.

Lemma blank_source_is_the_empty_program_witness :
  statements (parse (S 0) "  ") = Some []
  /\ diagnostics (parse (S 0) "  ") = Some [].
Proof.
  apply (blank_source_is_the_empty_program "  " 0). reflexivity.
Defined.

Lemma consumeToken_eof_mismatch p t :
  Type_ (currentToken p) = EOF -> t <> EOF ->
  consumeToken t p = addError (unexpected (currentToken p) t) p.
Proof.
  intros H Ht. unfold consumeToken. rewrite H.
  apply not_eq_sym in Ht. apply String.eqb_neq in Ht. rewrite Ht. cbn [negb].
  apply consumeNextToken_eof. unfold typeIs, addError. cbn [currentToken].
  rewrite H. reflexivity.
Qed.

(** X17.  At the end of the input [consumeToken] consumes nothing.  When
    the current token is the end-marker and another kind is expected, it
    records its diagnostic and leaves the tokens and the lexer as they
    are, so that the caller still stands on the end-marker; when the
    end-marker itself is expected it changes nothing at all. *)
Theorem consumeToken_at_end p t :
  Type_ (currentToken p) = EOF ->
  (t <> EOF -> consumeToken t p = addError (unexpected (currentToken p) t) p)
  /\ (t = EOF -> consumeToken t p = p).
Proof.
  intros H. split; intros Ht.
  - apply consumeToken_eof_mismatch; assumption.
  - unfold consumeToken. rewrite H. subst t. cbn [negb String.eqb]. change (String.eqb EOF EOF) with true.
    cbn [negb]. apply consumeNextToken_eof. unfold typeIs. rewrite H.
    reflexivity.
Qed.

Lemma consumeToken_at_end_witness :
  consumeToken SEMICOLON (parser.New (lexer.New ""))
  = addError (unexpected (currentToken (parser.New (lexer.New ""))) SEMICOLON)
      (parser.New (lexer.New ""))
  /\ consumeToken EOF (parser.New (lexer.New "")) = parser.New (lexer.New "").
Proof.
  split.
  - apply (proj1 (consumeToken_at_end (parser.New (lexer.New "")) SEMICOLON
                    eq_refl)).
    discriminate.
  - apply (proj2 (consumeToken_at_end (parser.New (lexer.New "")) EOF eq_refl)).
    reflexivity.
Defined.


(** ** Operators without parentheses *)

Lemma precedence_facts op pr :
  lookup precedences op = Some pr ->
  isInfixOp op = true /\ (LOWEST < pr <= PRODUCT)%Z.
Proof.
  unfold lookup, precedences, isInfixOp, infixParsers. cbn [gostd.map_get].
  repeat match goal with
  | |- context [String.eqb op ?k] =>
      let E := fresh "E" in
      destruct (String.eqb op k) eqn:E;
      [apply String.eqb_eq in E; subst op; cbn; intros [= <-];
       unfold LOWEST, PRODUCT, SUM, EQUALS, LESSGREATER;
       (split; [reflexivity | lia]) |]
  end.
  discriminate.
Qed.

(** On an operator that does not bind tighter than [prec] the loop ends. *)
Lemma loop_yields n prec e p op pr :
  currentToken p = mkToken op op ->
  lookup precedences op = Some pr -> (pr <= prec)%Z ->
  parseExpression_loop (S n) prec e p = Ok e p.
Proof.
  intros Hc Hpr Hle. cbn [parseExpression_loop].
  rewrite run_current, run_read. unfold getCurrentPrecedence.
  rewrite Hc. cbn [Type_]. rewrite Hpr.
  destruct (Z.ltb_spec prec pr) as [H | _]; [lia |].
  rewrite andb_false_r. reflexivity.
Qed.

(** On an operator that binds tighter the loop takes it, with the operand
    that [parseExpression] reads behind it at the precedence of the
    operator, and goes on. *)
Lemma infix_step n prec e r p p' op pr :
  currentToken p = mkToken op op ->
  lookup precedences op = Some pr -> (prec < pr)%Z ->
  parseExpression n pr (consumeNextToken p) = Ok r p' ->
  parseExpression_loop (S (S n)) prec e p
  = parseExpression_loop (S n) prec
      (Some (InfixExpression (mkToken op op) e op r)) p'.
Proof.
  intros Hc Hpr Hlt Hr.
  destruct (precedence_facts op pr Hpr) as [Hop _].
  destruct (infix_facts op Hop) as (pr' & Hpr' & _ & Hin & Hsemi).
  rewrite (loop_infix _ _ _ _ op pr Hc Hpr Hlt Hin Hsemi).
  rewrite (run_ok _ _ _
             (Some (InfixExpression (mkToken op op) e op r)) p');
    [reflexivity |].
  rewrite (infix_runs _ _ _ op pr Hc Hpr).
  rewrite (run_ok _ _ _ _ _ Hr). reflexivity.
Qed.

(** The two trees over three operands. *)
Definition leftFirst op1 op2 a b c : Expression :=
  InfixExpression (mkToken op2 op2)
    (Some (InfixExpression (mkToken op1 op1) (Some a) op1 (Some b)))
    op2 (Some c).

Definition rightFirst op1 op2 a b c : Expression :=
  InfixExpression (mkToken op1 op1) (Some a) op1
    (Some (InfixExpression (mkToken op2 op2) (Some b) op2 (Some c))).

Lemma two_operators a b c op1 op2 pr1 pr2 n p rest :
  plain a -> plain b -> plain c ->
  lookup precedences op1 = Some pr1 -> lookup precedences op2 = Some pr2 ->
  need a + need b + need c + 8 <= n ->
  repr p (toks a ++ mkToken op1 op1 :: toks b ++ mkToken op2 op2
          :: toks c ++ rest) ->
  stops rest ->
  parseExpression (S n) LOWEST p
  = Ok (Some (if (pr1 <? pr2)%Z then rightFirst op1 op2 a b c
              else leftFirst op1 op2 a b c))
      (advance
         (List.length
            (toks a ++ mkToken op1 op1 :: toks b ++ mkToken op2 op2 :: toks c))
         p).
Proof.
  intros Ha Hb Hc H1 H2 Hn Hrep Hstops.
  destruct (precedence_facts op1 pr1 H1) as [_ B1].
  destruct (precedence_facts op2 pr2 H2) as [_ B2].
  set (pa := advance (List.length (toks a)) p).
  assert (Hrepa : repr pa (mkToken op1 op1 :: toks b ++ mkToken op2 op2
                           :: toks c ++ rest))
    by (apply repr_advance; exact Hrep).
  pose proof (repr_current _ _ _ Hrepa) as Hca.
  pose proof (repr_next _ _ _ Hrepa) as Hrepb0.
  set (pb0 := consumeNextToken pa) in *.
  set (pb := advance (List.length (toks b)) pb0).
  assert (Hrepb : repr pb (mkToken op2 op2 :: toks c ++ rest))
    by (apply repr_advance; exact Hrepb0).
  pose proof (repr_current _ _ _ Hrepb) as Hcb.
  pose proof (repr_next _ _ _ Hrepb) as Hrepc0.
  set (pc0 := consumeNextToken pb) in *.
  set (pc := advance (List.length (toks c)) pc0).
  assert (Hrepc : repr pc rest) by (apply repr_advance; exact Hrepc0).
  pose proof (repr_stopper _ _ Hrepc Hstops) as Hstop.
  assert (Hfinal :
            advance
              (List.length
                 (toks a ++ mkToken op1 op1 :: toks b ++ mkToken op2 op2
                  :: toks c)) p = pc).
  { rewrite length_app, advance_add. fold pa.
    cbn [List.length advance]. fold pb0.
    rewrite length_app, advance_add. fold pb. reflexivity. }
  rewrite Hfinal.
  destruct n as [| [| [| [| [| [| [| n]]]]]]]; try lia.
  rewrite (fun H => parse_plain a Ha _ LOWEST p _ H Hrep) by lia. fold pa.
  assert (Hc' : forall m, need c <= m ->
                  parseExpression (S m) pr2 pc0 = Ok (Some c) pc).
  { intros m Hm. apply (parse_operand c m pr2 pc0 rest); auto. lia. }
  destruct (Z.ltb_spec pr1 pr2) as [Hlt | Hge].
  - assert (Hr : parseExpression (S (S (S (S (S n))))) pr1 pb0
                 = Ok (Some (InfixExpression (mkToken op2 op2) (Some b) op2
                               (Some c))) pc).
    { rewrite (fun H => parse_plain b Hb _ pr1 pb0 _ H Hrepb0) by lia. fold pb.
      rewrite (fun H => infix_step _ _ _ _ _ _ _ _ Hcb H2 Hlt (Hc' _ H)) by lia.
      apply loop_stops; [lia | exact Hstop]. }
    rewrite (fun H => infix_step _ _ _ _ _ _ _ _ Hca H1 H Hr) by lia.
    apply loop_stops; [unfold LOWEST; lia | exact Hstop].
  - assert (Hr : parseExpression (S (S (S (S (S n))))) pr1 pb0
                 = Ok (Some b) pb).
    { rewrite (fun H => parse_plain b Hb _ pr1 pb0 _ H Hrepb0) by lia. fold pb.
      apply (loop_yields _ _ _ _ op2 pr2); auto. }
    rewrite (fun H => infix_step _ _ _ _ _ _ _ _ Hca H1 H Hr) by lia.
    rewrite (fun H H' => infix_step _ _ _ _ _ _ _ _ Hcb H2 H (Hc' _ H')) by lia.
    apply loop_stops; [unfold LOWEST; lia | exact Hstop].
Qed.


(** *** From a source text to the program *)

Lemma parse_runs src : parse (enough src) src <> OutOfFuel.
Proof.
  pose proof (parse_ends src) as H. unfold wp in H. unfold parse.
  destruct (ParseProgram (enough src) (parser.New (lexer.New src)));
    [discriminate | discriminate | contradiction].
Qed.

(** A result found with some fuel is the result with [enough src]. *)
Lemma at_enough F src r :
  parse F src = r -> r <> OutOfFuel ->
  forall k, parse (enough src + k) src = r.
Proof.
  intros E Hr k. rewrite (parse_fuel_irrelevant _ k src (parse_runs src)).
  rewrite <- (parse_fuel_irrelevant _ F src (parse_runs src)).
  rewrite Nat.add_comm.
  rewrite parse_fuel_irrelevant; [exact E | rewrite E; exact Hr].
Qed.

(** A program that is one expression, up to the end of the input. *)
Lemma expression_program n p e p' :
  lookup parselets (Type_ (currentToken p)) = None ->
  Type_ (currentToken p) <> EOF ->
  parseExpression n LOWEST p = Ok e p' ->
  Type_ (currentToken p') = EOF ->
  ParseProgram (S (S (S n))) p
  = Ok (mkProgram [Some (ExpressionStatement (currentToken p) e)]) p'.
Proof.
  intros Hl Hne He Hend.
  assert (Hs : parseStatement (S (S n)) p
               = Ok (Some (ExpressionStatement (currentToken p) e)) p').
  { cbn [parseStatement]. rewrite run_current, Hl.
    cbn [expressionStatementParselet]. rewrite run_current.
    rewrite (run_ok _ _ _ _ _ He), run_current. unfold typeIs.
    rewrite Hend. change (String.eqb EOF SEMICOLON) with false. cbv iota.
    rewrite run_ret. reflexivity. }
  unfold ParseProgram.
  rewrite (run_ok _ _ _ [Some (ExpressionStatement (currentToken p) e)] p');
    [reflexivity |].
  cbn [programStatements]. rewrite run_current. unfold typeIs at 1.
  apply String.eqb_neq in Hne. rewrite Hne. cbn [negb].
  rewrite (run_ok _ _ _ _ _ Hs). rewrite run_current. unfold typeIs.
  rewrite Hend. reflexivity.
Qed.

(** The expressions of the statements of a program. *)
Definition expressions (r : result Program) : option (list (option Expression)) :=
  option_map (List.map expressionOf) (statements r).

Lemma expression_source text ts e n :
  lexes text ts ->
  (exists t ts', ts = t :: ts' /\ lookup parselets (Type_ t) = None) ->
  (forall p, repr p ts ->
             parseExpression n LOWEST p
             = Ok (Some e) (advance (List.length ts) p)) ->
  forall k,
    expressions (parse (enough text + k) text) = Some [Some e]
    /\ diagnostics (parse (enough text + k) text) = Some [].
Proof.
  intros Hl (t & ts' & -> & Hp) Hrun k.
  pose proof (stands_on_repr _ _ _ (stands_on_New text) Hl) as Hrep.
  pose proof (repr_advance (t :: ts') (parser.New (lexer.New text)) [])
    as Hend.
  rewrite app_nil_r in Hend. specialize (Hend Hrep). cbn [repr] in Hend.
  pose proof Hrep as (Hc & Hne & _).
  rewrite (at_enough (S (S (S n))) text
             (Ok (mkProgram
                    [Some (ExpressionStatement
                             (currentToken (parser.New (lexer.New text)))
                             (Some e))])
                (advance (List.length (t :: ts'))
                   (parser.New (lexer.New text))))).
  - cbn [expressions statements option_map List.map expressionOf Statements
           diagnostics].
    unfold Errors. rewrite advance_errors, New_errors. split; reflexivity.
  - apply expression_program; [rewrite Hc; exact Hp | rewrite Hc; exact Hne | |].
    + apply Hrun. exact Hrep.
    + exact Hend.
  - discriminate.
Qed.

Lemma infix_lexes op s ts :
  isInfixOp op = true -> lexes s ts ->
  lexes (" " ++ op ++ " " ++ s) (mkToken op op :: ts).
Proof.
  intros Hop H. cbn [lexes].
  change (" " ++ op ++ " " ++ s) with (String " " (op ++ String " " s)).
  rewrite (lex1_infix op _ Hop). cbn [fst snd Type_].
  split; [reflexivity |]. split.
  { apply infix_cases in Hop. cbn [In] in Hop.
    repeat (destruct Hop as [Hop | Hop]; [subst op; discriminate |]).
    contradiction. }
  apply lexes_space. exact H.
Qed.

Lemma operand_lexes e te tail ts :
  plain e -> Expression_String e = Some te ->
  boundary tail -> lexes tail ts -> lexes (te ++ tail) (toks e ++ ts).
Proof.
  intros He Ee. destruct (plain_text e He) as (te' & Ee' & _ & _ & L).
  rewrite Ee in Ee'. injection Ee' as <-. apply L.
Qed.

Lemma space_boundary s : boundary (" " ++ s).
Proof. split; reflexivity. Qed.

Lemma end_boundary : boundary "".
Proof. split; reflexivity. Qed.

Lemma end_lexes : lexes "" [].
Proof. reflexivity. Qed.

(** X18.  The precedence of two operators decides the grouping of three
    operands.  For operands [a], [b], [c] that are identifiers, integers,
    booleans or parenthesised, and any two infix operators, the text
    [a op1 b op2 c] parses without diagnostics to one expression statement:
    [op2] takes [b] when its precedence is higher than that of [op1], and
    otherwise [op1] does, so operators of equal precedence group from the
    left. *)
Theorem precedence_decides_grouping a b c op1 op2 pr1 pr2 ta tb tc k :
  plain a -> plain b -> plain c ->
  Expression_String a = Some ta -> Expression_String b = Some tb ->
  Expression_String c = Some tc ->
  lookup precedences op1 = Some pr1 -> lookup precedences op2 = Some pr2 ->
  let text := ta ++ " " ++ op1 ++ " " ++ tb ++ " " ++ op2 ++ " " ++ tc in
  expressions (parse (enough text + k) text)
  = Some [Some (if (pr1 <? pr2)%Z then rightFirst op1 op2 a b c
                else leftFirst op1 op2 a b c)]
  /\ diagnostics (parse (enough text + k) text) = Some [].
Proof.
  intros Ha Hb Hc Ea Eb Ec H1 H2 text.
  destruct (precedence_facts op1 pr1 H1) as [I1 _].
  destruct (precedence_facts op2 pr2 H2) as [I2 _].
  apply (expression_source text
           (toks a ++ mkToken op1 op1 :: toks b ++ mkToken op2 op2
            :: toks c ++ [])
           _ (S (need a + need b + need c + 8))).
  - unfold text. apply (operand_lexes a); auto using space_boundary.
    apply infix_lexes; [exact I1 |].
    apply (operand_lexes b); auto using space_boundary.
    apply infix_lexes; [exact I2 |].
    rewrite <- (append_empty tc).
    apply (operand_lexes c); auto using end_boundary, end_lexes.
  - destruct (plain_first a Ha) as (t & ts & -> & Hp).
    eexists; eexists. split; [reflexivity | exact Hp].
  - intros p Hrep.
    rewrite (two_operators a b c op1 op2 pr1 pr2 _ p [] Ha Hb Hc H1 H2
               (le_n _) Hrep I).
    rewrite app_nil_r. reflexivity.
Qed.

Lemma precedence_decides_grouping_witness :
  (expressions (parse (enough "x + 2 * (y - 1)" + 0) "x + 2 * (y - 1)")
   = Some [Some (rightFirst "+" "*"
                   (ExprIdentifier (mkIdentifier (mkToken IDENT "x") "x"))
                   (IntegerLiteral (mkToken INT "2") 2)
                   (InfixExpression (mkToken "-" "-")
                      (Some (ExprIdentifier
                               (mkIdentifier (mkToken IDENT "y") "y")))
                      "-" (Some (IntegerLiteral (mkToken INT "1") 1))))]
   /\ diagnostics (parse (enough "x + 2 * (y - 1)" + 0) "x + 2 * (y - 1)")
      = Some [])
  /\ (expressions (parse (enough "x - 2 + true" + 0) "x - 2 + true")
      = Some [Some (leftFirst "-" "+"
                      (ExprIdentifier (mkIdentifier (mkToken IDENT "x") "x"))
                      (IntegerLiteral (mkToken INT "2") 2)
                      (Boolean (mkToken TRUE "true") true))]
      /\ diagnostics (parse (enough "x - 2 + true" + 0) "x - 2 + true")
         = Some []).
Proof.
  split.
  - apply (precedence_decides_grouping
             (ExprIdentifier (mkIdentifier (mkToken IDENT "x") "x"))
             (IntegerLiteral (mkToken INT "2") 2)
             (InfixExpression (mkToken "-" "-")
                (Some (ExprIdentifier (mkIdentifier (mkToken IDENT "y") "y")))
                "-" (Some (IntegerLiteral (mkToken INT "1") 1)))
             "+" "*" SUM PRODUCT "x" "2" "(y - 1)" 0);
      try reflexivity;
      repeat first [ apply plain_identifier; reflexivity
                   | apply plain_integer; reflexivity
                   | apply plain_infix; [reflexivity | |] ].
  - apply (precedence_decides_grouping
             (ExprIdentifier (mkIdentifier (mkToken IDENT "x") "x"))
             (IntegerLiteral (mkToken INT "2") 2)
             (Boolean (mkToken TRUE "true") true)
             "-" "+" SUM SUM "x" "2" "true" 0);
      try reflexivity;
      first [ apply plain_identifier; reflexivity
            | apply plain_integer; reflexivity
            | apply plain_true ].
Defined.


Lemma prefix_then_infix pop a op pr b n p rest :
  isPrefixOp pop = true -> plain a -> plain b ->
  lookup precedences op = Some pr ->
  need a + need b + 6 <= n ->
  repr p (mkToken pop pop :: toks a ++ mkToken op op :: toks b ++ rest) ->
  stops rest ->
  parseExpression (S n) LOWEST p
  = Ok (Some (InfixExpression (mkToken op op)
                (Some (PrefixExpression (mkToken pop pop) pop (Some a)))
                op (Some b)))
      (advance
         (List.length (mkToken pop pop :: toks a ++ mkToken op op :: toks b))
         p).
Proof.
  intros Hpop Ha Hb Hpr Hn Hrep Hstops.
  destruct (precedence_facts op pr Hpr) as [_ B].
  pose proof (repr_current _ _ _ Hrep) as Hc.
  pose proof (repr_next _ _ _ Hrep) as Hrep1.
  set (p1 := consumeNextToken p) in *.
  set (pa := advance (List.length (toks a)) p1).
  assert (Hrepa : repr pa (mkToken op op :: toks b ++ rest))
    by (apply repr_advance; exact Hrep1).
  pose proof (repr_current _ _ _ Hrepa) as Hca.
  pose proof (repr_next _ _ _ Hrepa) as Hrepb0.
  set (pb0 := consumeNextToken pa) in *.
  set (pb := advance (List.length (toks b)) pb0).
  assert (Hrepb : repr pb rest) by (apply repr_advance; exact Hrepb0).
  pose proof (repr_stopper _ _ Hrepb Hstops) as Hstop.
  assert (Hfinal :
            advance
              (List.length
                 (mkToken pop pop :: toks a ++ mkToken op op :: toks b)) p
            = pb).
  { cbn [List.length advance]. fold p1. rewrite length_app, advance_add.
    fold pa. reflexivity. }
  rewrite Hfinal.
  destruct n as [| [| [| [| [| n]]]]]; try lia.
  assert (Hpre : parsePrefixOperator (S (S (S (S (S n))))) p
                 = Ok (Some (PrefixExpression (mkToken pop pop) pop (Some a)))
                     pa).
  { cbn [parsePrefixOperator]. rewrite run_current, Hc, run_exec. fold p1.
    rewrite (run_ok _ _ _ (Some a) pa); [reflexivity |].
    rewrite (fun H => parse_plain a Ha _ PREFIX p1 _ H Hrep1) by lia.
    fold pa. apply (loop_yields _ _ _ _ op pr); auto.
    unfold PREFIX, PRODUCT in *. lia. }
  assert (Hb' : parseExpression (S (S (S n))) pr pb0 = Ok (Some b) pb).
  { apply (parse_operand b _ pr pb0 rest); auto; lia. }
  cbn [parseExpression]. rewrite run_current, Hc. cbn [Type_].
  apply prefix_cases in Hpop.
  destruct Hpop as [-> | ->]; lookup_now;
    rewrite (run_ok _ _ _ _ _ Hpre);
    rewrite (fun H => infix_step _ _ _ _ _ _ _ _ Hca Hpr H Hb') by lia;
    (apply loop_stops; [unfold LOWEST; lia | exact Hstop]).
Qed.

(** X19.  A prefix operator binds tighter than every infix operator.  For
    operands [a] and [b] that are identifiers, integers, booleans or
    parenthesised, the texts [!a op b] and [-a op b] parse without
    diagnostics to the infix expression whose left operand is the prefix
    expression: the prefix operator takes [a] alone. *)
Theorem prefix_binds_tighter pop a op pr b ta tb k :
  isPrefixOp pop = true -> plain a -> plain b ->
  Expression_String a = Some ta -> Expression_String b = Some tb ->
  lookup precedences op = Some pr ->
  let text := pop ++ ta ++ " " ++ op ++ " " ++ tb in
  expressions (parse (enough text + k) text)
  = Some [Some (InfixExpression (mkToken op op)
                  (Some (PrefixExpression (mkToken pop pop) pop (Some a)))
                  op (Some b))]
  /\ diagnostics (parse (enough text + k) text) = Some [].
Proof.
  intros Hpop Ha Hb Ea Eb Hpr text.
  destruct (precedence_facts op pr Hpr) as [Iop _].
  destruct (plain_text a Ha) as (ta' & Ea' & Sa & Na & _).
  rewrite Ea in Ea'. injection Ea' as <-.
  assert (Hrest : lexes (ta ++ " " ++ op ++ " " ++ tb)
                    (toks a ++ mkToken op op :: toks b ++ [])).
  { apply (operand_lexes a); auto using space_boundary.
    apply infix_lexes; [exact Iop |].
    rewrite <- (append_empty tb).
    apply (operand_lexes b); auto using end_boundary, end_lexes. }
  apply (expression_source text
           (mkToken pop pop :: toks a ++ mkToken op op :: toks b ++ [])
           _ (S (need a + need b + 6))).
  - unfold text. cbn [lexes].
    destruct (prefix_cases pop Hpop) as [-> | ->].
    + change (BANG ++ ta ++ " " ++ op ++ " " ++ tb)
        with (String "!" (ta ++ " " ++ op ++ " " ++ tb)).
      rewrite lex1_bang by (rewrite head0_app by exact Na; exact Sa).
      cbn [fst snd Type_].
      split; [reflexivity | split; [discriminate | exact Hrest]].
    + change (MINUS ++ ta ++ " " ++ op ++ " " ++ tb)
        with (String "-" (ta ++ " " ++ op ++ " " ++ tb)).
      rewrite lex1_minus. cbn [fst snd Type_].
      split; [reflexivity | split; [discriminate | exact Hrest]].
  - eexists; eexists. split; [reflexivity |].
    destruct (prefix_cases pop Hpop) as [-> | ->]; reflexivity.
  - intros p Hrep.
    rewrite (prefix_then_infix pop a op pr b _ p [] Hpop Ha Hb Hpr
               (le_n _) Hrep I).
    rewrite app_nil_r. reflexivity.
Qed.

Lemma prefix_binds_tighter_witness :
  expressions (parse (enough "-x * 2" + 0) "-x * 2")
  = Some [Some (InfixExpression (mkToken "*" "*")
                  (Some (PrefixExpression (mkToken "-" "-") "-"
                           (Some (ExprIdentifier
                                    (mkIdentifier (mkToken IDENT "x") "x")))))
                  "*" (Some (IntegerLiteral (mkToken INT "2") 2)))]
  /\ diagnostics (parse (enough "-x * 2" + 0) "-x * 2") = Some [].
Proof.
  apply (prefix_binds_tighter "-"
           (ExprIdentifier (mkIdentifier (mkToken IDENT "x") "x"))
           "*" PRODUCT (IntegerLiteral (mkToken INT "2") 2) "x" "2" 0);
    try reflexivity;
    first [ apply plain_identifier; reflexivity
          | apply plain_integer; reflexivity ].
Defined.

Lemma grouped_operand e n prec p rest :
  plain e -> need e + 3 <= n -> (LOWEST <= prec)%Z ->
  repr p (LP :: toks e ++ RP :: rest) -> stops rest ->
  parseExpression (S n) prec p
  = Ok (Some e) (advance (List.length (LP :: toks e ++ [RP])) p).
Proof.
  intros He Hn Hp Hrep Hstops.
  pose proof (repr_current _ _ _ Hrep) as Hc.
  pose proof (repr_next _ _ _ Hrep) as Hrep1.
  set (p1 := consumeNextToken p) in *.
  set (pe := advance (List.length (toks e)) p1).
  assert (Hrepe : repr pe (RP :: rest)) by (apply repr_advance; exact Hrep1).
  pose proof (repr_current _ _ _ Hrepe) as Hce.
  pose proof (repr_next _ _ _ Hrepe) as Hrepr.
  pose proof (repr_stopper _ _ Hrepr Hstops) as Hstop.
  assert (Hfinal : advance (List.length (LP :: toks e ++ [RP])) p
                   = consumeNextToken pe).
  { cbn [List.length advance]. fold p1. rewrite length_app, advance_add.
    reflexivity. }
  rewrite Hfinal.
  destruct n as [| [| [| n]]]; try lia.
  cbn [parseExpression]. rewrite run_current, Hc. lookup_now.
  rewrite (run_ok _ _ _ (Some e) (consumeNextToken pe)).
  - apply loop_stops; [exact Hp | exact Hstop].
  - cbn [parseGroupedExpression]. rewrite run_exec.
    rewrite consumeToken_match by (unfold typeIs; rewrite Hc; reflexivity).
    fold p1. rewrite (run_ok _ _ _ (Some e) pe).
    + rewrite run_exec.
      rewrite consumeToken_match by (unfold typeIs; rewrite Hce; reflexivity).
      reflexivity.
    + apply (parse_operand e _ LOWEST p1 (RP :: rest)); auto.
      * lia.
      * unfold LOWEST; lia.
      * right. reflexivity.
Qed.

(** X20.  Parentheses leave no node.  Around an operand [e] that is an
    identifier, an integer, a boolean or itself parenthesised, one more
    pair of parentheses changes nothing: the text [(e)] parses without
    diagnostics to the tree of [e], and the program renders as [e]. *)
Theorem grouping_leaves_no_node e te k :
  plain e -> Expression_String e = Some te ->
  let text := "(" ++ te ++ ")" in
  expressions (parse (enough text + k) text) = Some [Some e]
  /\ diagnostics (parse (enough text + k) text) = Some []
  /\ rendering (parse (enough text + k) text) = Some te.
Proof.
  intros He Ee text.
  assert (H : expressions (parse (enough text + k) text) = Some [Some e]
              /\ diagnostics (parse (enough text + k) text) = Some []).
  { apply (expression_source text (LP :: toks e ++ RP :: [])
             _ (S (need e + 3))).
    - unfold text. cbn [lexes].
      change ("(" ++ te ++ ")") with (String "(" (te ++ ")")).
      rewrite lex1_lparen. cbn [fst snd Type_].
      split; [reflexivity | split; [discriminate |]].
      apply (operand_lexes e); auto; [split; reflexivity |].
      cbn [lexes]. rewrite lex1_rparen. cbn [fst snd Type_].
      split; [reflexivity | split; [discriminate | reflexivity]].
    - eexists; eexists. split; reflexivity.
    - intros p Hrep.
      rewrite (grouped_operand e _ LOWEST p [] He (le_n _)
                 ltac:(unfold LOWEST; lia) Hrep I).
      reflexivity. }
  destruct H as [H1 H2]. split; [exact H1 | split; [exact H2 |]].
  unfold expressions, statements, rendering in *.
  destruct (parse (enough text + k) text) as [prog p' | |];
    try discriminate H1.
  cbn [option_map] in H1. injection H1 as H1. unfold Program_String.
  destruct (Statements prog) as [| [[| | tok x |] |] [| s ss]];
    try discriminate H1.
  cbn [List.map expressionOf] in H1. injection H1 as ->.
  cbn [WriteStrings obind Statement_String]. rewrite Ee. cbn [obind].
  rewrite append_empty. reflexivity.
Qed.

Lemma grouping_leaves_no_node_witness :
  expressions (parse (enough "((1 + 2))" + 0) "((1 + 2))")
  = Some [Some (InfixExpression (mkToken "+" "+")
                  (Some (IntegerLiteral (mkToken INT "1") 1)) "+"
                  (Some (IntegerLiteral (mkToken INT "2") 2)))]
  /\ diagnostics (parse (enough "((1 + 2))" + 0) "((1 + 2))") = Some []
  /\ rendering (parse (enough "((1 + 2))" + 0) "((1 + 2))")
     = Some "(1 + 2)".
Proof.
  apply (grouping_leaves_no_node
           (InfixExpression (mkToken "+" "+")
              (Some (IntegerLiteral (mkToken INT "1") 1)) "+"
              (Some (IntegerLiteral (mkToken INT "2") 2)))
           "(1 + 2)" 0);
    try reflexivity.
  apply plain_infix; [reflexivity | |]; apply plain_integer; reflexivity.
Defined.


(** ** Statements *)

Lemma statement_source s text k :
  plain_stmt s -> Statement_String s = Some text ->
  statements (parse (enough text + k) text) = Some [Some s]
  /\ diagnostics (parse (enough text + k) text) = Some [].
Proof.
  intros Hs Es.
  destruct (plain_program_round_trip [Some s]
              (plain_cons s [] Hs plain_nil)) as (text' & Et & Hk).
  unfold Program_String in Et. cbn [Statements WriteStrings obind] in Et.
  rewrite Es in Et. cbn [obind] in Et. rewrite append_empty in Et.
  injection Et as <-.
  destruct (Hk 0) as (p' & Hp & He & _).
  rewrite (at_enough _ _ _ Hp) by discriminate.
  cbn [statements diagnostics Statements]. unfold Errors. rewrite He.
  split; [| reflexivity].
  destruct Hs; reflexivity.
Qed.

(** X21.  [let] and [return] statements.  For every identifier [x] and
    every expression [e] that is an identifier, an integer, a boolean or
    parenthesised, the text [let x = e;] parses to one [LetStatement] with
    the name [x] and the value [e], the text [return e;] to one
    [ReturnStatement] with the value [e], both without diagnostics. *)
Theorem let_and_return_statements x e te k :
  isIdentifier x = true -> plain e -> Expression_String e = Some te ->
  let letText := "let " ++ x ++ " = " ++ te ++ ";" in
  let returnText := "return " ++ te ++ ";" in
  (statements (parse (enough letText + k) letText)
   = Some [Some (LetStatement (mkToken LET "let")
                   (Some (mkIdentifier (mkToken IDENT x) x)) (Some e))]
   /\ diagnostics (parse (enough letText + k) letText) = Some [])
  /\ (statements (parse (enough returnText + k) returnText)
      = Some [Some (ReturnStatement (mkToken RETURN "return") (Some e))]
      /\ diagnostics (parse (enough returnText + k) returnText) = Some []).
Proof.
  intros Hx He Ee letText returnText. split.
  - apply statement_source; [apply plain_let; assumption |].
    cbn [Statement_String option_map obind Literal Identifier_String
           Ident_Value].
    rewrite Ee. reflexivity.
  - apply statement_source; [apply plain_return; assumption |].
    cbn [Statement_String obind Literal]. rewrite Ee. reflexivity.
Qed.

Lemma let_and_return_statements_witness :
  (statements (parse (enough "let y = (!true);" + 0) "let y = (!true);")
   = Some [Some (LetStatement (mkToken LET "let")
                   (Some (mkIdentifier (mkToken IDENT "y") "y"))
                   (Some (PrefixExpression (mkToken "!" "!") "!"
                            (Some (Boolean (mkToken TRUE "true") true)))))]
   /\ diagnostics (parse (enough "let y = (!true);" + 0) "let y = (!true);")
      = Some [])
  /\ (statements (parse (enough "return (!true);" + 0) "return (!true);")
      = Some [Some (ReturnStatement (mkToken RETURN "return")
                      (Some (PrefixExpression (mkToken "!" "!") "!"
                               (Some (Boolean (mkToken TRUE "true") true)))))]
      /\ diagnostics (parse (enough "return (!true);" + 0) "return (!true);")
         = Some []).
Proof.
  apply (let_and_return_statements "y"
           (PrefixExpression (mkToken "!" "!") "!"
              (Some (Boolean (mkToken TRUE "true") true)))
           "(!true)" 0);
    try reflexivity.
  apply plain_prefix; [reflexivity | apply plain_true].
Defined.

(** X22.  The rendering of expressions is unambiguous: two trees built
    from identifiers, integers, booleans, prefix and infix operators that
    render to the same text are the same tree, tokens and integer values
    included. *)
Theorem rendering_is_injective e1 e2 :
  plain e1 -> plain e2 ->
  Expression_String e1 = Expression_String e2 -> e1 = e2.
Proof.
  intros H1 H2 E.
  destruct (plain_text e1 H1) as (t1 & E1 & _).
  destruct (plain_text e2 H2) as (t2 & E2 & _).
  assert (Ht : t1 = t2) by congruence. subst t2.
  destruct (plain_program_round_trip
              [Some (ExpressionStatement zeroToken (Some e1))]
              (plain_last zeroToken e1 H1)) as (x1 & X1 & K1).
  destruct (plain_program_round_trip
              [Some (ExpressionStatement zeroToken (Some e2))]
              (plain_last zeroToken e2 H2)) as (x2 & X2 & K2).
  unfold Program_String in X1, X2.
  cbn [Statements WriteStrings obind Statement_String] in X1, X2.
  rewrite E1 in X1. rewrite E2 in X2. cbn [obind] in X1, X2.
  injection X1 as <-. injection X2 as <-.
  destruct (K1 (fuel_for [Some (ExpressionStatement zeroToken (Some e2))]))
    as (p1 & P1 & _).
  destruct (K2 (fuel_for [Some (ExpressionStatement zeroToken (Some e1))]))
    as (p2 & P2 & _).
  rewrite Nat.add_comm in P2. rewrite P1 in P2.
  cbn [reparsed List.map option_map retoken] in P2.
  injection P2 as _ P2 _. exact P2.
Qed.

Lemma rendering_is_injective_witness :
  InfixExpression (mkToken "+" "+")
    (Some (IntegerLiteral (mkToken INT "1") 1)) "+"
    (Some (ExprIdentifier (mkIdentifier (mkToken IDENT "x") "x")))
  = InfixExpression (mkToken "+" "+")
      (Some (IntegerLiteral (mkToken INT "1") 1)) "+"
      (Some (ExprIdentifier (mkIdentifier (mkToken IDENT "x") "x"))).
Proof.
  apply rendering_is_injective; try reflexivity;
    (apply plain_infix;
     [reflexivity | apply plain_integer; reflexivity
     | apply plain_identifier; reflexivity]).
Defined.

(** *** A statement that the input ends before its semicolon *)

Lemma eof_token s : Type_ (fst (lex1 s)) = EOF -> fst (lex1 s) = mkToken EOF "".
Proof.
  pose proof (lex1_lexeme s) as H. revert H.
  generalize (skipWhile whitespaceCond s), (fst (lex1 s)), (snd (lex1 s)).
  intros s' tok r H.
  inversion H as [s0 Hs | c r0 Hc | c r0 Hc | s0 Hs | s0 Hs | c r0 Hz Hc Hd Hl];
    subst; cbn [Type_]; intros K; try reflexivity; try discriminate K.
  destruct (word_kind (takeWhile isCharacter s')) as [_ [N _]].
  contradiction.
Qed.

Lemma stands_on_end ts : forall p s,
  stands_on p s -> lexes s ts ->
  currentToken (advance (List.length ts) p) = mkToken EOF "".
Proof.
  induction ts as [| t ts IH]; intros p s Hs Hl;
    cbn [lexes List.length advance] in *.
  - destruct Hs as (_ & C & _). rewrite C. apply eof_token. exact Hl.
  - destruct Hl as (Ht & Hne & Hl). pose proof Hs as (_ & C & _).
    apply (IH _ (snd (lex1 s))); [| exact Hl].
    apply stands_on_consume; [exact Hs |]. rewrite C, Ht. exact Hne.
Qed.

(** A program that is one statement, up to the end of the input. *)
Lemma statement_program n p s p' :
  Type_ (currentToken p) <> EOF ->
  parseStatement (S n) p = Ok s p' ->
  Type_ (currentToken p') = EOF ->
  ParseProgram (S (S n)) p = Ok (mkProgram [s]) p'.
Proof.
  intros Hne Hs Hend. unfold ParseProgram.
  rewrite (run_ok _ _ _ [s] p'); [reflexivity |].
  cbn [programStatements]. rewrite run_current. unfold typeIs at 1.
  apply String.eqb_neq in Hne. rewrite Hne. cbn [negb].
  rewrite (run_ok _ _ _ _ _ Hs). rewrite run_current. unfold typeIs.
  rewrite Hend. reflexivity.
Qed.

Definition missingSemicolon : string := unexpected (mkToken EOF "") SEMICOLON.

Lemma unfinished_let x e p :
  plain e ->
  repr p (mkToken LET "let" :: mkToken IDENT x :: mkToken ASSIGN "="
          :: toks e) ->
  currentToken (advance (3 + List.length (toks e)) p) = mkToken EOF "" ->
  parseStatement (S (S (S (need e)))) p
  = Ok (Some (LetStatement (mkToken LET "let")
                (Some (mkIdentifier (mkToken IDENT x) x)) (Some e)))
      (addError missingSemicolon (advance (3 + List.length (toks e)) p)).
Proof.
  intros He Hrep Hend.
  pose proof (repr_current _ _ _ Hrep) as Hc.
  pose proof (repr_next _ _ _ Hrep) as Hrep1.
  pose proof (repr_current _ _ _ Hrep1) as Hc1.
  pose proof (repr_next _ _ _ Hrep1) as Hrep2.
  pose proof (repr_current _ _ _ Hrep2) as Hc2.
  pose proof (repr_next _ _ _ Hrep2) as Hrep3.
  cbn [Nat.add advance] in *.
  set (p3 := consumeNextToken (consumeNextToken (consumeNextToken p))) in *.
  set (pe := advance (List.length (toks e)) p3) in *.
  cbn [parseStatement]. rewrite run_current, Hc. lookup_now.
  cbn [letStatementParselet]. rewrite run_current, Hc.
  change (negb (typeIs (mkToken LET "let") LET)) with false. cbv iota.
  rewrite run_exec, consumeToken_match by (unfold typeIs; rewrite Hc; reflexivity).
  rewrite run_current, Hc1.
  rewrite run_exec, consumeToken_match by (unfold typeIs; rewrite Hc1; reflexivity).
  rewrite run_exec, consumeToken_match by (unfold typeIs; rewrite Hc2; reflexivity).
  fold p3.
  rewrite (run_ok _ _ _ (Some e) pe).
  - rewrite run_exec.
    rewrite consumeToken_eof_mismatch by (rewrite ?Hend; (reflexivity || discriminate)).
    rewrite Hend. reflexivity.
  - apply (parse_operand e _ _ _ []); auto.
    + unfold LOWEST; lia.
    + rewrite app_nil_r. exact Hrep3.
    + exact I.
Qed.

Lemma unfinished_return e p :
  plain e ->
  repr p (mkToken RETURN "return" :: toks e) ->
  currentToken (advance (1 + List.length (toks e)) p) = mkToken EOF "" ->
  parseStatement (S (S (S (need e)))) p
  = Ok (Some (ReturnStatement (mkToken RETURN "return") (Some e)))
      (addError missingSemicolon (advance (1 + List.length (toks e)) p)).
Proof.
  intros He Hrep Hend.
  pose proof (repr_current _ _ _ Hrep) as Hc.
  pose proof (repr_next _ _ _ Hrep) as Hrep1.
  cbn [Nat.add advance] in *.
  set (p1 := consumeNextToken p) in *.
  set (pe := advance (List.length (toks e)) p1) in *.
  cbn [parseStatement]. rewrite run_current, Hc. lookup_now.
  cbn [returnStatementParselet]. rewrite run_current, Hc.
  change (negb (typeIs (mkToken RETURN "return") RETURN)) with false. cbv iota.
  rewrite run_exec, consumeToken_match by (unfold typeIs; rewrite Hc; reflexivity).
  fold p1.
  rewrite (run_ok _ _ _ (Some e) pe).
  - rewrite run_exec.
    rewrite consumeToken_eof_mismatch by (rewrite ?Hend; (reflexivity || discriminate)).
    rewrite Hend. reflexivity.
  - apply (parse_operand e _ _ _ []); auto.
    + unfold LOWEST; lia.
    + rewrite app_nil_r. exact Hrep1.
    + exact I.
Qed.

Lemma unfinished_source text ts s :
  lexes text ts ->
  (exists t ts', ts = t :: ts') ->
  (forall p, repr p ts ->
     currentToken (advance (List.length ts) p) = mkToken EOF "" ->
     exists n, parseStatement (S n) p
               = Ok (Some s) (addError missingSemicolon
                                (advance (List.length ts) p))) ->
  forall k,
    statements (parse (enough text + k) text) = Some [Some s]
    /\ diagnostics (parse (enough text + k) text) = Some [missingSemicolon].
Proof.
  intros Hl (t & ts' & ->) Hrun k.
  pose proof (stands_on_repr _ _ _ (stands_on_New text) Hl) as Hrep.
  pose proof (stands_on_end _ _ _ (stands_on_New text) Hl) as Hend.
  pose proof Hrep as (Hc & Hne & _).
  destruct (Hrun _ Hrep Hend) as (n & Hs).
  rewrite (at_enough (S (S n)) text
             (Ok (mkProgram [Some s])
                (addError missingSemicolon
                   (advance (List.length (t :: ts'))
                      (parser.New (lexer.New text)))))).
  - cbn [statements diagnostics Statements]. unfold Errors, addError.
    cbn [errors]. rewrite advance_errors, New_errors. split; reflexivity.
  - apply statement_program; [rewrite Hc; exact Hne | exact Hs |].
    unfold addError. cbn [currentToken]. rewrite Hend. reflexivity.
  - discriminate.
Qed.

(** X23.  A statement that the input ends before its semicolon is kept and
    reported once.  For [x] and [e] as above, the texts [let x = e] and
    [return e], with the end of the input where the semicolon should be,
    parse to the same statements as with the semicolon, and [Errors] holds
    exactly one diagnostic, which names the end-marker as the token found
    and [;] as the kind expected. *)
Theorem missing_semicolon_is_reported x e te k :
  isIdentifier x = true -> plain e -> Expression_String e = Some te ->
  let letText := "let " ++ x ++ " = " ++ te in
  let returnText := "return " ++ te in
  (statements (parse (enough letText + k) letText)
   = Some [Some (LetStatement (mkToken LET "let")
                   (Some (mkIdentifier (mkToken IDENT x) x)) (Some e))]
   /\ diagnostics (parse (enough letText + k) letText)
      = Some ["Could not properly consume token: {EOF } expected: ;"])
  /\ (statements (parse (enough returnText + k) returnText)
      = Some [Some (ReturnStatement (mkToken RETURN "return") (Some e))]
      /\ diagnostics (parse (enough returnText + k) returnText)
         = Some ["Could not properly consume token: {EOF } expected: ;"]).
Proof.
  intros Hx He Ee letText returnText.
  assert (Le : lexes te (toks e)).
  { rewrite <- (append_empty te), <- (app_nil_r (toks e)).
    apply (operand_lexes e); auto using end_boundary, end_lexes. }
  unfold isIdentifier in Hx. apply andb_prop in Hx. destruct Hx as [Hl Hk].
  apply String.eqb_eq in Hk.
  split.
  - apply (unfinished_source letText
             (mkToken LET "let" :: mkToken IDENT x :: mkToken ASSIGN "="
              :: toks e)).
    + unfold letText. cbn [lexes].
      change ("let " ++ x ++ " = " ++ te) with ("let" ++ " " ++ x ++ " = " ++ te).
      rewrite (lex1_word "let" _ eq_refl) by reflexivity. cbn [fst snd].
      split; [reflexivity | split; [discriminate |]].
      change (" " ++ x ++ " = " ++ te)
        with (String " " (x ++ String " " (String "=" (String " " te)))).
      rewrite lex1_space.
      rewrite (lex1_word x _ Hl) by reflexivity. rewrite Hk.
      cbn [fst snd Type_].
      split; [reflexivity | split; [discriminate |]].
      change (lex1 (String " " (String "=" (String " " te))))
        with (mkToken ASSIGN "=", String " " te).
      cbn [fst snd Type_].
      split; [reflexivity | split; [discriminate |]].
      apply lexes_space. exact Le.
    + eexists; eexists; reflexivity.
    + intros p Hrep Hend. exists (S (S (need e))).
      apply unfinished_let; assumption.
  - apply (unfinished_source returnText (mkToken RETURN "return" :: toks e)).
    + unfold returnText. cbn [lexes].
      change ("return " ++ te) with ("return" ++ " " ++ te).
      rewrite (lex1_word "return" _ eq_refl) by reflexivity. cbn [fst snd].
      split; [reflexivity | split; [discriminate |]].
      change (" " ++ te) with (String " " te).
      apply lexes_space. exact Le.
    + eexists; eexists; reflexivity.
    + intros p Hrep Hend. exists (S (S (need e))).
      apply unfinished_return; assumption.
Qed.

Lemma missing_semicolon_is_reported_witness :
  (statements (parse (enough "let y = 7" + 0) "let y = 7")
   = Some [Some (LetStatement (mkToken LET "let")
                   (Some (mkIdentifier (mkToken IDENT "y") "y"))
                   (Some (IntegerLiteral (mkToken INT "7") 7)))]
   /\ diagnostics (parse (enough "let y = 7" + 0) "let y = 7")
      = Some ["Could not properly consume token: {EOF } expected: ;"])
  /\ (statements (parse (enough "return 7" + 0) "return 7")
      = Some [Some (ReturnStatement (mkToken RETURN "return")
                      (Some (IntegerLiteral (mkToken INT "7") 7)))]
      /\ diagnostics (parse (enough "return 7" + 0) "return 7")
         = Some ["Could not properly consume token: {EOF } expected: ;"]).
Proof.
  apply (missing_semicolon_is_reported "y"
           (IntegerLiteral (mkToken INT "7") 7) "7" 0);
    try reflexivity.
  apply plain_integer; reflexivity.
Defined.

(** ** Blocks and [if] expressions *)

Definition LB : Token := mkToken LBRACE "{".
Definition RB : Token := mkToken RBRACE "}".

Lemma plain_first_kind e :
  plain e ->
  exists t ts,
    toks e = t :: ts /\ lookup parselets (Type_ t) = None
    /\ typeIs t EOF = false /\ typeIs t RBRACE = false.
Proof.
  destruct 1; cbn [toks app Ident_Token]; eexists; eexists;
    (split; [reflexivity | split; [reflexivity | split; reflexivity]]).
Qed.

(** An expression statement that ends a block. *)
Lemma closing_statement e n p rest :
  plain e -> need e + 2 <= n ->
  repr p (toks e ++ RB :: rest) ->
  parseStatement (S n) p
  = Ok (Some (ExpressionStatement (List.hd zeroToken (toks e)) (Some e)))
      (advance (List.length (toks e)) p).
Proof.
  intros He Hn Hrep.
  destruct (plain_first_kind e He) as (t & ts & Et & Hl & _).
  assert (Hc : currentToken p = t).
  { rewrite Et in Hrep. exact (repr_current _ _ _ Hrep). }
  set (pe := advance (List.length (toks e)) p).
  assert (Hrepe : repr pe (RB :: rest)) by (apply repr_advance; exact Hrep).
  pose proof (repr_current _ _ _ Hrepe) as Hce.
  destruct n as [| [| n]]; try lia.
  cbn [parseStatement]. rewrite run_current, Hc, Hl.
  cbn [expressionStatementParselet]. rewrite run_current.
  rewrite (run_ok _ _ _ (Some e) pe).
  - rewrite run_current, Hce.
    change (typeIs RB SEMICOLON) with false. cbv iota.
    rewrite run_ret, Hc, Et. reflexivity.
  - apply (parse_operand e _ _ _ (RB :: rest)); auto.
    + lia.
    + unfold LOWEST; lia.
    + right. reflexivity.
Qed.

Lemma block_statements ss :
  plain_program ss ->
  forall F acc p rest,
    fuel_for ss <= F -> repr p (ptoks ss ++ RB :: rest) ->
    blockStatements F acc p
    = Ok (acc ++ reparsed ss)%list (advance (List.length (ptoks ss)) p).
Proof.
  induction 1 as [| tok e He | s ss Hs Hss IH]; intros F acc p rest HF Hrep.
  - cbn [fuel_for ptoks app reparsed List.map List.length advance] in *.
    destruct F as [| F]; [lia |].
    cbn [blockStatements]. rewrite run_current.
    rewrite (repr_current _ _ _ Hrep).
    change (negb (typeIs RB EOF) && negb (typeIs RB RBRACE)) with false.
    cbv iota. rewrite app_nil_r. reflexivity.
  - cbn [fuel_for ptoks stoks need_stmt] in *. rewrite app_nil_r in *.
    destruct F as [| F]; [lia |].
    destruct (plain_first_kind e He) as (t & ts & Et & _ & K1 & K2).
    assert (Hc : currentToken p = t).
    { rewrite Et in Hrep. exact (repr_current _ _ _ Hrep). }
    cbn [blockStatements]. rewrite run_current, Hc, K1, K2. cbn [negb andb].
    destruct F as [| F]; [lia |].
    rewrite (run_ok _ _ _ _ _
               (closing_statement e F p rest He ltac:(lia) Hrep)).
    pose proof (repr_advance (toks e) p (RB :: rest) Hrep) as Hend.
    cbn [blockStatements]. rewrite run_current.
    rewrite (repr_current _ _ _ Hend).
    change (negb (typeIs RB EOF) && negb (typeIs RB RBRACE)) with false.
    cbv iota. reflexivity.
  - cbn [fuel_for ptoks] in *. rewrite <- app_assoc in Hrep.
    destruct F as [| F]; [lia |].
    assert (Hk : typeIs (currentToken p) EOF = false
                 /\ typeIs (currentToken p) RBRACE = false).
    { destruct Hs; cbn [stoks app] in Hrep;
        rewrite (repr_current _ _ _ Hrep); split; reflexivity. }
    destruct Hk as [K1 K2].
    assert (Hrun : parseStatement F p
                   = Ok (Some s) (advance (List.length (stoks s)) p)).
    { apply (parseStatement_more (need_stmt s)); [lia |].
      destruct Hs as [x e Hx He | e He].
      - exact (parse_let x e p _ Hx He Hrep).
      - exact (parse_return e p _ He Hrep). }
    cbn [blockStatements]. rewrite run_current, K1, K2. cbn [negb andb].
    rewrite (run_ok _ _ _ _ _ Hrun).
    rewrite (IH F _ _ rest ltac:(lia) (repr_advance _ _ _ Hrep)).
    rewrite length_app, advance_add, <- app_assoc.
    cbn [reparsed List.map option_map app].
    destruct Hs; reflexivity.
Qed.

Definition block (ss : list (option Statement)) : BlockStatement :=
  mkBlockStatement LB (reparsed ss).

Lemma block_runs ss F p rest :
  plain_program ss -> fuel_for ss + 1 <= F ->
  repr p (LB :: ptoks ss ++ RB :: rest) ->
  blockStatementParselet F p
  = Ok (Some (StmtBlock (block ss)))
      (advance (List.length (LB :: ptoks ss ++ [RB])) p).
Proof.
  intros Hss HF Hrep.
  pose proof (repr_current _ _ _ Hrep) as Hc.
  pose proof (repr_next _ _ _ Hrep) as Hrep1.
  set (p1 := consumeNextToken p) in *.
  set (pe := advance (List.length (ptoks ss)) p1).
  assert (Hrepe : repr pe (RB :: rest)) by (apply repr_advance; exact Hrep1).
  pose proof (repr_current _ _ _ Hrepe) as Hce.
  assert (Hfinal : advance (List.length (LB :: ptoks ss ++ [RB])) p
                   = consumeNextToken pe).
  { cbn [List.length advance]. fold p1. rewrite length_app, advance_add.
    reflexivity. }
  rewrite Hfinal.
  destruct F as [| F]; [lia |].
  cbn [blockStatementParselet]. rewrite run_current, Hc.
  change (negb (typeIs LB LBRACE)) with false. cbv iota.
  rewrite run_exec, consumeToken_match by (unfold typeIs; rewrite Hc; reflexivity).
  fold p1.
  rewrite (run_ok _ _ _ _ _
             (block_statements ss Hss F [] p1 rest ltac:(lia) Hrep1)).
  fold pe. rewrite run_exec.
  rewrite consumeToken_match by (unfold typeIs; rewrite Hce; reflexivity).
  reflexivity.
Qed.


Definition IFT : Token := mkToken IF "if".
Definition ELSET : Token := mkToken ELSE "else".

(** The tokens of [if (c) { body }] and of [if (c) { body } else { alt }],
    and the tree they stand for. *)
Definition ifToks (c : Expression) (body : list (option Statement))
    (alt : option (list (option Statement))) : list Token :=
  IFT :: LP :: toks c ++ RP :: LB :: ptoks body ++ RB
  :: match alt with
     | Some a => ELSET :: LB :: ptoks a ++ [RB]
     | None => []
     end.

Definition ifTree (c : Expression) (body : list (option Statement))
    (alt : option (list (option Statement))) : Expression :=
  IfExpression IFT (Some c) (Some (block body)) (option_map block alt).

Lemma if_runs c body alt n p :
  plain c -> plain_program body ->
  match alt with
  | Some a => plain_program a /\ need c + fuel_for body + fuel_for a + 3 <= n
  | None => need c + fuel_for body + 3 <= n
  end ->
  repr p (ifToks c body alt) ->
  exists p',
    parseExpression (S n) LOWEST p = Ok (Some (ifTree c body alt)) p'
    /\ Type_ (currentToken p') = EOF
    /\ errors p' = errors p.
Proof.
  intros Hc Hbody Halt Hrep. unfold ifToks in Hrep.
  pose proof (repr_current _ _ _ Hrep) as C0.
  pose proof (repr_next _ _ _ Hrep) as Hrep1.
  pose proof (repr_current _ _ _ Hrep1) as C1.
  pose proof (repr_next _ _ _ Hrep1) as Hrep2.
  set (p2 := consumeNextToken (consumeNextToken p)) in *.
  set (pc := advance (List.length (toks c)) p2).
  assert (Hrepc : repr pc (RP :: LB :: ptoks body ++ RB
                           :: match alt with
                              | Some a => ELSET :: LB :: ptoks a ++ [RB]
                              | None => []
                              end))
    by (apply repr_advance; exact Hrep2).
  pose proof (repr_current _ _ _ Hrepc) as Cc.
  pose proof (repr_next _ _ _ Hrepc) as Hrep3.
  set (p3 := consumeNextToken pc) in *.
  set (pb := advance (List.length (LB :: ptoks body ++ [RB])) p3).
  assert (Hrepb : repr pb match alt with
                          | Some a => ELSET :: LB :: ptoks a ++ [RB]
                          | None => []
                          end).
  { apply repr_advance. cbn [app]. rewrite <- app_assoc. exact Hrep3. }
  assert (Ec : forall m, need c <= m ->
                 parseExpression (S m) LOWEST p2 = Ok (Some c) pc).
  { intros m Hm.
    eapply parse_operand;
      [exact Hc | exact Hm | unfold LOWEST; lia | exact Hrep2
      | right; reflexivity]. }
  assert (Eb : forall m, fuel_for body + 1 <= m ->
                 blockStatementParselet m p3 = Ok (Some (StmtBlock (block body))) pb).
  { intros m Hm. apply (block_runs body m p3 _ Hbody Hm Hrep3). }
  assert (Ep : errors pb = errors p).
  { unfold pb, p3, pc, p2.
    repeat (rewrite advance_errors || rewrite consumeNextToken_errors).
    reflexivity. }
  destruct n as [| [| n]]; [destruct alt as [a |]; lia .. |].
  destruct alt as [a |]; cbn [option_map] in *.
  - destruct Halt as [Ha Hn].
    pose proof (repr_current _ _ _ Hrepb) as Ce.
    pose proof (repr_next _ _ _ Hrepb) as Hrep4.
    set (p4 := consumeNextToken pb) in *.
    set (pa := advance (List.length (LB :: ptoks a ++ [RB])) p4).
    assert (Hrepa : repr pa []).
    { apply repr_advance. cbn [app]. rewrite <- app_assoc. exact Hrep4. }
    cbn [repr] in Hrepa.
    exists pa. split; [| split; [exact Hrepa |]].
    2:{ unfold pa, p4.
        repeat (rewrite advance_errors || rewrite consumeNextToken_errors).
        exact Ep. }
    cbn [parseExpression]. rewrite run_current, C0. unfold IFT at 1.
    lookup_now.
    rewrite (run_ok _ _ _ (Some (ifTree c body (Some a))) pa).
    { apply loop_stops; [unfold LOWEST; lia |]. right. rewrite Hrepa.
      reflexivity. }
    cbn [parseIfExpression]. rewrite run_current, C0.
    rewrite run_exec, consumeToken_match by (unfold typeIs; rewrite C0; reflexivity).
    rewrite run_exec, consumeToken_match by (unfold typeIs; rewrite C1; reflexivity).
    fold p2. rewrite (run_ok _ _ _ _ _ (Ec n ltac:(lia))).
    rewrite run_exec, consumeToken_match by (unfold typeIs; rewrite Cc; reflexivity).
    fold p3. rewrite (run_ok _ _ _ _ _ (Eb (S n) ltac:(lia))).
    cbn [assertBlockStatement]. rewrite run_ret, run_current, Ce.
    change (negb (typeIs ELSET ELSE)) with false. cbv iota.
    rewrite run_exec, consumeToken_match by (unfold typeIs; rewrite Ce; reflexivity).
    fold p4.
    rewrite (run_ok _ _ _ _ _
               (block_runs a (S n) p4 [] Ha ltac:(lia) Hrep4)).
    reflexivity.
  - cbn [repr] in Hrepb.
    exists pb. split; [| split; [exact Hrepb | exact Ep]].
    cbn [parseExpression]. rewrite run_current, C0. unfold IFT at 1.
    lookup_now.
    rewrite (run_ok _ _ _ (Some (ifTree c body None)) pb).
    { apply loop_stops; [unfold LOWEST; lia |]. right. rewrite Hrepb.
      reflexivity. }
    cbn [parseIfExpression]. rewrite run_current, C0.
    rewrite run_exec, consumeToken_match by (unfold typeIs; rewrite C0; reflexivity).
    rewrite run_exec, consumeToken_match by (unfold typeIs; rewrite C1; reflexivity).
    fold p2. rewrite (run_ok _ _ _ _ _ (Ec n ltac:(lia))).
    rewrite run_exec, consumeToken_match by (unfold typeIs; rewrite Cc; reflexivity).
    fold p3. rewrite (run_ok _ _ _ _ _ (Eb (S n) ltac:(lia))).
    cbn [assertBlockStatement]. rewrite run_ret, run_current.
    unfold typeIs. rewrite Hrepb.
    change (negb (String.eqb EOF ELSE)) with true. cbv iota. reflexivity.
Qed.


Lemma expression_source_at text ts e n :
  lexes text ts ->
  (exists t ts', ts = t :: ts' /\ lookup parselets (Type_ t) = None) ->
  (forall p, repr p ts ->
     exists p',
       parseExpression n LOWEST p = Ok (Some e) p'
       /\ Type_ (currentToken p') = EOF /\ errors p' = errors p) ->
  forall k,
    expressions (parse (enough text + k) text) = Some [Some e]
    /\ diagnostics (parse (enough text + k) text) = Some [].
Proof.
  intros Hl (t & ts' & -> & Hp) Hrun k.
  pose proof (stands_on_repr _ _ _ (stands_on_New text) Hl) as Hrep.
  pose proof Hrep as (Hc & Hne & _).
  destruct (Hrun _ Hrep) as (p' & He & Hend & Herr).
  rewrite (at_enough (S (S (S n))) text
             (Ok (mkProgram
                    [Some (ExpressionStatement
                             (currentToken (parser.New (lexer.New text)))
                             (Some e))]) p')).
  - cbn [expressions statements option_map List.map expressionOf Statements
           diagnostics].
    unfold Errors. rewrite Herr, New_errors. split; reflexivity.
  - apply expression_program;
      [rewrite Hc; exact Hp | rewrite Hc; exact Hne | exact He | exact Hend].
  - discriminate.
Qed.

Lemma program_lexes ss :
  plain_program ss ->
  forall text tail ts,
    WriteStrings Statement_String ss = Some text ->
    boundary tail -> lexes tail ts ->
    lexes (text ++ tail) (ptoks ss ++ ts).
Proof.
  induction 1 as [| tok e He | s ss Hs Hss IH]; intros text tail ts Et B Hts.
  - cbn [WriteStrings] in Et. injection Et as <-. exact Hts.
  - destruct (plain_text e He) as (te & Ee & _).
    cbn [WriteStrings obind Statement_String] in Et. rewrite Ee in Et.
    cbn [obind] in Et. injection Et as <-. rewrite append_empty.
    cbn [ptoks stoks]. rewrite app_nil_r.
    apply (operand_lexes e); assumption.
  - destruct (plain_stmt_text s Hs) as (t & Es & Ls).
    cbn [WriteStrings obind] in Et. rewrite Es in Et. cbn [obind] in Et.
    destruct (WriteStrings Statement_String ss) as [r |] eqn:Er;
      [| discriminate Et].
    cbn [obind] in Et. injection Et as <-.
    cbn [ptoks]. rewrite append_assoc, <- app_assoc.
    apply Ls. apply (IH r); auto.
Qed.

Lemma lex1_lbrace s : lex1 (String "{" s) = (LB, s).
Proof. reflexivity. Qed.

Lemma lex1_rbrace s : lex1 (String "}" s) = (RB, s).
Proof. reflexivity. Qed.

Lemma block_lexes ss tb tail ts :
  plain_program ss -> WriteStrings Statement_String ss = Some tb ->
  lexes tail ts ->
  lexes (" { " ++ tb ++ " }" ++ tail) (LB :: ptoks ss ++ RB :: ts).
Proof.
  intros Hss Eb Hts.
  change (" { " ++ tb ++ " }" ++ tail)
    with (String " " (String "{" (String " " (tb ++ String " " (String "}" tail))))).
  apply lexes_space. cbn [lexes]. rewrite lex1_lbrace. cbn [fst snd Type_].
  split; [reflexivity | split; [discriminate |]].
  apply lexes_space. apply (program_lexes ss Hss tb); auto.
  { split; reflexivity. }
  apply lexes_space. cbn [lexes]. rewrite lex1_rbrace. cbn [fst snd Type_].
  split; [reflexivity | split; [discriminate | exact Hts]].
Qed.

Lemma if_lexes c tc tail ts :
  plain c -> Expression_String c = Some tc -> lexes tail ts ->
  lexes ("if (" ++ tc ++ ")" ++ tail) (IFT :: LP :: toks c ++ RP :: ts).
Proof.
  intros Hc Ec Hts.
  change ("if (" ++ tc ++ ")" ++ tail)
    with ("if" ++ String " " (String "(" (tc ++ String ")" tail))).
  cbn [lexes]. rewrite (lex1_word "if" _ eq_refl) by reflexivity.
  cbn [fst snd Type_]. split; [reflexivity | split; [discriminate |]].
  rewrite lex1_space, lex1_lparen. cbn [fst snd Type_].
  split; [reflexivity | split; [discriminate |]].
  apply (operand_lexes c); auto; [split; reflexivity |].
  cbn [lexes]. rewrite lex1_rparen. cbn [fst snd Type_].
  split; [reflexivity | split; [discriminate | exact Hts]].
Qed.

Lemma else_lexes tail ts :
  isCharacter (head0 tail) = false -> lexes tail ts ->
  lexes (" else" ++ tail) (ELSET :: ts).
Proof.
  intros B Hts. change (" else" ++ tail) with (String " " ("else" ++ tail)).
  apply lexes_space. cbn [lexes]. rewrite (lex1_word "else" _ eq_refl) by exact B.
  cbn [fst snd Type_]. split; [reflexivity | split; [discriminate | exact Hts]].
Qed.

(** A tree up to the tokens that the expression statements of its blocks
    keep.  [expressionStatementParselet] reads the token and parses the
    expression in one composite literal, and Go does not fix which comes
    first; the properties of blocks are stated on what does not depend on
    it. *)
Definition forgetBlock (b : BlockStatement) : BlockStatement :=
  match b with
  | mkBlockStatement tok ss => mkBlockStatement tok (List.map forget ss)
  end.

Definition forgetBlocks (e : Expression) : Expression :=
  match e with
  | IfExpression tok c b a =>
      IfExpression tok c (option_map forgetBlock b) (option_map forgetBlock a)
  | FunctionLiteral tok ps b => FunctionLiteral tok ps (option_map forgetBlock b)
  | _ => e
  end.

Definition bodies (r : result Program) : option (list (option Expression)) :=
  option_map (List.map (option_map forgetBlocks)) (expressions r).

Lemma forgetBlock_block ss :
  forgetBlock (block ss) = mkBlockStatement LB (List.map forget ss).
Proof. unfold block. cbn [forgetBlock]. rewrite forget_reparsed. reflexivity. Qed.

(** X24.  [if] expressions.  For a condition [c] that is an identifier, an
    integer, a boolean or parenthesised, and blocks of [let] and [return]
    statements that may end in an expression statement, the text
    [if (c) { body }] parses without diagnostics to the [IfExpression] with
    that condition, that consequence and no alternative, and the text
    [if (c) { body } else { alt }] to the one with both blocks (up to the
    token that an expression statement at the end of a block keeps). *)
Theorem if_expression_parses c body alt tc tb ta k :
  plain c -> plain_program body -> plain_program alt ->
  Expression_String c = Some tc ->
  WriteStrings Statement_String body = Some tb ->
  WriteStrings Statement_String alt = Some ta ->
  let short := "if (" ++ tc ++ ") { " ++ tb ++ " }" in
  let long := "if (" ++ tc ++ ") { " ++ tb ++ " } else { " ++ ta ++ " }" in
  (bodies (parse (enough short + k) short)
   = Some [Some (IfExpression (mkToken IF "if") (Some c)
                   (Some (mkBlockStatement (mkToken LBRACE "{")
                            (List.map forget body)))
                   None)]
   /\ diagnostics (parse (enough short + k) short) = Some [])
  /\ (bodies (parse (enough long + k) long)
      = Some [Some (IfExpression (mkToken IF "if") (Some c)
                      (Some (mkBlockStatement (mkToken LBRACE "{")
                               (List.map forget body)))
                      (Some (mkBlockStatement (mkToken LBRACE "{")
                               (List.map forget alt))))]
      /\ diagnostics (parse (enough long + k) long) = Some []).
Proof.
  intros Hc Hbody Halt Ec Eb Ea short long. split.
  - assert (H : expressions (parse (enough short + k) short)
                = Some [Some (ifTree c body None)]
                /\ diagnostics (parse (enough short + k) short) = Some []).
    { apply (expression_source_at short (ifToks c body None) _
               (S (need c + fuel_for body + 3))).
      + unfold short, ifToks.
        change ("if (" ++ tc ++ ") { " ++ tb ++ " }")
          with ("if (" ++ tc ++ ")" ++ " { " ++ tb ++ " }" ++ "").
        apply if_lexes; auto. apply block_lexes; auto. reflexivity.
      + eexists; eexists. split; reflexivity.
      + intros p Hrep.
        apply (if_runs c body None _ p Hc Hbody (le_n _) Hrep). }
    destruct H as [H1 H2]. split; [| exact H2].
    unfold bodies. rewrite H1.
    cbn [option_map List.map forgetBlocks ifTree].
    rewrite forgetBlock_block. reflexivity.
  - assert (H : expressions (parse (enough long + k) long)
                = Some [Some (ifTree c body (Some alt))]
                /\ diagnostics (parse (enough long + k) long) = Some []).
    { apply (expression_source_at long (ifToks c body (Some alt)) _
               (S (need c + fuel_for body + fuel_for alt + 3))).
      + unfold long, ifToks.
        change ("if (" ++ tc ++ ") { " ++ tb ++ " } else { " ++ ta ++ " }")
          with ("if (" ++ tc ++ ")" ++ " { " ++ tb ++ " }"
                ++ " else" ++ " { " ++ ta ++ " }" ++ "").
        apply if_lexes; auto. apply block_lexes; auto.
        apply else_lexes; [reflexivity |].
        apply block_lexes; auto. reflexivity.
      + eexists; eexists. split; reflexivity.
      + intros p Hrep.
        apply (if_runs c body (Some alt) _ p Hc Hbody
                 (conj Halt (le_n _)) Hrep). }
    destruct H as [H1 H2]. split; [| exact H2].
    unfold bodies. rewrite H1.
    cbn [option_map List.map forgetBlocks ifTree].
    rewrite !forgetBlock_block. reflexivity.
Qed.

Lemma if_expression_parses_witness :
  (bodies (parse (enough "if (x) { return 1; }" + 0) "if (x) { return 1; }")
   = Some [Some (IfExpression (mkToken IF "if")
                   (Some (ExprIdentifier (mkIdentifier (mkToken IDENT "x") "x")))
                   (Some (mkBlockStatement (mkToken LBRACE "{")
                            [Some (ReturnStatement (mkToken RETURN "return")
                                     (Some (IntegerLiteral (mkToken INT "1") 1)))]))
                   None)]
   /\ diagnostics (parse (enough "if (x) { return 1; }" + 0)
                     "if (x) { return 1; }") = Some [])
  /\ (bodies (parse (enough "if (x) { return 1; } else { y }" + 0)
                "if (x) { return 1; } else { y }")
      = Some [Some (IfExpression (mkToken IF "if")
                      (Some (ExprIdentifier
                               (mkIdentifier (mkToken IDENT "x") "x")))
                      (Some (mkBlockStatement (mkToken LBRACE "{")
                               [Some (ReturnStatement (mkToken RETURN "return")
                                        (Some (IntegerLiteral (mkToken INT "1") 1)))]))
                      (Some (mkBlockStatement (mkToken LBRACE "{")
                               [Some (ExpressionStatement zeroToken
                                        (Some (ExprIdentifier
                                                 (mkIdentifier
                                                    (mkToken IDENT "y") "y"))))])))]
      /\ diagnostics (parse (enough "if (x) { return 1; } else { y }" + 0)
                        "if (x) { return 1; } else { y }") = Some []).
Proof.
  apply (if_expression_parses
           (ExprIdentifier (mkIdentifier (mkToken IDENT "x") "x"))
           [Some (ReturnStatement (mkToken RETURN "return")
                    (Some (IntegerLiteral (mkToken INT "1") 1)))]
           [Some (ExpressionStatement zeroToken
                    (Some (ExprIdentifier
                             (mkIdentifier (mkToken IDENT "y") "y"))))]
           "x" "return 1;" "y" 0);
    try reflexivity.
  - apply plain_identifier; reflexivity.
  - apply plain_cons; [| apply plain_nil].
    apply plain_return. apply plain_integer; reflexivity.
  - apply plain_last. apply plain_identifier; reflexivity.
Defined.

(** ** Function literals *)

Definition FNT : Token := mkToken FUNCTION "fn".
Definition COMMAT : Token := mkToken COMMA ",".

(** The tokens of a list of parameter names, and the parameters. *)
Fixpoint paramToks (xs : list string) : list Token :=
  match xs with
  | [] => []
  | x :: xs' =>
      mkToken IDENT x
      :: match xs' with
         | [] => []
         | _ => COMMAT :: paramToks xs'
         end
  end.

Definition params (xs : list string) : list (option Identifier) :=
  List.map (fun x => Some (mkIdentifier (mkToken IDENT x) x)) xs.

Lemma params_run xs : forall fuel acc p rest,
  List.length xs < fuel ->
  repr p (paramToks xs ++ RP :: rest) ->
  parseParameters fuel acc p
  = Ok (acc ++ params xs)%list (advance (List.length (paramToks xs)) p).
Proof.
  induction xs as [| x xs IH]; intros fuel acc p rest Hf Hrep;
    (destruct fuel as [| fuel]; [cbn [List.length] in Hf; lia |]).
  - cbn [paramToks app] in Hrep.
    rewrite parseParameters_stop
      by (rewrite (repr_current _ _ _ Hrep); reflexivity).
    cbn [params List.map paramToks List.length advance].
    rewrite app_nil_r. reflexivity.
  - cbn [paramToks app] in Hrep.
    pose proof (repr_current _ _ _ Hrep) as Hc.
    pose proof (repr_next _ _ _ Hrep) as Hrep1.
    destruct (parseParameters_step fuel acc p) as (p' & _ & Hp' & ->);
      try (rewrite Hc; reflexivity).
    rewrite Hc. unfold identifierOf. cbn [Literal].
    cbn [List.length] in Hf.
    destruct xs as [| y xs].
    + cbn [app] in Hrep1. rewrite (repr_current _ _ _ Hrep1) in Hp'.
      change (typeIs RP COMMA) with false in Hp'. cbv iota in Hp'. subst p'.
      rewrite (IH fuel _ _ rest ltac:(cbn [List.length]; lia) Hrep1).
      cbn [params List.map paramToks List.length advance app].
      rewrite <- app_assoc. reflexivity.
    + cbn [app] in Hrep1. rewrite (repr_current _ _ _ Hrep1) in Hp'.
      change (typeIs COMMAT COMMA) with true in Hp'. cbv iota in Hp'.
      subst p'. pose proof (repr_next _ _ _ Hrep1) as Hrep2.
      rewrite (IH fuel _ _ rest ltac:(cbn [List.length] in *; lia) Hrep2).
      cbn [params List.map List.length advance app].
      change (paramToks (x :: y :: xs))
        with (mkToken IDENT x :: COMMAT :: paramToks (y :: xs)).
      cbn [List.length advance]. rewrite <- app_assoc. reflexivity.
Qed.

Lemma lex1_comma s : lex1 (String "," s) = (COMMAT, s).
Proof. reflexivity. Qed.

Lemma params_lexes xs : forall tail ts,
  Forall (fun x => isIdentifier x = true) xs ->
  isCharacter (head0 tail) = false -> lexes tail ts ->
  lexes (gostd.Join xs ", " ++ tail) (paramToks xs ++ ts).
Proof.
  induction xs as [| x xs IH]; intros tail ts Hxs B Hts.
  - exact Hts.
  - inversion Hxs as [| x0 xs0 Hx Hxs']; subst.
    unfold isIdentifier in Hx. apply andb_prop in Hx. destruct Hx as [Hl Hk].
    apply String.eqb_eq in Hk.
    destruct xs as [| y xs].
    + cbn [gostd.Join paramToks app lexes].
      rewrite (lex1_word x tail Hl B), Hk. cbn [fst snd Type_].
      split; [reflexivity | split; [discriminate | exact Hts]].
    + change (gostd.Join (x :: y :: xs) ", ")
        with (x ++ ", " ++ gostd.Join (y :: xs) ", ").
      rewrite !append_assoc.
      change (", " ++ gostd.Join (y :: xs) ", " ++ tail)
        with (String "," (String " " (gostd.Join (y :: xs) ", " ++ tail))).
      change (paramToks (x :: y :: xs))
        with (mkToken IDENT x :: COMMAT :: paramToks (y :: xs)).
      cbn [app lexes].
      rewrite (lex1_word x _ Hl) by reflexivity. rewrite Hk.
      cbn [fst snd Type_]. split; [reflexivity | split; [discriminate |]].
      rewrite lex1_comma. cbn [fst snd Type_].
      split; [reflexivity | split; [discriminate |]].
      apply lexes_space. apply IH; assumption.
Qed.

Definition fnToks (xs : list string) (body : list (option Statement))
  : list Token :=
  FNT :: LP :: paramToks xs ++ RP :: LB :: ptoks body ++ [RB].

Lemma fn_runs xs body n p :
  plain_program body ->
  List.length xs + fuel_for body + 3 <= n ->
  repr p (fnToks xs body) ->
  exists p',
    parseExpression (S n) LOWEST p
    = Ok (Some (FunctionLiteral FNT (params xs) (Some (block body)))) p'
    /\ Type_ (currentToken p') = EOF
    /\ errors p' = errors p.
Proof.
  intros Hbody Hn Hrep. unfold fnToks in Hrep.
  pose proof (repr_current _ _ _ Hrep) as C0.
  pose proof (repr_next _ _ _ Hrep) as Hrep1.
  pose proof (repr_current _ _ _ Hrep1) as C1.
  pose proof (repr_next _ _ _ Hrep1) as Hrep2.
  set (p2 := consumeNextToken (consumeNextToken p)) in *.
  set (pp := advance (List.length (paramToks xs)) p2).
  assert (Hrepp : repr pp (RP :: LB :: ptoks body ++ [RB]))
    by (apply repr_advance; exact Hrep2).
  pose proof (repr_current _ _ _ Hrepp) as Cp.
  pose proof (repr_next _ _ _ Hrepp) as Hrep3.
  set (p3 := consumeNextToken pp) in *.
  set (pb := advance (List.length (LB :: ptoks body ++ [RB])) p3).
  assert (Hrepb : repr pb []).
  { apply repr_advance. cbn [app]. rewrite <- app_assoc. exact Hrep3. }
  cbn [repr] in Hrepb.
  exists pb. split; [| split; [exact Hrepb |]].
  2:{ unfold pb, p3, pp, p2.
      repeat (rewrite advance_errors || rewrite consumeNextToken_errors).
      reflexivity. }
  destruct n as [| [| n]]; try lia.
  cbn [parseExpression]. rewrite run_current, C0. unfold FNT at 1.
  lookup_now.
  rewrite (run_ok _ _ _
             (Some (FunctionLiteral FNT (params xs) (Some (block body)))) pb).
  { apply loop_stops; [unfold LOWEST; lia |]. right. rewrite Hrepb.
    reflexivity. }
  cbn [parseFunctionExpression]. rewrite run_current, C0.
  rewrite run_exec, consumeToken_match by (unfold typeIs; rewrite C0; reflexivity).
  rewrite run_exec, consumeToken_match by (unfold typeIs; rewrite C1; reflexivity).
  fold p2.
  rewrite (run_ok _ _ _ _ _
             (params_run xs (S n) [] p2 _ ltac:(lia) Hrep2)).
  fold pp. cbn [app].
  rewrite run_exec, consumeToken_match by (unfold typeIs; rewrite Cp; reflexivity).
  fold p3.
  rewrite (run_ok _ _ _ _ _
             (block_runs body (S n) p3 [] Hbody ltac:(lia) Hrep3)).
  reflexivity.
Qed.

(** X25.  Function literals.  For parameter names [xs] that are
    identifiers and a body of [let] and [return] statements that may end in
    an expression statement, the text [fn(x1, ..., xn) { body }] parses
    without diagnostics to the [FunctionLiteral] with these parameters, in
    their order, and that body (up to the token that an expression
    statement at the end of the body keeps); the list may be empty. *)
Theorem function_literal_parses xs body tb k :
  Forall (fun x => isIdentifier x = true) xs ->
  plain_program body ->
  WriteStrings Statement_String body = Some tb ->
  let text := "fn(" ++ gostd.Join xs ", " ++ ") { " ++ tb ++ " }" in
  bodies (parse (enough text + k) text)
  = Some [Some (FunctionLiteral (mkToken FUNCTION "fn")
                  (List.map
                     (fun x => Some (mkIdentifier (mkToken IDENT x) x)) xs)
                  (Some (mkBlockStatement (mkToken LBRACE "{")
                           (List.map forget body))))]
  /\ diagnostics (parse (enough text + k) text) = Some [].
Proof.
  intros Hxs Hbody Eb text.
  assert (H : expressions (parse (enough text + k) text)
              = Some [Some (FunctionLiteral FNT (params xs)
                              (Some (block body)))]
              /\ diagnostics (parse (enough text + k) text) = Some []).
  { apply (expression_source_at text (fnToks xs body) _
             (S (List.length xs + fuel_for body + 3))).
    - unfold text, fnToks.
      change ("fn(" ++ gostd.Join xs ", " ++ ") { " ++ tb ++ " }")
        with ("fn" ++ String "(" (gostd.Join xs ", "
                                    ++ String ")" (" { " ++ tb ++ " }" ++ ""))).
      cbn [lexes]. rewrite (lex1_word "fn" _ eq_refl) by reflexivity.
      cbn [fst snd Type_]. split; [reflexivity | split; [discriminate |]].
      rewrite lex1_lparen. cbn [fst snd Type_].
      split; [reflexivity | split; [discriminate |]].
      apply params_lexes; [exact Hxs | reflexivity |].
      cbn [lexes]. rewrite lex1_rparen. cbn [fst snd Type_].
      split; [reflexivity | split; [discriminate |]].
      apply block_lexes; auto. reflexivity.
    - eexists; eexists. split; reflexivity.
    - intros p Hrep. apply (fn_runs xs body _ p Hbody (le_n _) Hrep). }
  destruct H as [H1 H2]. split; [| exact H2].
  unfold bodies. rewrite H1. cbn [option_map List.map forgetBlocks].
  rewrite forgetBlock_block. reflexivity.
Qed.

Lemma function_literal_parses_witness :
  bodies (parse (enough "fn(a, b) { let c = a;(c + b) }" + 0)
            "fn(a, b) { let c = a;(c + b) }")
  = Some [Some (FunctionLiteral (mkToken FUNCTION "fn")
                  [Some (mkIdentifier (mkToken IDENT "a") "a");
                   Some (mkIdentifier (mkToken IDENT "b") "b")]
                  (Some (mkBlockStatement (mkToken LBRACE "{")
                           [Some (LetStatement (mkToken LET "let")
                                    (Some (mkIdentifier (mkToken IDENT "c") "c"))
                                    (Some (ExprIdentifier
                                             (mkIdentifier
                                                (mkToken IDENT "a") "a"))));
                            Some (ExpressionStatement zeroToken
                                    (Some (InfixExpression (mkToken "+" "+")
                                             (Some (ExprIdentifier
                                                      (mkIdentifier
                                                         (mkToken IDENT "c") "c")))
                                             "+"
                                             (Some (ExprIdentifier
                                                      (mkIdentifier
                                                         (mkToken IDENT "b")
                                                         "b"))))))])))]
  /\ diagnostics (parse (enough "fn(a, b) { let c = a;(c + b) }" + 0)
                    "fn(a, b) { let c = a;(c + b) }") = Some [].
Proof.
  apply (function_literal_parses ["a"; "b"]
           [Some (LetStatement (mkToken LET "let")
                    (Some (mkIdentifier (mkToken IDENT "c") "c"))
                    (Some (ExprIdentifier
                             (mkIdentifier (mkToken IDENT "a") "a"))));
            Some (ExpressionStatement zeroToken
                    (Some (InfixExpression (mkToken "+" "+")
                             (Some (ExprIdentifier
                                      (mkIdentifier (mkToken IDENT "c") "c")))
                             "+"
                             (Some (ExprIdentifier
                                      (mkIdentifier (mkToken IDENT "b") "b"))))))]
           "let c = a;(c + b)" 0).
  - repeat constructor.
  - apply plain_cons.
    + apply plain_let; [reflexivity | apply plain_identifier; reflexivity].
    + apply plain_last.
      apply plain_infix; [reflexivity | |]; apply plain_identifier; reflexivity.
  - reflexivity.
Defined.

(** ** The whitespace loop and the rendering of statement lists *)

(** X26.  The loop of [consumeWhitespaces] ends because it has reached a
    byte that is no whitespace (or the end of the input), never for any
    other reason: wherever the lexer stands, afterwards the current byte is
    not a whitespace, the input is unchanged, the cursor has not moved
    back, and every byte it has passed is a whitespace. *)
Theorem consumeWhitespaces_skips_whitespace src n :
  let l := after n (lexer.New src) in
  let l' := consumeWhitespaces l in
  isWhitespace (ch l') = false
  /\ input l' = src
  /\ position l <= position l' <= String.length src
  /\ every isWhitespace
       (substring (position l) (position l' - position l) src) = true.
Proof.
  intros l l'. pose proof (reached_wf src n) as Hwf. fold l in Hwf.
  pose proof (after_input n _ (New_wf src)) as Hin.
  rewrite New_input in Hin. fold l in Hin.
  assert (Hfuel : remaining l < loop_fuel l)
    by (unfold loop_fuel, remaining; lia).
  pose proof (scan_stops whitespaceCond eq_refl (loop_fuel l) l Hwf Hfuel) as Hs.
  destruct (scan_rest whitespaceCond eq_refl (loop_fuel l) l Hwf Hfuel)
    as [_ Hp].
  pose proof (scan_literal whitespaceCond eq_refl l Hwf) as Hlit.
  pose proof (consumeWhitespaces_wf l Hwf) as [Hb _ _].
  change (scan whitespaceCond (loop_fuel l) l) with l' in Hs, Hp, Hlit.
  rewrite consumeWhitespaces_input in Hb. fold l' in Hb.
  assert (Hin' : input l' = src)
    by (unfold l'; rewrite consumeWhitespaces_input; exact Hin).
  rewrite Hin in Hb. rewrite Hin' in Hlit.
  split; [| split; [exact Hin' | split; [lia |]]].
  - unfold whitespaceCond in Hs.
    destruct (Ascii.eqb (ch l') zero) eqn:E; [| exact Hs].
    apply Ascii.eqb_eq in E. rewrite E. reflexivity.
  - rewrite Hlit. clear. induction (rest l) as [| c s IH]; simpl;
      [reflexivity |].
    destruct (whitespaceCond c) eqn:E; [| reflexivity].
    simpl. rewrite IH, andb_true_r. unfold whitespaceCond in E.
    apply andb_prop in E. tauto.
Qed.

Lemma WriteStrings_app {A : Type} (f : A -> option string) xs ys :
  WriteStrings f (xs ++ ys)
  = (a <-? WriteStrings f xs ;; b <-? WriteStrings f ys ;; Some (a ++ b)).
Proof.
  induction xs as [| x xs IH]; cbn [app WriteStrings obind].
  - destruct (WriteStrings f ys); reflexivity.
  - destruct (obind x f) as [s |]; cbn [obind]; [| reflexivity].
    rewrite IH. destruct (WriteStrings f xs) as [a |]; cbn [obind];
      [| reflexivity].
    destruct (WriteStrings f ys) as [b |]; cbn [obind]; [| reflexivity].
    rewrite append_assoc. reflexivity.
Qed.

(** X27.  Rendering goes statement by statement.  The text of a program,
    and of a block, whose statements are [xs] followed by [ys] is the text
    of [xs] followed by the text of [ys]; it panics exactly when one of the
    two does.  The token of a block plays no part in its text. *)
Theorem rendering_concatenates xs ys tok :
  Program_String (mkProgram (xs ++ ys))
  = (a <-? Program_String (mkProgram xs) ;;
     b <-? Program_String (mkProgram ys) ;; Some (a ++ b))
  /\ BlockStatement_String (mkBlockStatement tok (xs ++ ys))
     = Program_String (mkProgram (xs ++ ys)).
Proof.
  unfold Program_String. cbn [Statements BlockStatement_String].
  split; [apply WriteStrings_app | reflexivity].
Qed.

End Coverage.

(** * Precedence, associativity and prefix binding, for every expression *)

Module Precedence.
Import token lexer ast parser LexerProps Lexing ParserProps RoundTrip Coverage.

#[local] Arguments consumeNextToken : simpl never.
#[local] Arguments consumeToken : simpl never.

(** ** The grouping that the specification asks for

    The precedence table in the words of the specification, low to high:
    equality ([==], [!=]) < relational ([<], [>]) < additive ([+], [-]) <
    multiplicative ([*], [/]).  A token that is not listed has rank 0.  The
    table is compared with the one of the parser in [table_matches_spec]. *)
Definition spec_precedence (op : string) : nat :=
  if String.eqb op "==" || String.eqb op "!=" then 1
  else if String.eqb op "<" || String.eqb op ">" then 2
  else if String.eqb op "+" || String.eqb op "-" then 3
  else if String.eqb op "*" || String.eqb op "/" then 4
  else 0.

(** [groups x Es e]: the operand [x] followed by the operators and operands
    [Es], in the order of the text, stands for the tree [e].  The operator
    at the root binds no tighter than any operator to its left and is
    strictly looser than every operator to its right: higher precedence
    binds first, and operators of the same precedence group from the
    left. *)
Inductive groups : Expression -> list (string * Expression) -> Expression -> Prop :=
| groups_nil x : groups x [] x
| groups_split x L o y R l r :
    groups x L l -> groups y R r ->
    Forall (fun z => spec_precedence o <= spec_precedence (fst z)) L ->
    Forall (fun z => spec_precedence o < spec_precedence (fst z)) R ->
    groups x (L ++ (o, y) :: R)
      (InfixExpression (mkToken o o) (Some l) o (Some r)).

(** The tokens of operators and operands in a row. *)
Fixpoint flatten (Ts : list (string * list Token)) : list Token :=
  match Ts with
  | [] => []
  | (o, Y) :: Ts' => mkToken o o :: Y ++ flatten Ts'
  end.

(** [operand X x]: the tokens [X] are an operand, and [x] is its tree.  An
    operand is an identifier, an integer, a boolean, a prefix operator in
    front of an operand (so a prefix operator takes the operand next to it
    and nothing more), or an expression in parentheses, which stands for
    the tree of the expression itself.  [operands Ts Es]: the tokens [Ts]
    of operands with their trees in [Es], each behind an infix operator. *)
Inductive operand : list Token -> Expression -> Prop :=
| operand_identifier v :
    operand [mkToken IDENT v] (ExprIdentifier (mkIdentifier (mkToken IDENT v) v))
| operand_integer v z :
    strconv.ParseInt0 v = inl z ->
    operand [mkToken INT v] (IntegerLiteral (mkToken INT v) z)
| operand_true : operand [mkToken TRUE "true"] (Boolean (mkToken TRUE "true") true)
| operand_false :
    operand [mkToken FALSE "false"] (Boolean (mkToken FALSE "false") false)
| operand_prefix op X x :
    isPrefixOp op = true -> operand X x ->
    operand (mkToken op op :: X) (PrefixExpression (mkToken op op) op (Some x))
| operand_group X x Ts Es e :
    operand X x -> operands Ts Es -> groups x Es e ->
    operand (LP :: X ++ flatten Ts ++ [RP]) e
with operands : list (string * list Token) -> list (string * Expression) -> Prop :=
| operands_nil : operands [] []
| operands_cons o Y y Ts Es :
    isInfixOp o = true -> operand Y y -> operands Ts Es ->
    operands ((o, Y) :: Ts) ((o, y) :: Es).

Scheme operand_both := Minimality for operand Sort Prop
with operands_both := Minimality for operands Sort Prop.

Combined Scheme operand_operands from operand_both, operands_both.

(** The text of a tree with every application of an operator in
    parentheses, in the words of the specification: a leaf is its own text,
    a prefix expression is [(<op><operand>)], an infix expression is
    [(<left> <op> <right>)]. *)
Fixpoint parenthesized (e : Expression) : string :=
  match e with
  | ExprIdentifier i => Ident_Value i
  | IntegerLiteral tok _ => Literal tok
  | Boolean tok _ => Literal tok
  | PrefixExpression _ op (Some r) => "(" ++ op ++ parenthesized r ++ ")"
  | InfixExpression _ (Some a) op (Some b) =>
      "(" ++ parenthesized a ++ " " ++ op ++ " " ++ parenthesized b ++ ")"
  | _ => EmptyString
  end.

(** The precedence of the parser for a rank of the specification. *)
Definition bound (rk : nat) : Z := Z.of_nat rk + 1.

(** The first operator of [Es], if any, has rank [m] at most. *)
Definition leads {A : Type} (m : nat) (Es : list (string * A)) : Prop :=
  match Es with
  | [] => True
  | z :: _ => spec_precedence (fst z) <= m
  end.

(** [parses X x]: on the tokens [X] the parser reads the tree [x] before it
    enters its loop, whatever the precedence it was called with and whatever
    follows.  [all_parse Ts Es]: so for each of the operands behind an infix
    operator. *)
Definition parses (X : list Token) (x : Expression) : Prop :=
  forall prec p rest,
    repr p (X ++ rest) ->
    exists N, forall n, N <= n ->
      parseExpression (S n) prec p
      = parseExpression_loop n prec (Some x) (advance (List.length X) p).

Inductive all_parse : list (string * list Token) -> list (string * Expression) -> Prop :=
| all_parse_nil : all_parse [] []
| all_parse_cons o Y y Ts Es :
    isInfixOp o = true -> parses Y y -> all_parse Ts Es ->
    all_parse ((o, Y) :: Ts) ((o, y) :: Es).

(** *** The grouping exists and is unique *)

Lemma two_splits {A : Type} (L : list A) : forall L' R R' a a',
  (L ++ a :: R = L' ++ a' :: R')%list ->
  (L = L' /\ a = a' /\ R = R')
  \/ (exists M, L' = L ++ a :: M /\ R = M ++ a' :: R')%list
  \/ (exists M, L = L' ++ a' :: M /\ R' = M ++ a :: R)%list.
Proof.
  induction L as [| b L IH]; intros [| b' L'] R R' a a' H; cbn [app] in H.
  - injection H as -> ->. left. auto.
  - injection H as -> ->. right. left. exists L'. auto.
  - injection H as -> <-. right. right. exists L. auto.
  - injection H as -> H.
    destruct (IH _ _ _ _ _ H) as [(-> & -> & ->) | [[M [-> ->]] | [M [-> ->]]]].
    + left. auto.
    + right. left. exists M. auto.
    + right. right. exists M. auto.
Qed.

Lemma groups_inv x Es e :
  groups x Es e ->
  (Es = [] /\ e = x)
  \/ exists L o y R l r,
       Es = (L ++ (o, y) :: R)%list
       /\ e = InfixExpression (mkToken o o) (Some l) o (Some r)
       /\ groups x L l /\ groups y R r
       /\ Forall (fun z => spec_precedence o <= spec_precedence (fst z)) L
       /\ Forall (fun z => spec_precedence o < spec_precedence (fst z)) R.
Proof.
  destruct 1 as [x | x L o y R l r Hl Hr FL FR]; [left; auto | right].
  exists L, o, y, R, l, r. auto 10.
Qed.

Lemma groups_unique n : forall Es x e e',
  List.length Es <= n -> groups x Es e -> groups x Es e' -> e = e'.
Proof.
  induction n as [| n IH]; intros Es x e e' Hn H H';
    destruct (groups_inv _ _ _ H)
      as [[E1 He] | (L & o & y & R & l & r & E1 & He & Hl & Hr & FL & FR)];
    destruct (groups_inv _ _ _ H')
      as [[E2 He'] | (L' & o' & y' & R' & l' & r' & E2 & He' & Hl' & Hr' & FL' & FR')].
  all: try congruence.
  all: try (rewrite E1 in E2; destruct L'; discriminate E2).
  all: try (rewrite E2 in E1; destruct L; discriminate E1).
  all: rewrite E1, length_app in Hn; cbn [List.length] in Hn; try lia.
  rewrite E1 in E2. subst e e'.
  destruct (two_splits _ _ _ _ _ _ E2)
    as [(-> & E & ->) | [[M [-> ->]] | [M [-> ->]]]].
  - injection E as -> ->.
    assert (l = l') as -> by (apply (IH L' x); [lia | assumption ..]).
    assert (r = r') as -> by (apply (IH R' y'); [lia | assumption ..]).
    reflexivity.
  - exfalso. apply Forall_app in FL'. destruct FL' as [_ FL'].
    inversion FL' as [| ? ? A _]; subst.
    apply Forall_app in FR. destruct FR as [_ FR].
    inversion FR as [| ? ? B _]; subst. cbn [fst] in *. lia.
  - exfalso. apply Forall_app in FL. destruct FL as [_ FL].
    inversion FL as [| ? ? A _]; subst.
    apply Forall_app in FR'. destruct FR' as [_ FR'].
    inversion FR' as [| ? ? B _]; subst. cbn [fst] in *. lia.
Qed.

Lemma groups_more y Es r :
  groups y Es r -> forall x o, exists e, groups x ((o, y) :: Es) e.
Proof.
  induction 1 as [y | y L o1 y1 R l r1 Hl IHl Hr _ FL FR]; intros x o.
  - eexists. apply (groups_split x [] o y []); constructor.
  - destruct (Nat.le_gt_cases (spec_precedence o1) (spec_precedence o))
      as [Hle | Hlt].
    + destruct (IHl x o) as [el Hel]. eexists.
      apply (groups_split x ((o, y) :: L) o1 y1 R el r1 Hel Hr);
        [constructor; assumption | exact FR].
    + eexists.
      apply (groups_split x [] o y (L ++ (o1, y1) :: R) x _ (groups_nil x)
               (groups_split _ _ _ _ _ _ _ Hl Hr FL FR)); [constructor |].
      apply Forall_app. split; [| constructor].
      * eapply Forall_impl; [| exact FL]. cbv beta. intros; lia.
      * exact Hlt.
      * eapply Forall_impl; [| exact FR]. cbv beta. intros; lia.
Qed.

Lemma groups_total Es : forall x, exists e, groups x Es e.
Proof.
  induction Es as [| [o y] Es IH]; intros x.
  - exists x. constructor.
  - destruct (IH y) as [r Hr]. exact (groups_more y Es r Hr x o).
Qed.

(** *** The table of the parser is the table of the specification *)

Lemma infix_has_precedence op :
  isInfixOp op = true ->
  lookup precedences op = Some (bound (spec_precedence op))
  /\ 1 <= spec_precedence op.
Proof.
  intros H. apply infix_cases in H. cbn [In] in H.
  repeat (destruct H as [H | H];
          [subst op; split; [reflexivity | vm_compute; lia] |]).
  contradiction.
Qed.

Lemma table_matches_spec op :
  match lookup precedences op with
  | Some pr => pr = bound (spec_precedence op) /\ 1 <= spec_precedence op
  | None => spec_precedence op = 0
  end.
Proof.
  destruct (lookup precedences op) as [pr |] eqn:E.
  - destruct (precedence_facts op pr E) as [Hop _].
    destruct (infix_has_precedence op Hop) as [E' Hpos].
    split; [congruence | exact Hpos].
  - unfold spec_precedence.
    repeat match goal with
           | |- context [String.eqb op ?k] =>
               destruct (String.eqb_spec op k) as [-> | _];
               [vm_compute in E; discriminate E |]
           end.
    reflexivity.
Qed.

Lemma spec_precedence_max op : spec_precedence op <= 4.
Proof.
  unfold spec_precedence.
  repeat match goal with
         | |- context [if ?b then _ else _] => destruct b
         end; lia.
Qed.

Lemma leads_max {A : Type} (Es : list (string * A)) : leads 4 Es.
Proof. destruct Es; cbn [leads]; [exact I | apply spec_precedence_max]. Qed.

(** *** The loop of [parseExpression] builds the grouping *)

Lemma flatten_app Ta Tb : flatten (Ta ++ Tb) = (flatten Ta ++ flatten Tb)%list.
Proof.
  induction Ta as [| [o Y] Ta IH]; cbn [app flatten]; [reflexivity |].
  rewrite IH, <- app_assoc. reflexivity.
Qed.

(** Behind the operand of a prefix operator the loop ends on every token:
    no operator binds tighter than a prefix operator. *)
Lemma loop_at_prefix n e p : parseExpression_loop (S n) PREFIX e p = Ok e p.
Proof.
  cbn [parseExpression_loop]. rewrite run_current, run_read.
  unfold getCurrentPrecedence.
  destruct (lookup precedences (Type_ (currentToken p))) as [pr |] eqn:E.
  - destruct (precedence_facts _ _ E) as [_ B].
    destruct (Z.ltb_spec PREFIX pr) as [H | _];
      [unfold PREFIX, PRODUCT in *; lia |].
    rewrite andb_false_r. reflexivity.
  - change (PREFIX <? LOWEST)%Z with false.
    rewrite andb_false_r. reflexivity.
Qed.

(** The invariant of the loop.  The loop runs at rank [rk] with the tree
    [lft] of the operators [Ls] it has passed, none of which is looser than
    the operator in front of it.  It takes the operators [Ea] that follow as
    long as they are tighter than [rk], each with the operands that group
    to its right, and leaves the tree [e] of all it has passed. *)
Lemma loop_groups len : forall Ts Es,
  List.length Ts < len -> all_parse Ts Es ->
  forall rk m x Ls lft,
    groups x Ls lft ->
    Forall (fun z => m <= spec_precedence (fst z)) Ls ->
    leads m Es ->
    exists Ta Tb Ea Eb e,
      Ts = (Ta ++ Tb)%list /\ Es = (Ea ++ Eb)%list /\ all_parse Tb Eb
      /\ groups x (Ls ++ Ea) e
      /\ Forall (fun z => rk < spec_precedence (fst z)) Ea
      /\ leads rk Eb
      /\ forall p rest,
           repr p (flatten Ts ++ rest) -> stops rest ->
           exists N, forall n, N <= n ->
             parseExpression_loop n (bound rk) (Some lft) p
             = Ok (Some e) (advance (List.length (flatten Ta)) p).
Proof.
  induction len as [| len IH]; intros Ts Es Hlen HP rk m x Ls lft Hg Hm Hlead;
    [lia |].
  destruct HP as [| o Y y Ts Es Hop HY HP].
  - exists [], [], [], [], lft.
    split; [reflexivity |]. split; [reflexivity |].
    split; [constructor |]. split; [rewrite app_nil_r; exact Hg |].
    split; [constructor |]. split; [exact I |].
    intros p rest Hrep Hs. cbn [flatten app] in Hrep.
    exists 1. intros [| n] Hn; [lia |].
    cbn [flatten List.length advance].
    apply loop_stops; [unfold bound, LOWEST; lia |].
    apply (repr_stopper _ rest); assumption.
  - destruct (infix_has_precedence o Hop) as [Hpr Hpos].
    cbn [leads fst] in Hlead. cbn [List.length] in Hlen.
    destruct (Nat.le_gt_cases (spec_precedence o) rk) as [Hle | Hlt].
    + exists [], ((o, Y) :: Ts), [], ((o, y) :: Es), lft.
      split; [reflexivity |]. split; [reflexivity |].
      split; [constructor; assumption |].
      split; [rewrite app_nil_r; exact Hg |].
      split; [constructor |]. split; [exact Hle |].
      intros p rest Hrep Hs. cbn [flatten app] in Hrep.
      pose proof (repr_current _ _ _ Hrep) as Hc.
      exists 1. intros [| n] Hn; [lia |].
      cbn [flatten List.length advance].
      apply (loop_yields _ _ _ _ o (bound (spec_precedence o)));
        [exact Hc | exact Hpr | unfold bound; lia].
    + assert (Hlen1 : List.length Ts < len) by lia.
      destruct (IH Ts Es Hlen1 HP (spec_precedence o) 4 y [] y
                  (groups_nil y) (Forall_nil _) (leads_max Es))
        as (T1 & T2 & E1 & E2 & r & -> & -> & HP2 & Hr & F1 & Hl2 & Run1).
      cbn [app] in Hr.
      assert (Hg' : groups x (Ls ++ (o, y) :: E1)
                      (InfixExpression (mkToken o o) (Some lft) o (Some r))).
      { apply groups_split; auto.
        eapply Forall_impl; [| exact Hm]. cbv beta. intros; lia. }
      assert (Hm' : Forall (fun z => spec_precedence o <= spec_precedence (fst z))
                      (Ls ++ (o, y) :: E1)).
      { apply Forall_app. split.
        - eapply Forall_impl; [| exact Hm]. cbv beta. intros; lia.
        - constructor; [cbn [fst]; lia |].
          eapply Forall_impl; [| exact F1]. cbv beta. intros; lia. }
      assert (Hlen2 : List.length T2 < len).
      { rewrite length_app in Hlen1. lia. }
      destruct (IH T2 E2 Hlen2 HP2 rk (spec_precedence o) x _ _ Hg' Hm' Hl2)
        as (Ta & Tb & Ea & Eb & e & -> & -> & HPb & He & Fa & Hlb & Run2).
      exists ((o, Y) :: T1 ++ Ta), Tb, ((o, y) :: E1 ++ Ea), Eb, e.
      split; [cbn [app]; rewrite app_assoc; reflexivity |].
      split; [cbn [app]; rewrite app_assoc; reflexivity |].
      split; [exact HPb |].
      split; [rewrite <- app_assoc in He; exact He |].
      split.
      { constructor; [exact Hlt |]. apply Forall_app. split; [| exact Fa].
        eapply Forall_impl; [| exact F1]. cbv beta. intros; lia. }
      split; [exact Hlb |].
      intros p rest Hrep Hs. cbn [flatten app] in Hrep.
      rewrite <- app_assoc in Hrep.
      pose proof (repr_current _ _ _ Hrep) as Hc.
      pose proof (repr_next _ _ _ Hrep) as Hrep1.
      destruct (HY (bound (spec_precedence o)) _ _ Hrep1) as [N1 H1].
      pose proof (repr_advance _ _ _ Hrep1) as HrepY.
      destruct (Run1 _ rest HrepY Hs) as [N2 H2].
      rewrite flatten_app, <- app_assoc in HrepY.
      pose proof (repr_advance _ _ _ HrepY) as Hrep2.
      destruct (Run2 _ rest Hrep2 Hs) as [N3 H3].
      exists (N1 + N2 + N3 + 3). intros [| [| [| n]]] Hn; try lia.
      rewrite (infix_step (S n) (bound rk) (Some lft) (Some r) p
                 (advance (List.length (flatten T1))
                    (advance (List.length Y) (consumeNextToken p)))
                 o (bound (spec_precedence o)) Hc Hpr).
      * rewrite H3 by lia. f_equal.
        cbn [flatten List.length advance].
        rewrite flatten_app, !length_app, !advance_add. reflexivity.
      * unfold bound. lia.
      * rewrite H1 by lia. apply H2. lia.
Qed.

Lemma nothing_left Tb Eb :
  all_parse Tb Eb -> leads 0 Eb -> Tb = [] /\ Eb = [].
Proof.
  destruct 1 as [| o Y y Ts Es Hop _ _]; [auto |].
  cbn [leads fst]. destruct (infix_has_precedence o Hop) as [_ Hpos]. lia.
Qed.

(** An operand and all that follows it, up to a token that is no operator:
    the tree is the grouping. *)
Lemma operands_run X x Ts Es e :
  parses X x -> all_parse Ts Es -> groups x Es e ->
  forall p rest,
    repr p (X ++ flatten Ts ++ rest) -> stops rest ->
    exists N, forall n, N <= n ->
      parseExpression (S n) LOWEST p
      = Ok (Some e) (advance (List.length (X ++ flatten Ts)) p).
Proof.
  intros HX HT Hg p rest Hrep Hs.
  destruct (HX LOWEST p _ Hrep) as [N1 H1].
  pose proof (repr_advance _ _ _ Hrep) as HrepX.
  destruct (loop_groups (S (List.length Ts)) Ts Es (Nat.lt_succ_diag_r _) HT
              0 4 x [] x (groups_nil x) (Forall_nil _) (leads_max Es))
    as (Ta & Tb & Ea & Eb & e' & ETs & EEs & HPb & He & _ & Hlb & Run).
  destruct (nothing_left Tb Eb HPb Hlb) as [-> ->].
  rewrite app_nil_r in ETs, EEs. subst Ta Ea. cbn [app] in He.
  rewrite (groups_unique _ Es x e e' (le_n _) Hg He).
  destruct (Run _ rest HrepX Hs) as [N2 H2].
  exists (N1 + N2). intros n Hn.
  rewrite H1 by lia. change LOWEST with (bound 0).
  rewrite H2 by lia. rewrite length_app, advance_add. reflexivity.
Qed.

(** *** Operands *)

Lemma operands_parse :
  (forall X x, operand X x -> parses X x)
  /\ (forall Ts Es, operands Ts Es -> all_parse Ts Es).
Proof.
  apply (operand_operands parses all_parse).
  - intros v prec p rest Hrep. cbn [app] in Hrep.
    pose proof (repr_current _ _ _ Hrep) as Hc.
    exists 0. intros n _.
    cbn [parseExpression]. rewrite run_current, Hc.
    lookup_now. rewrite run_assoc, run_call, run_ret.
    unfold parseIdentifier. rewrite Hc. reflexivity.
  - intros v z Hz prec p rest Hrep. cbn [app] in Hrep.
    pose proof (repr_current _ _ _ Hrep) as Hc.
    exists 0. intros n _.
    cbn [parseExpression]. rewrite run_current, Hc.
    lookup_now. rewrite run_call.
    unfold parseIntegerLiteral. rewrite Hc. cbn [Literal]. rewrite Hz.
    reflexivity.
  - intros prec p rest Hrep. cbn [app] in Hrep.
    pose proof (repr_current _ _ _ Hrep) as Hc.
    exists 0. intros n _.
    cbn [parseExpression]. rewrite run_current, Hc.
    lookup_now. rewrite run_call.
    unfold parseBooleanLiteral. rewrite Hc. reflexivity.
  - intros prec p rest Hrep. cbn [app] in Hrep.
    pose proof (repr_current _ _ _ Hrep) as Hc.
    exists 0. intros n _.
    cbn [parseExpression]. rewrite run_current, Hc.
    lookup_now. rewrite run_call.
    unfold parseBooleanLiteral. rewrite Hc. reflexivity.
  - intros op X x Hop _ IH prec p rest Hrep. cbn [app] in Hrep.
    pose proof (repr_current _ _ _ Hrep) as Hc.
    pose proof (repr_next _ _ _ Hrep) as Hrep1.
    destruct (IH PREFIX _ _ Hrep1) as [N HN].
    exists (N + 3). intros [| [| [| n]]] Hn; try lia.
    assert (Hpre : parsePrefixOperator (S (S (S n))) p
                   = Ok (Some (PrefixExpression (mkToken op op) op (Some x)))
                       (advance (List.length X) (consumeNextToken p))).
    { cbn [parsePrefixOperator]. rewrite run_current, Hc, run_exec.
      rewrite (run_ok _ _ _ (Some x)
                 (advance (List.length X) (consumeNextToken p)));
        [reflexivity |].
      rewrite HN by lia. apply loop_at_prefix. }
    cbn [parseExpression]. rewrite run_current, Hc. cbn [Type_].
    apply prefix_cases in Hop.
    destruct Hop as [-> | ->]; lookup_now;
      rewrite (run_ok _ _ _ _ _ Hpre); reflexivity.
  - intros X x Ts Es e _ HX _ HT Hg prec p rest Hrep.
    cbn [app] in Hrep. rewrite <- !app_assoc in Hrep. cbn [app] in Hrep.
    pose proof (repr_current _ _ _ Hrep) as Hc.
    pose proof (repr_next _ _ _ Hrep) as Hrep1.
    destruct (operands_run X x Ts Es e HX HT Hg _ (RP :: rest) Hrep1)
      as [N HN]; [right; reflexivity |].
    rewrite app_assoc in Hrep1.
    pose proof (repr_advance _ _ _ Hrep1) as HrepE.
    pose proof (repr_current _ _ _ HrepE) as Hce.
    exists (N + 2). intros [| [| n]] Hn; try lia.
    cbn [parseExpression]. rewrite run_current, Hc. lookup_now.
    rewrite (run_ok _ _ _ (Some e)
               (consumeNextToken
                  (advance (List.length (X ++ flatten Ts))
                     (consumeNextToken p)))).
    + f_equal. cbn [List.length advance].
      rewrite (app_assoc X), (length_app (X ++ flatten Ts) [RP]), advance_add.
      reflexivity.
    + cbn [parseGroupedExpression]. rewrite run_exec.
      rewrite consumeToken_match by (unfold typeIs; rewrite Hc; reflexivity).
      rewrite (run_ok _ _ _ _ _ (HN n ltac:(lia))). rewrite run_exec.
      rewrite consumeToken_match by (unfold typeIs; rewrite Hce; reflexivity).
      reflexivity.
  - constructor.
  - intros o Y y Ts Es Hop _ HY _ HT. constructor; assumption.
Qed.

(** The first token of an operand starts no statement of its own. *)
Lemma operand_first X x :
  operand X x ->
  exists t X', X = t :: X' /\ lookup parselets (Type_ t) = None.
Proof.
  destruct 1 as [v | v z Hz | | | op X x Hop Hx | X x Ts Es e Hx HT Hg];
    eexists; eexists; (split; [reflexivity |]); try reflexivity.
  apply prefix_cases in Hop. destruct Hop as [-> | ->]; reflexivity.
Qed.

(** *** The rendering *)

Definition renders_as (e : Expression) : Prop :=
  Expression_String e = Some (parenthesized e).

Lemma groups_render x Es e :
  groups x Es e ->
  renders_as x -> Forall (fun z => renders_as (snd z)) Es -> renders_as e.
Proof.
  induction 1 as [x | x L o y R l r Hl IHl Hr IHr FL FR]; intros Hx HE;
    [exact Hx |].
  apply Forall_app in HE. destruct HE as [HL HR].
  inversion HR as [| ? ? Hy HR']; subst. cbn [snd] in Hy.
  specialize (IHl Hx HL). specialize (IHr Hy HR').
  unfold renders_as in *. cbn [Expression_String parenthesized obind].
  rewrite IHl, IHr. cbn [obind]. rewrite !append_assoc. reflexivity.
Qed.

Lemma operands_render :
  (forall X x, operand X x -> renders_as x)
  /\ (forall Ts Es, operands Ts Es -> Forall (fun z => renders_as (snd z)) Es).
Proof.
  apply (operand_operands
           (fun _ x => renders_as x)
           (fun _ Es => Forall (fun z => renders_as (snd z)) Es)).
  - reflexivity.
  - reflexivity.
  - reflexivity.
  - reflexivity.
  - intros op X x _ _ IH. unfold renders_as in *.
    cbn [Expression_String parenthesized obind]. rewrite IH. reflexivity.
  - intros X x Ts Es e _ Hx _ HE Hg. exact (groups_render _ _ _ Hg Hx HE).
  - constructor.
  - intros o Y y Ts Es _ _ Hy _ HE. constructor; assumption.
Qed.

(** *** The statement and the program *)

Lemma statement_runs X x Ts Es e p :
  operand X x -> operands Ts Es -> groups x Es e ->
  repr p (X ++ flatten Ts ++ [SEMI]) ->
  exists N p',
    ParseProgram N p
    = Ok (mkProgram [Some (ExpressionStatement (currentToken p) (Some e))]) p'
    /\ errors p' = errors p.
Proof.
  intros HX HT Hg Hrep.
  destruct operands_parse as [PX PT].
  destruct (operand_first X x HX) as (t & X' & EX & Hl).
  assert (Hc : currentToken p = t /\ Type_ t <> EOF).
  { rewrite EX in Hrep. cbn [app repr] in Hrep. tauto. }
  destruct Hc as [Hc Hne].
  destruct (operands_run X x Ts Es e (PX _ _ HX) (PT _ _ HT) Hg p [SEMI] Hrep)
    as [N HN]; [left; reflexivity |].
  rewrite app_assoc in Hrep.
  pose proof (repr_advance _ _ _ Hrep) as HrepE.
  pose proof (repr_current _ _ _ HrepE) as Hce.
  pose proof (repr_next _ _ _ HrepE) as Hend. cbn [repr] in Hend.
  set (pe := advance (List.length (X ++ flatten Ts)) p) in *.
  exists (S (S (S (S N)))), (consumeNextToken pe). split.
  - apply statement_program; [rewrite Hc; exact Hne | | exact Hend].
    cbn [parseStatement]. rewrite run_current, Hc, Hl.
    cbn [expressionStatementParselet]. rewrite run_current.
    rewrite (run_ok _ _ _ _ _ (HN N (le_n _))), run_current.
    unfold typeIs. rewrite Hce. change (String.eqb (Type_ SEMI) SEMICOLON) with true.
    cbv iota. rewrite run_exec.
    rewrite consumeToken_match by (unfold typeIs; rewrite Hce; reflexivity).
    rewrite Hc. reflexivity.
  - unfold pe. rewrite consumeNextToken_errors, advance_errors. reflexivity.
Qed.

(** C3.  Parsing a single expression statement and rendering the program
    gives the fully parenthesized text that reflects precedence, left
    associativity and prefix binding.  Take any source text that lexes to an
    operand, any number of infix operators each followed by an operand, and
    a semicolon, where an operand is an identifier, an integer literal in
    range, a boolean, a prefix operator in front of an operand, or such an
    expression in parentheses.  Then the parse records no diagnostic, the
    program is one expression statement, and its expression is the one tree
    [e] that groups the operands by the precedence table of the
    specification: the operator at the root of each subtree is strictly
    looser than every operator to its right and no tighter than any to its
    left, so higher precedence binds first and equal precedence groups from
    the left, and a prefix operator holds only the operand next to it.  The
    rendering is the text of [e] with every application of an operator in
    parentheses.  The answer is the same with any more fuel.  The three
    inputs of the specification are instances: ["1 + 2 * 3;"] gives
    ["(1 + (2 * 3))"], ["1 - 2 - 3;"] gives ["((1 - 2) - 3)"] and
    ["-1 * 2;"] gives ["((-1) * 2)"]. *)
Theorem rendering_follows_precedence :
  (forall src X x Ts Es,
     lexes src (X ++ flatten Ts ++ [SEMI]) ->
     operand X x -> operands Ts Es ->
     exists e,
       groups x Es e
       /\ (forall e', groups x Es e' -> e' = e)
       /\ forall k,
            rendering (parse (enough src + k) src) = Some (parenthesized e)
            /\ diagnostics (parse (enough src + k) src) = Some []
            /\ expressions (parse (enough src + k) src) = Some [Some e])
  /\ (forall k,
        rendering (parse (20 + k) "1 + 2 * 3;") = Some "(1 + (2 * 3))"
        /\ rendering (parse (20 + k) "1 - 2 - 3;") = Some "((1 - 2) - 3)"
        /\ rendering (parse (20 + k) "-1 * 2;") = Some "((-1) * 2)"
        /\ diagnostics (parse (20 + k) "1 + 2 * 3;") = Some []
        /\ diagnostics (parse (20 + k) "1 - 2 - 3;") = Some []
        /\ diagnostics (parse (20 + k) "-1 * 2;") = Some []
        /\ option_map (@List.length _) (statements (parse (20 + k) "1 + 2 * 3;"))
           = Some 1
        /\ option_map (@List.length _) (statements (parse (20 + k) "1 - 2 - 3;"))
           = Some 1
        /\ option_map (@List.length _) (statements (parse (20 + k) "-1 * 2;"))
           = Some 1).
Proof.
  split.
  - intros src X x Ts Es Hlex HX HT.
    destruct (groups_total Es x) as [e He]. exists e.
    split; [exact He |].
    split; [intros e' He'; exact (groups_unique _ Es x e' e (le_n _) He' He) |].
    pose proof (stands_on_repr _ _ _ (stands_on_New src) Hlex) as Hrep.
    destruct (statement_runs X x Ts Es e _ HX HT He Hrep)
      as (N & p' & Hrun & Herr).
    destruct operands_render as [RX RT].
    pose proof (groups_render _ _ _ He (RX _ _ HX) (RT _ _ HT)) as Htext.
    intros k.
    rewrite (at_enough N src _ Hrun) by discriminate.
    cbn [rendering diagnostics expressions statements option_map List.map
           expressionOf Statements Program_String WriteStrings obind
           Statement_String].
    unfold Errors. rewrite Herr, New_errors, Htext. cbn [obind].
    rewrite append_empty. repeat split; reflexivity.
  - exact precedence_examples.
Qed.

Lemma rendering_follows_precedence_witness :
  lexes "1 + 2 * 3;"
    ([mkToken INT "1"]
     ++ flatten [("+", [mkToken INT "2"]); ("*", [mkToken INT "3"])]
     ++ [SEMI])
  /\ operand [mkToken INT "1"] (IntegerLiteral (mkToken INT "1") 1)
  /\ operands [("+", [mkToken INT "2"]); ("*", [mkToken INT "3"])]
       [("+", IntegerLiteral (mkToken INT "2") 2);
        ("*", IntegerLiteral (mkToken INT "3") 3)]
  /\ exists e,
       groups (IntegerLiteral (mkToken INT "1") 1)
         [("+", IntegerLiteral (mkToken INT "2") 2);
          ("*", IntegerLiteral (mkToken INT "3") 3)] e
       /\ (forall e',
             groups (IntegerLiteral (mkToken INT "1") 1)
               [("+", IntegerLiteral (mkToken INT "2") 2);
                ("*", IntegerLiteral (mkToken INT "3") 3)] e' -> e' = e)
       /\ forall k,
            rendering (parse (enough "1 + 2 * 3;" + k) "1 + 2 * 3;")
            = Some (parenthesized e)
            /\ diagnostics (parse (enough "1 + 2 * 3;" + k) "1 + 2 * 3;")
               = Some []
            /\ expressions (parse (enough "1 + 2 * 3;" + k) "1 + 2 * 3;")
               = Some [Some e].
Proof.
  assert (HL : lexes "1 + 2 * 3;"
                 ([mkToken INT "1"]
                  ++ flatten [("+", [mkToken INT "2"]); ("*", [mkToken INT "3"])]
                  ++ [SEMI])).
  { vm_compute. repeat split; discriminate. }
  assert (H1 : operand [mkToken INT "1"] (IntegerLiteral (mkToken INT "1") 1)).
  { apply operand_integer. reflexivity. }
  assert (H2 : operands [("+", [mkToken INT "2"]); ("*", [mkToken INT "3"])]
                 [("+", IntegerLiteral (mkToken INT "2") 2);
                  ("*", IntegerLiteral (mkToken INT "3") 3)]).
  { repeat (constructor; try reflexivity). }
  split; [exact HL |]. split; [exact H1 |]. split; [exact H2 |].
  exact (proj1 rendering_follows_precedence _ _ _ _ _ HL H1 H2).
Defined.

End Precedence.
